(** * The dashboard client: file tree, status counts and polling pages

    A shallow embedding of the logic of the React pages
    [Dashboard], [CodeMap], [AgentWorkflow] and [Recommendations]:

    - [CodeMap.buildTreeData] with its inner [convertToArray];
    - the counts computed in [Dashboard.loadProjects] and in the
      header card of [Recommendations];
    - the [useEffect] / [setInterval] / [loadData] polling of [CodeMap]
      and [AgentWorkflow], as a transition system over browser events;
    - [onSelect] of [CodeMap] and the render that throws when the
      builder does;
    - [handleSubmit] of [CodeAnalysis] and of [RequirementAnalysis].

    JavaScript values are modelled as the code uses them: strings as
    [string], a plain object used as a dictionary as an association list
    in insertion order together with the properties it inherits from
    [Object.prototype], [undefined] / [null] as [None], a thrown
    [TypeError] as [None] in the result of the builder. *)

From Stdlib Require Import List String Ascii Bool Arith Lia NArith.
From Stdlib Require Import DecimalString Permutation.
Import ListNotations.
Open Scope string_scope.
Open Scope list_scope.
Open Scope nat_scope.

Set Warnings "-register-all".

(** ** JavaScript strings and plain objects *)

Module Js.

(** [s.split(sep)] for a one-character separator: never empty, keeps
    empty pieces ([''.split('/')] is [['']], ['a//b'.split('/')] is
    [['a', '', 'b']]). *)
Fixpoint split (sep : ascii) (s : string) : list string :=
  match s with
  | EmptyString => [EmptyString]
  | String c rest =>
      if Ascii.eqb c sep then EmptyString :: split sep rest
      else match split sep rest with
           | [] => [String c EmptyString]
           | piece :: pieces => String c piece :: pieces
           end
  end.

(** [str + n] for a non-negative integer [n]: decimal digits appended. *)
Definition number_to_string (n : nat) : string :=
  NilZero.string_of_uint (Nat.to_uint n).

Definition concat_number (s : string) (n : nat) : string :=
  (s ++ number_to_string n)%string.

(** A plain object [{}] as a dictionary: own properties in insertion
    order. *)
Definition object (A : Type) : Type := list (string * A).

Definition own {A} (o : object A) (k : string) : option A :=
  match find (fun e => String.eqb (fst e) k) o with
  | Some e => Some (snd e)
  | None => None
  end.

(** [o[k] = v]: an existing own property keeps its position, a new one
    goes last. *)
Fixpoint set {A} (o : object A) (k : string) (v : A) : object A :=
  match o with
  | [] => [(k, v)]
  | (k', v') :: o' =>
      if String.eqb k' k then (k, v) :: o' else (k', v') :: set o' k v
  end.

(** The property names every plain object inherits from
    [Object.prototype]; reading one of them on [{}] gives a function
    (for [__proto__], the prototype object), which is truthy and has no
    [children] property. *)
Definition prototype_names : list string :=
  [ "constructor"; "__defineGetter__"; "__defineSetter__";
    "hasOwnProperty"; "__lookupGetter__"; "__lookupSetter__";
    "isPrototypeOf"; "propertyIsEnumerable"; "toString"; "valueOf";
    "__proto__"; "toLocaleString" ].

Definition inherited (k : string) : bool :=
  existsb (String.eqb k) prototype_names.

(** The result of the property read [o[k]]. *)
Inductive read_result (A : Type) : Type :=
| Own (v : A)
| Inherited
| Undefined.
Arguments Own {A} v.
Arguments Inherited {A}.
Arguments Undefined {A}.

Definition read {A} (o : object A) (k : string) : read_result A :=
  match own o k with
  | Some v => Own v
  | None => if inherited k then Inherited else Undefined
  end.

(** Array indices: canonical decimal strings below [2^32 - 1]. Own
    property enumeration lists them first, in ascending numeric order,
    before the other string keys in insertion order. *)
Definition digit_value (c : ascii) : option N :=
  let n := N_of_ascii c in
  if (48 <=? n)%N && (n <=? 57)%N then Some (n - 48)%N else None.

Fixpoint digits_value (s : string) (acc : N) : option N :=
  match s with
  | EmptyString => Some acc
  | String c rest =>
      match digit_value c with
      | Some d => digits_value rest (acc * 10 + d)%N
      | None => None
      end
  end.

Definition array_index (k : string) : option N :=
  match k with
  | EmptyString => None
  | String c rest =>
      if Ascii.eqb c "0"%char
      then match rest with EmptyString => Some 0%N | _ => None end
      else match digits_value k 0 with
           | Some v => if (v <? 4294967295)%N then Some v else None
           | None => None
           end
  end.

Fixpoint insert_by_index {A} (i : N) (e : string * A)
         (l : list (N * (string * A))) : list (N * (string * A)) :=
  match l with
  | [] => [(i, e)]
  | (j, e') :: l' =>
      if (i <=? j)%N then (i, e) :: l else (j, e') :: insert_by_index i e l'
  end.

Fixpoint index_entries {A} (o : object A) : list (N * (string * A)) :=
  match o with
  | [] => []
  | e :: o' =>
      match array_index (fst e) with
      | Some i => insert_by_index i e (index_entries o')
      | None => index_entries o'
      end
  end.

Definition named_entries {A} (o : object A) : object A :=
  filter (fun e => match array_index (fst e) with
                   | Some _ => false
                   | None => true
                   end) o.

(** [Object.entries(o)], [Object.keys(o)], [Object.values(o)]. *)
Definition entries {A} (o : object A) : list (string * A) :=
  map snd (index_entries o) ++ named_entries o.

Definition keys {A} (o : object A) : list string := map fst (entries o).

Definition values {A} (o : object A) : list A := map snd (entries o).

End Js.

(** ** Records served by the backend

    Only the fields the pages compute with are kept. *)

Record project : Type := Project {
  name : string;
  status : string
}.

Record recommendation : Type := Recommendation {
  rec_file_path : string;
  component_type : string;
  change_type : string
}.

(** ** The polling pattern of the pages

    [CodeMap] and [AgentWorkflow] share one shape:
<<
    useEffect(() => {
      loadData();
      const interval = setInterval(() => { ... loadData() ... }, ms);
      return () => clearInterval(interval);
    }, [id]);

    const loadData = async () => {
      try { ...; const res = await Promise.all([...]); setX(res.data); ... }
      catch (error) { console.error('Error loading data:', error); }
      finally { setLoading(false); }
    };
>>
    The machine below runs it over the events the browser and React
    deliver. The pages instantiate the parameters with their own state
    and their own [loadData]. *)

Module Polling.

Section Machine.
Variables State Data Captured Error : Type.

(** The [useState] initial values. *)
Variable initial : State.
(** What the interval callback closes over: state read in the render
    in which the effect ran. *)
Variable capture : State -> Captured.
(** The condition under which the interval callback calls
    [loadData]. *)
Variable gate : Captured -> bool.
(** [loadData] up to its [await], after a fulfilled [await], and
    its [finally] block. *)
Variable on_call : State -> State.
Variable on_fulfilled : Data -> State -> State.
Variable on_finally : State -> State.
(** Whether the page has a button whose handler is [loadData]. *)
Variable has_reload : bool.

(** How [await Promise.all([...])] ends. *)
Inductive outcome : Type :=
| Fulfilled (d : Data)
| Rejected (e : Error).

(** The machine follows one instance of the component: it is mounted
    once, and once unmounted it is gone. *)
Inductive lifecycle : Type := Mounted | NotMounted | Unmounted.

Record world : Type := World {
  view : State;                      (* state of the component *)
  life : lifecycle;
  timers : list (nat * Captured);    (* live intervals and their closure *)
  cleanup : option nat;              (* interval held by the effect cleanup *)
  next_timer : nat;
  pending : list nat;                (* loadData calls at their await *)
  calls : nat;                       (* loadData calls made so far *)
  console : list Error               (* console.error output *)
}.

Definition mounted (w : world) : bool :=
  match life w with
  | Mounted => true
  | NotMounted | Unmounted => false
  end.

Definition start : world :=
  World initial NotMounted [] None 0 [] 0 [].

(** State setters of an unmounted component do nothing. *)
Definition set_state (f : State -> State) (w : world) : world :=
  if mounted w
  then World (f (view w)) (life w) (timers w) (cleanup w)
             (next_timer w) (pending w) (calls w) (console w)
  else w.

(** A call of [loadData]: runs to the [await]; the call is numbered
    by issue order. *)
Definition loadData (w : world) : world :=
  let w1 := set_state on_call w in
  World (view w1) (life w1) (timers w1) (cleanup w1) (next_timer w1)
        (pending w1 ++ [calls w1]) (S (calls w1)) (console w1).

Definition remove_call (k : nat) (l : list nat) : list nat :=
  filter (fun j => negb (Nat.eqb j k)) l.

(** Call [k] of [loadData] resumes after its [await]. *)
Definition loadData_resume (k : nat) (o : outcome) (w : world) : world :=
  if existsb (Nat.eqb k) (pending w) then
    let w1 := World (view w) (life w) (timers w) (cleanup w)
                    (next_timer w) (remove_call k (pending w))
                    (calls w) (console w) in
    let w2 :=
      match o with
      | Fulfilled d => set_state (on_fulfilled d) w1
      | Rejected e =>
          World (view w1) (life w1) (timers w1) (cleanup w1)
                (next_timer w1) (pending w1) (calls w1)
                (console w1 ++ [e])
      end in
    set_state on_finally w2
  else w.

Definition setInterval (c : Captured) (w : world) : world :=
  World (view w) (life w) (timers w ++ [(next_timer w, c)])
        (Some (next_timer w)) (S (next_timer w)) (pending w) (calls w)
        (console w).

Definition clearInterval (id : nat) (w : world) : world :=
  World (view w) (life w)
        (filter (fun t => negb (Nat.eqb (fst t) id)) (timers w))
        (cleanup w) (next_timer w) (pending w) (calls w) (console w).

(** The effect: [loadData(); setInterval(...)]; its callback closes
    over the state of the render the effect belongs to. *)
Definition run_effect (w : world) : world :=
  let c := capture (view w) in
  setInterval c (loadData w).

(** The function the effect returned. *)
Definition run_cleanup (w : world) : world :=
  match cleanup w with
  | Some id =>
      let w1 := clearInterval id w in
      World (view w1) (life w1) (timers w1) None (next_timer w1)
            (pending w1) (calls w1) (console w1)
  | None => w
  end.

Inductive event : Type :=
| Mount                      (* first render, effect runs *)
| IdChange                   (* the dependency [id] changed *)
| Unmount
| Tick (id : nat)            (* interval [id] fires *)
| Settle (k : nat) (o : outcome)  (* the await of call [k] ends *)
| Reload.                    (* click on the reload button *)

Definition step (w : world) (e : event) : world :=
  match e with
  | Mount =>
      match life w with
      | NotMounted =>
          run_effect
            (World initial Mounted (timers w) (cleanup w) (next_timer w)
                   (pending w) (calls w) (console w))
      | Mounted | Unmounted => w
      end
  | IdChange =>
      if mounted w then run_effect (run_cleanup w) else w
  | Unmount =>
      if mounted w then
        let w1 := run_cleanup w in
        World (view w1) Unmounted (timers w1) (cleanup w1) (next_timer w1)
              (pending w1) (calls w1) (console w1)
      else w
  | Tick id =>
      match find (fun t => Nat.eqb (fst t) id) (timers w) with
      | Some (_, c) => if gate c then loadData w else w
      | None => w
      end
  | Settle k o => loadData_resume k o w
  | Reload => if has_reload && mounted w then loadData w else w
  end.

Definition run (w : world) (trace : list event) : world :=
  fold_left step trace w.

(** Whether interval [id] is still scheduled. *)
Definition scheduled (id : nat) (w : world) : bool :=
  existsb (fun t => Nat.eqb (fst t) id) (timers w).

End Machine.

Arguments Fulfilled {Data Error} d.
Arguments Rejected {Data Error} e.
Arguments view {State Captured Error} w.
Arguments life {State Captured Error} w.
Arguments mounted {State Captured Error} w.
Arguments timers {State Captured Error} w.
Arguments cleanup {State Captured Error} w.
Arguments next_timer {State Captured Error} w.
Arguments pending {State Captured Error} w.
Arguments calls {State Captured Error} w.
Arguments console {State Captured Error} w.
Arguments Mount {Data Error}.
Arguments IdChange {Data Error}.
Arguments Unmount {Data Error}.
Arguments Tick {Data Error} id.
Arguments Settle {Data Error} k o.
Arguments Reload {Data Error}.
Arguments scheduled {State Captured Error} id w.

End Polling.

(** ** CodeMap: the file tree *)

Module CodeMap.

(** One element of [codeMaps]: the builder reads [file_path] only and
    passes the record on as [data]. *)
Record codeMap (Details : Type) : Type := CodeMapRecord {
  file_path : string;
  details : Details
}.
Arguments CodeMapRecord {Details} file_path details.
Arguments file_path {Details} c.
Arguments details {Details} c.

Inductive icon : Type := FileOutlined | FolderOutlined.

(** The objects stored in [tree] while it is built: [children] is again
    a dictionary. *)
Inductive node (Details : Type) : Type := Node {
  key : string;
  title : string;
  node_icon : icon;
  children : Js.object (node Details);
  isFile : bool;
  data : option (codeMap Details)
}.
Arguments Node {Details} key title node_icon children isFile data.
Arguments key {Details} n.
Arguments title {Details} n.
Arguments node_icon {Details} n.
Arguments children {Details} n.
Arguments isFile {Details} n.
Arguments data {Details} n.

(** The elements of the array handed to the [Tree] widget: [children]
    is an array, or [undefined] for a node without children. *)
Inductive treeNode (Details : Type) : Type := TreeNode {
  tkey : string;
  ttitle : string;
  ticon : icon;
  tchildren : option (list (treeNode Details));
  tisFile : bool;
  tdata : option (codeMap Details)
}.
Arguments TreeNode {Details} tkey ttitle ticon tchildren tisFile tdata.
Arguments tkey {Details} t.
Arguments ttitle {Details} t.
Arguments ticon {Details} t.
Arguments tchildren {Details} t.
Arguments tisFile {Details} t.
Arguments tdata {Details} t.

Section Builder.
Context {Details : Type}.

Definition with_children (n : node Details)
           (ch : Js.object (node Details)) : node Details :=
  Node (key n) (title n) (node_icon n) ch (isFile n) (data n).

(** The object literal assigned to [current[part]]. *)
Definition new_node (cm : codeMap Details) (len : nat)
           (part : string) (idx : nat) : node Details :=
  let last := Nat.eqb idx (len - 1) in
  Node (Js.concat_number (file_path cm) idx)
       part
       (if last then FileOutlined else FolderOutlined)
       []
       last
       (if last then Some cm else None).

(** The body of [parts.forEach((part, idx) => ...)] from position
    [idx] on, with [current] pointing at a dictionary of the tree;
    [len] is [parts.length]. The dictionary is returned with the
    updates the loop makes below it.

    When [current[part]] is inherited from [Object.prototype] the
    test [!current[part]] is false, nothing is created and
    [current] becomes [undefined]: a further segment then reads a
    property of [undefined] and throws ([None]); as the last
    segment it ends the loop quietly. *)
Fixpoint walk (cm : codeMap Details) (len : nat) (parts : list string)
         (idx : nat) (current : Js.object (node Details))
  : option (Js.object (node Details)) :=
  match parts with
  | [] => Some current
  | part :: rest =>
      match Js.read current part with
      | Js.Inherited =>
          match rest with
          | [] => Some current
          | _ :: _ => None
          end
      | Js.Own n =>
          match walk cm len rest (S idx) (children n) with
          | Some ch => Some (Js.set current part (with_children n ch))
          | None => None
          end
      | Js.Undefined =>
          let n := new_node cm len part idx in
          match walk cm len rest (S idx) (children n) with
          | Some ch => Some (Js.set current part (with_children n ch))
          | None => None
          end
      end
  end.

(** One round of [codeMaps.forEach(cm => ...)]. *)
Definition add_record (tree : Js.object (node Details))
           (cm : codeMap Details) : option (Js.object (node Details)) :=
  let parts := Js.split "/"%char (file_path cm) in
  walk cm (List.length parts) parts 0 tree.

Fixpoint add_records (cms : list (codeMap Details))
         (tree : Js.object (node Details))
  : option (Js.object (node Details)) :=
  match cms with
  | [] => Some tree
  | cm :: cms' =>
      match add_record tree cm with
      | Some tree' => add_records cms' tree'
      | None => None
      end
  end.

(** [convertToArray]: the spread copies every field, [children] is
    replaced by the converted array, or by [undefined] when the
    dictionary has no keys. The items are converted in place and
    enumerated afterwards: enumeration order depends on the keys
    alone. *)
Fixpoint convert_item (item : node Details) : treeNode Details :=
  match item with
  | Node k t i ch f d =>
      let converted :=
        (fix convert_all (o : Js.object (node Details))
           : Js.object (treeNode Details) :=
           match o with
           | [] => []
           | (name, child) :: o' =>
               (name, convert_item child) :: convert_all o'
           end) ch in
      TreeNode k t i
               (if Nat.ltb 0 (List.length (Js.keys ch))
                then Some (Js.values converted) else None)
               f d
  end.

Definition convert_all (o : Js.object (node Details))
  : Js.object (treeNode Details) :=
  map (fun e => (fst e, convert_item (snd e))) o.

Definition convertToArray (obj : Js.object (node Details))
  : list (treeNode Details) :=
  Js.values (convert_all obj).

(** [buildTreeData], as a function of the [codeMaps] state it reads;
    [None] when the loop throws. *)
Definition buildTreeData (codeMaps : list (codeMap Details))
  : option (list (treeNode Details)) :=
  match add_records codeMaps [] with
  | Some tree => Some (convertToArray tree)
  | None => None
  end.

End Builder.

(** *** Nodes of a tree, listed

    Every node below a dictionary of the tree under construction, and
    every node of the forest handed to the widget. *)

Section Nodes.
Context {Details : Type}.

Fixpoint descendants (n : node Details) : list (node Details) :=
  match n with
  | Node _ _ _ ch _ _ =>
      n :: (fix below (o : Js.object (node Details)) : list (node Details) :=
              match o with
              | [] => []
              | (_, child) :: o' => descendants child ++ below o'
              end) ch
  end.

Definition object_nodes (o : Js.object (node Details))
  : list (node Details) :=
  flat_map (fun e => descendants (snd e)) o.

Fixpoint subtree (t : treeNode Details) : list (treeNode Details) :=
  match t with
  | TreeNode _ _ _ ch _ _ =>
      t :: match ch with
           | Some l =>
               (fix below (l : list (treeNode Details))
                  : list (treeNode Details) :=
                  match l with
                  | [] => []
                  | child :: l' => subtree child ++ below l'
                  end) l
           | None => []
           end
  end.

Definition forest_nodes (forest : list (treeNode Details))
  : list (treeNode Details) :=
  flat_map subtree forest.

(** The child arrays of a forest: the roots and every [children]
    array. *)
Definition sibling_groups (forest : list (treeNode Details))
  : list (list (treeNode Details)) :=
  forest ::
  flat_map (fun t => match tchildren t with
                     | Some l => [l]
                     | None => []
                     end) (forest_nodes forest).

End Nodes.

(** *** The page state and its polling

    The state the effect, [loadData] and [buildTreeData] work with;
    [selectedFile], which only [onSelect] writes, is left out. *)

Section Page.
Context {Details Summary Error : Type}.

Record state : Type := State {
  project_state : option project;
  codeMaps : list (codeMap Details);
  summary : option Summary;
  loading : bool
}.

Definition initial : state := State None [] None true.

Definition setProject (p : project) (s : state) : state :=
  State (Some p) (codeMaps s) (summary s) (loading s).

Definition setCodeMaps (l : list (codeMap Details)) (s : state) : state :=
  State (project_state s) l (summary s) (loading s).

Definition setSummary (x : Summary) (s : state) : state :=
  State (project_state s) (codeMaps s) (Some x) (loading s).

Definition setLoading (b : bool) (s : state) : state :=
  State (project_state s) (codeMaps s) (summary s) b.

(** [projectRes.data], [codeMapsRes.data], [summaryRes.data]. *)
Record response : Type := Response {
  projectRes : project;
  codeMapsRes : list (codeMap Details);
  summaryRes : Summary
}.

Definition loadData_fulfilled (res : response) (s : state) : state :=
  setSummary (summaryRes res)
    (setCodeMaps (codeMapsRes res)
       (setProject (projectRes res) s)).

(** [project?.status === 'analyzing'] on the [project] the callback
    closed over. *)
Definition interval_gate (p : option project) : bool :=
  match p with
  | Some p => String.eqb (status p) "analyzing"
  | None => false
  end.

Definition world : Type := Polling.world state (option project) Error.

Definition event : Type := Polling.event response Error.

(** The [treeData] prop of the widget in a render. *)
Definition treeData (s : state) : option (list (treeNode Details)) :=
  buildTreeData (codeMaps s).

(** [if (loading && !project)]: the page is replaced by the spinner. *)
Definition shows_spinner (s : state) : bool :=
  loading s && match project_state s with
               | Some _ => false
               | None => true
               end.

(** Past the spinner the render evaluates [treeData={buildTreeData()}]:
    it throws when the builder does. *)
Definition render_throws (s : state) : bool :=
  negb (shows_spinner s) && match treeData s with
                            | Some _ => false
                            | None => true
                            end.

(** The effect, [loadData] and the interval at one event. *)
Definition poll : world -> event -> world :=
  Polling.step state response (option project) Error
               initial project_state interval_gate
               (setLoading true) loadData_fulfilled (setLoading false)
               true.

(** React renders the page with the state the event left. There is no
    error boundary above the page: when the render throws, React
    unmounts the tree, and the effect cleanup runs. *)
Definition rerender (w : world) : world :=
  if Polling.mounted w && render_throws (Polling.view w)
  then poll w Polling.Unmount
  else w.

Definition step (w : world) (e : event) : world := rerender (poll w e).

Definition run (w : world) (trace : list event) : world :=
  fold_left step trace w.

Definition start : world :=
  Polling.start state (option project) Error initial.

(** What the page shows of the backend: the three pieces of state
    [loadData] replaces. *)
Definition snapshot (w : world)
  : option project * list (codeMap Details) * option Summary :=
  (project_state (Polling.view w), codeMaps (Polling.view w),
   summary (Polling.view w)).

End Page.

(** *** Selecting a node

    [onSelect] as a function of the clicked node ([info.node], which
    carries the fields of the tree data) and of the [selectedFile]
    state: the new value of that state. *)

Section Select.
Context {Details : Type}.

(** [info.node.isFile && info.node.data] as a condition. *)
Definition isFile_and_data (node : treeNode Details) : bool :=
  tisFile node && match tdata node with
                  | Some _ => true
                  | None => false
                  end.

Definition onSelect (node : treeNode Details)
           (selectedFile : option (codeMap Details))
  : option (codeMap Details) :=
  if isFile_and_data node then tdata node else selectedFile.

End Select.

End CodeMap.

(** ** AgentWorkflow *)

Module AgentWorkflow.

Section Page.
Context {Requirement Task Error : Type}.

Record state : Type := State {
  requirement : option Requirement;
  tasks : list Task;
  loading : bool
}.

Definition initial : state := State None [] true.

Definition setRequirement (r : Requirement) (s : state) : state :=
  State (Some r) (tasks s) (loading s).

Definition setTasks (l : list Task) (s : state) : state :=
  State (requirement s) l (loading s).

Definition setLoading (b : bool) (s : state) : state :=
  State (requirement s) (tasks s) b.

(** [reqRes.data], [tasksRes.data]. *)
Record response : Type := Response {
  reqRes : Requirement;
  tasksRes : list Task
}.

Definition loadData_fulfilled (res : response) (s : state) : state :=
  setTasks (tasksRes res) (setRequirement (reqRes res) s).

Definition world : Type := Polling.world state unit Error.

Definition event : Type := Polling.event response Error.

(** The interval callback is [() => { loadData(); }]: it reads no state
    and has no condition; [loadData] does nothing before its [await];
    the page has no reload button. *)
Definition step : world -> event -> world :=
  Polling.step state response unit Error
               initial (fun _ => tt) (fun _ => true)
               (fun s => s) loadData_fulfilled (setLoading false)
               false.

Definition run (w : world) (trace : list event) : world :=
  fold_left step trace w.

Definition start : world := Polling.start state unit Error initial.

Definition snapshot (w : world) : option Requirement * list Task :=
  (requirement (Polling.view w), tasks (Polling.view w)).

End Page.

(** *** What is rendered

    [if (loading && !requirement)] : the page is replaced by the
    spinner. *)

Section Render.
Context {Requirement Task : Type}.

Definition shows_spinner (s : @state Requirement Task) : bool :=
  loading s && match requirement s with
               | Some _ => false
               | None => true
               end.

End Render.

End AgentWorkflow.

(** ** Dashboard *)

Module Dashboard.

Record stats_record : Type := Stats {
  total : nat;
  completed : nat;
  analyzing : nat;
  pending : nat
}.

(** [projectsData.filter(p => p.status === s).length] *)
Definition count_status (s : string) (projectsData : list project) : nat :=
  List.length (filter (fun p => String.eqb (status p) s) projectsData).

Definition statsData (projectsData : list project) : stats_record :=
  Stats (List.length projectsData)
        (count_status "completed" projectsData)
        (count_status "analyzing" projectsData)
        (count_status "pending" projectsData).

Section Page.
Context {Error : Type}.

Record state : Type := State {
  projects : list project;
  loading : bool;
  stats : stats_record;
  console : list Error
}.

Definition initial : state := State [] true (Stats 0 0 0 0) [].

(** [loadProjects] up to its [await], and from there on. *)
Definition loadProjects_call (s : state) : state :=
  State (projects s) true (stats s) (console s).

Definition loadProjects_resume (o : Polling.outcome (list project) Error)
           (s : state) : state :=
  match o with
  | Polling.Fulfilled projectsData =>
      State projectsData false (statsData projectsData) (console s)
  | Polling.Rejected e =>
      State (projects s) false (stats s) (console s ++ [e])
  end.

End Page.

(** The status values none of the three counters matches. *)
Definition uncounted (projectsData : list project) : list project :=
  filter (fun p => negb (String.eqb (status p) "completed")
                   && negb (String.eqb (status p) "analyzing")
                   && negb (String.eqb (status p) "pending"))
         projectsData.

(** *** The page over time

    [loadProjects] is called (by the effect of the first render) and
    its [await] ends, in any number and order. *)

Section Run.
Context {Error : Type}.

Inductive event : Type :=
| Call
| Settle (o : Polling.outcome (list project) Error).

Definition step (s : @state Error) (e : event) : @state Error :=
  match e with
  | Call => loadProjects_call s
  | Settle o => loadProjects_resume o s
  end.

Definition run (s : @state Error) (trace : list event) : @state Error :=
  fold_left step trace s.

End Run.

End Dashboard.

(** ** Recommendations *)

Module Recommendations.

(** [recommendations.filter(r => r.component_type === c).length] *)
Definition count_component (c : string) (recommendations : list recommendation)
  : nat :=
  List.length
    (filter (fun r => String.eqb (component_type r) c) recommendations).

(** The three tags of the header card and its title count. *)
Record header : Type := Header {
  shown_total : nat;
  frontend : nat;
  backend : nat;
  database : nat
}.

Definition header_counts (recommendations : list recommendation) : header :=
  Header (List.length recommendations)
         (count_component "frontend" recommendations)
         (count_component "backend" recommendations)
         (count_component "database" recommendations).

Definition uncounted (recommendations : list recommendation)
  : list recommendation :=
  filter (fun r => negb (String.eqb (component_type r) "frontend")
                   && negb (String.eqb (component_type r) "backend")
                   && negb (String.eqb (component_type r) "database"))
         recommendations.

End Recommendations.

(** ** Auxiliary notions for the statements

    Counting the elements of a list that carry a given label, and
    those that carry none of three. *)

Section CountingNotions.
Context {A : Type} (label : A -> string).

Definition count_label (s : string) (l : list A) : nat :=
  List.length (filter (fun x => String.eqb (label x) s) l).

Definition unlabelled (a b c : string) (l : list A) : list A :=
  filter (fun x => negb (String.eqb (label x) a)
                   && negb (String.eqb (label x) b)
                   && negb (String.eqb (label x) c)) l.

End CountingNotions.

(** Notions about the tree under construction.

    A dictionary is well keyed when its names are distinct and every
    node sits under its own title. A sequence of segments is present in
    a dictionary when walking it creates nothing: every segment reads
    back a node, or the last one reads an inherited property. *)

Section TreeNotions.
Context {Details : Type}.

Definition well_keyed (o : Js.object (CodeMap.node Details)) : Prop :=
  NoDup (map fst o)
  /\ Forall (fun e => CodeMap.title (snd e) = fst e) o.

Definition all_keyed (o : Js.object (CodeMap.node Details)) : Prop :=
  well_keyed o
  /\ Forall (fun n => well_keyed (CodeMap.children n))
            (CodeMap.object_nodes o).

Fixpoint present (parts : list string)
         (o : Js.object (CodeMap.node Details)) : Prop :=
  match parts with
  | [] => True
  | part :: rest =>
      match Js.read o part with
      | Js.Own n => present rest (CodeMap.children n)
      | Js.Inherited => rest = []
      | Js.Undefined => False
      end
  end.

(** The node a sequence of segments leads to, and the fields of a node
    other than its children. *)
Fixpoint node_at (parts : list string)
         (o : Js.object (CodeMap.node Details))
  : option (CodeMap.node Details) :=
  match parts with
  | [] => None
  | part :: rest =>
      match Js.own o part with
      | Some n =>
          match rest with
          | [] => Some n
          | _ :: _ => node_at rest (CodeMap.children n)
          end
      | None => None
      end
  end.

Definition same_fields (n n' : CodeMap.node Details) : Prop :=
  CodeMap.key n' = CodeMap.key n
  /\ CodeMap.title n' = CodeMap.title n
  /\ CodeMap.node_icon n' = CodeMap.node_icon n
  /\ CodeMap.isFile n' = CodeMap.isFile n
  /\ CodeMap.data n' = CodeMap.data n.

(** A node is marked as a file, with the record of some file as its
    data and the file icon, or as a folder without data; a folder has
    children. *)
Definition file_or_folder (seen : list (CodeMap.codeMap Details))
           (n : CodeMap.node Details) : Prop :=
  if CodeMap.isFile n
  then (exists cm, In cm seen /\ CodeMap.data n = Some cm)
       /\ CodeMap.node_icon n = CodeMap.FileOutlined
  else CodeMap.data n = None
       /\ CodeMap.node_icon n = CodeMap.FolderOutlined.

Definition folder_has_children (n : CodeMap.node Details) : Prop :=
  CodeMap.isFile n = false -> CodeMap.children n <> [].

(** No segment of any path is the name of a property inherited from
    [Object.prototype]. *)
Definition plain_segments (cms : list (CodeMap.codeMap Details)) : Prop :=
  Forall (fun cm =>
            Forall (fun part => Js.inherited part = false)
                   (Js.split "/"%char (CodeMap.file_path cm))) cms.

End TreeNotions.

(** ** Submitting a form

    [handleSubmit] of [CodeAnalysis] and of [RequirementAnalysis]:
<<
    const handleSubmit = async (values) => {
      try {
        setSubmitting(true);
        const response = await service.create(...);
        message.success(...);
        form.resetFields();            // RequirementAnalysis only
        setTimeout(() => { navigate(`/agents/${response.data.id}`); }, 2000);
      } catch (error) {
        console.error(..., error);
        message.error(...);
      } finally {
        setSubmitting(false);
      }
    };
>>
    run over the events: a submission, the end of an [await], a timeout
    that fires. *)

Module Submit.

Section Machine.
Variable Error : Type.
(** The route the page goes to, the two message texts, and whether the
    form is reset on success. *)
Variable route : string.
Variable success_text error_text : string.
Variable resets_form : bool.

(** [message.success(text)] and [message.error(text)]. *)
Inductive message : Type :=
| Success (text : string)
| Failure (text : string).

Record page : Type := Page {
  busy : bool;                     (* submitting / loading *)
  resets : nat;                    (* form.resetFields() calls *)
  messages : list message;
  timeouts : list (nat * string);  (* pending timeouts and where they go *)
  next_timeout : nat;
  navigations : list string;       (* navigate(path) calls *)
  pending : list nat;              (* handleSubmit calls at their await *)
  calls : nat;
  console : list Error
}.

Definition initial : page := Page false 0 [] [] 0 [] [] 0 [].

(** [handleSubmit] up to its [await]. *)
Definition handleSubmit (s : page) : page :=
  Page true (resets s) (messages s) (timeouts s) (next_timeout s)
       (navigations s) (pending s ++ [calls s]) (S (calls s)) (console s).

(** Call [k] resumes; [response.data.id] of a fulfilled call is the
    string put into the route. *)
Definition handleSubmit_resume (k : nat) (o : Polling.outcome string Error)
           (s : page) : page :=
  if existsb (Nat.eqb k) (pending s) then
    let rest := filter (fun j => negb (Nat.eqb j k)) (pending s) in
    match o with
    | Polling.Fulfilled id =>
        Page false
             (if resets_form then S (resets s) else resets s)
             (messages s ++ [Success success_text])
             (timeouts s ++ [(next_timeout s, (route ++ id)%string)])
             (S (next_timeout s))
             (navigations s) rest (calls s) (console s)
    | Polling.Rejected e =>
        Page false (resets s) (messages s ++ [Failure error_text])
             (timeouts s) (next_timeout s) (navigations s) rest (calls s)
             (console s ++ [e])
    end
  else s.

(** Timeout [t] fires: its callback navigates. *)
Definition fire (t : nat) (s : page) : page :=
  match find (fun x => Nat.eqb (fst x) t) (timeouts s) with
  | Some (_, path) =>
      Page (busy s) (resets s) (messages s)
           (filter (fun x => negb (Nat.eqb (fst x) t)) (timeouts s))
           (next_timeout s) (navigations s ++ [path]) (pending s) (calls s)
           (console s)
  | None => s
  end.

Inductive event : Type :=
| Submit
| Settle (k : nat) (o : Polling.outcome string Error)
| Timeout (t : nat).

Definition step (s : page) (e : event) : page :=
  match e with
  | Submit => handleSubmit s
  | Settle k o => handleSubmit_resume k o s
  | Timeout t => fire t s
  end.

Definition run (s : page) (trace : list event) : page :=
  fold_left step trace s.

End Machine.

Arguments busy {Error} p.
Arguments resets {Error} p.
Arguments messages {Error} p.
Arguments timeouts {Error} p.
Arguments next_timeout {Error} p.
Arguments navigations {Error} p.
Arguments pending {Error} p.
Arguments calls {Error} p.
Arguments console {Error} p.
Arguments Submit {Error}.
Arguments Settle {Error} k o.
Arguments Timeout {Error} t.

End Submit.

(** ** CodeAnalysis and the form of RequirementAnalysis *)

Module CodeAnalysis.

Definition run {Error : Type} : Submit.page Error -> list (Submit.event Error)
                                -> Submit.page Error :=
  Submit.run Error "/code-map/"
             "Proje oluşturuldu! Analiz başlatılıyor..."
             "Proje oluşturulurken hata oluştu!" false.

End CodeAnalysis.

Module RequirementForm.

Definition run {Error : Type} : Submit.page Error -> list (Submit.event Error)
                                -> Submit.page Error :=
  Submit.run Error "/agents/"
             "İstek analiz ediliyor!"
             "İstek oluşturulurken hata oluştu!" true.

End RequirementForm.

(** *** The awaits that end

    For the statements about [handleSubmit]: which of the [Settle]
    events of a run end an [await], what they end it with, and what the
    page owes to each. *)

Section SubmitNotions.
Context {Error : Type}.

(** The outcomes with which the awaits end, in the order in which they
    end, in a run that starts with the calls [waiting] at their [await]
    and [issued] calls made: call [k] awaits from the submission that
    made it until an event settles it. *)
Fixpoint awaits_ended (waiting : list nat) (issued : nat)
         (trace : list (Submit.event Error))
  : list (Polling.outcome string Error) :=
  match trace with
  | [] => []
  | Submit.Submit :: rest =>
      awaits_ended (waiting ++ [issued]) (S issued) rest
  | Submit.Settle k o :: rest =>
      if existsb (Nat.eqb k) waiting
      then o :: awaits_ended
                  (filter (fun j => negb (Nat.eqb j k)) waiting) issued rest
      else awaits_ended waiting issued rest
  | Submit.Timeout _ :: rest => awaits_ended waiting issued rest
  end.

(** The ids that the fulfilled calls returned. *)
Definition created_ids (outs : list (Polling.outcome string Error))
  : list string :=
  flat_map (fun o => match o with
                     | Polling.Fulfilled id => [id]
                     | Polling.Rejected _ => []
                     end) outs.

(** The errors with which the rejected calls ended. *)
Definition errors_caught (outs : list (Polling.outcome string Error))
  : list Error :=
  flat_map (fun o => match o with
                     | Polling.Fulfilled _ => []
                     | Polling.Rejected e => [e]
                     end) outs.

(** The message due for an outcome. *)
Definition message_for (success_text error_text : string)
           (o : Polling.outcome string Error) : Submit.message :=
  match o with
  | Polling.Fulfilled _ => Submit.Success success_text
  | Polling.Rejected _ => Submit.Failure error_text
  end.

(** The ids of the pending timeouts are distinct and already given
    out. *)
Definition timeouts_distinct (s : Submit.page Error) : Prop :=
  NoDup (map fst (Submit.timeouts s))
  /\ Forall (fun x => fst x < Submit.next_timeout s) (Submit.timeouts s).

End SubmitNotions.

(** Notions about where a node sits.

    The nodes of a dictionary, and of a forest, each with the names
    from the root down to the node itself; and what a node made for the
    record [r] at the end of the segments [ps] looks like. *)

Section TreeLocations.
Context {Details : Type}.

Fixpoint located_below (n : CodeMap.node Details) (loc : list string)
  : list (list string * CodeMap.node Details) :=
  match n with
  | CodeMap.Node _ _ _ ch _ _ =>
      (loc, n)
        :: (fix below (o : Js.object (CodeMap.node Details))
              : list (list string * CodeMap.node Details) :=
              match o with
              | [] => []
              | (name, child) :: o' =>
                  located_below child (loc ++ [name]) ++ below o'
              end) ch
  end.

Definition object_located (done : list string)
           (o : Js.object (CodeMap.node Details))
  : list (list string * CodeMap.node Details) :=
  flat_map (fun e => located_below (snd e) (done ++ [fst e])) o.

Fixpoint tree_located (t : CodeMap.treeNode Details) (loc : list string)
  : list (list string * CodeMap.treeNode Details) :=
  match t with
  | CodeMap.TreeNode _ _ _ ch _ _ =>
      (loc, t)
        :: match ch with
           | Some l =>
               (fix below (l : list (CodeMap.treeNode Details))
                  : list (list string * CodeMap.treeNode Details) :=
                  match l with
                  | [] => []
                  | child :: l' =>
                      tree_located child (loc ++ [CodeMap.ttitle child])
                        ++ below l'
                  end) l
           | None => []
           end
  end.

Definition forest_located (done : list string)
           (forest : list (CodeMap.treeNode Details))
  : list (list string * CodeMap.treeNode Details) :=
  flat_map (fun t => tree_located t (done ++ [CodeMap.ttitle t])) forest.

(** The fields the loop gives the node it makes for the segments [ps]
    of the path of [r]: the key is the path followed by the depth, the
    node is a file exactly when [ps] is the whole path. *)
Definition made_for (r : CodeMap.codeMap Details) (ps more : list string)
           (k t : string) (i : CodeMap.icon) (f : bool)
           (d : option (CodeMap.codeMap Details)) : Prop :=
  Js.split "/"%char (CodeMap.file_path r) = ps ++ more
  /\ k = Js.concat_number (CodeMap.file_path r) (List.length ps - 1)
  /\ t = last ps ""
  /\ f = match more with [] => true | _ :: _ => false end
  /\ i = (if f then CodeMap.FileOutlined else CodeMap.FolderOutlined)
  /\ d = (if f then Some r else None).

Definition made_by (cms : list (CodeMap.codeMap Details))
           (ps : list string) (n : CodeMap.node Details) : Prop :=
  exists r more,
    In r cms
    /\ made_for r ps more (CodeMap.key n) (CodeMap.title n)
                (CodeMap.node_icon n) (CodeMap.isFile n) (CodeMap.data n).

Definition tree_made_by (cms : list (CodeMap.codeMap Details))
           (ps : list string) (x : CodeMap.treeNode Details) : Prop :=
  exists r more,
    In r cms
    /\ made_for r ps more (CodeMap.tkey x) (CodeMap.ttitle x)
                (CodeMap.ticon x) (CodeMap.tisFile x) (CodeMap.tdata x).

(** All names of a dictionary are free of inherited property names. *)
Definition plain_keys (o : Js.object (CodeMap.node Details)) : Prop :=
  Forall (fun e => Js.inherited (fst e) = false) o.

Definition all_plain (o : Js.object (CodeMap.node Details)) : Prop :=
  plain_keys o
  /\ Forall (fun n => plain_keys (CodeMap.children n))
            (CodeMap.object_nodes o).

(** A path with a segment that is an inherited property name and is
    not the last one. *)
Definition inherited_inside (parts : list string) : Prop :=
  exists before name next rest,
    parts = before ++ name :: next :: rest /\ Js.inherited name = true.

(** The dictionary a sequence of segments leads to: the tree itself
    for no segment, else the children of the node found. *)
Fixpoint dict_at (qs : list string) (o : Js.object (CodeMap.node Details))
  : option (Js.object (CodeMap.node Details)) :=
  match qs with
  | [] => Some o
  | q :: qs' =>
      match Js.own o q with
      | Some n => dict_at qs' (CodeMap.children n)
      | None => None
      end
  end.

(** The segment that follows [ps] in a path that begins with [ps] and
    goes on; the segments that follow [ps] in the paths of a
    collection, in the order of the records. *)
Fixpoint next_after (ps parts : list string) : list string :=
  match ps, parts with
  | [], k :: _ => [k]
  | p :: ps', q :: parts' =>
      if String.eqb p q then next_after ps' parts' else []
  | _, [] => []
  end.

Definition next_segments (ps : list string)
           (cms : list (CodeMap.codeMap Details)) : list string :=
  flat_map (fun r => next_after ps (Js.split "/"%char (CodeMap.file_path r)))
           cms.

End TreeLocations.

(** A list of names without its repetitions, each name where it comes
    first. *)
Definition first_occurrences (l : list string) : list string :=
  fold_left (fun acc k => if existsb (String.eqb k) acc then acc
                          else acc ++ [k]) l [].

(** * Properties *)

(** ** The builder on small inputs *)

(** Three files, two of them under [src]. *)
Example three_files :
  CodeMap.buildTreeData
    [ CodeMap.CodeMapRecord "src/app.js" 10;
      CodeMap.CodeMapRecord "src/lib/util.js" 5;
      CodeMap.CodeMapRecord "readme.md" 2 ]
  = Some
      [ CodeMap.TreeNode "src/app.js0" "src" CodeMap.FolderOutlined
          (Some
             [ CodeMap.TreeNode "src/app.js1" "app.js" CodeMap.FileOutlined
                 None true (Some (CodeMap.CodeMapRecord "src/app.js" 10));
               CodeMap.TreeNode "src/lib/util.js1" "lib"
                 CodeMap.FolderOutlined
                 (Some
                    [ CodeMap.TreeNode "src/lib/util.js2" "util.js"
                        CodeMap.FileOutlined None true
                        (Some (CodeMap.CodeMapRecord "src/lib/util.js" 5)) ])
                 false None ])
          false None;
        CodeMap.TreeNode "readme.md0" "readme.md" CodeMap.FileOutlined
          None true (Some (CodeMap.CodeMapRecord "readme.md" 2)) ].
Proof. reflexivity. Qed.

(** A directory named like an inherited property: [current] becomes
    [undefined] and the next segment throws. As a last segment the
    name is passed over and its folder stays empty. *)
Example inherited_name_in_the_middle :
  CodeMap.buildTreeData [CodeMap.CodeMapRecord "src/constructor/a.js" 1]
  = None.
Proof. reflexivity. Qed.

Example inherited_name_at_the_end :
  CodeMap.buildTreeData [CodeMap.CodeMapRecord "bin/toString" 1]
  = Some [ CodeMap.TreeNode "bin/toString0" "bin" CodeMap.FolderOutlined
             None false None ].
Proof. reflexivity. Qed.

(** Names that are array indices are listed first, in numeric order. *)
Example index_names_first :
  option_map (map CodeMap.ttitle)
    (CodeMap.buildTreeData
       [ CodeMap.CodeMapRecord "b" 1; CodeMap.CodeMapRecord "10" 2;
         CodeMap.CodeMapRecord "9" 3; CodeMap.CodeMapRecord "a" 4 ])
  = Some ["9"; "10"; "b"; "a"].
Proof. reflexivity. Qed.

(** ** Counting by status *)

Section Counting.
Context {A : Type} (label : A -> string).

(** Three pairwise different labels and the rest split a list. *)
Lemma count_three_and_rest (a b c : string) (l : list A) :
  a <> b -> a <> c -> b <> c ->
  count_label label a l + count_label label b l + count_label label c l
  + List.length (unlabelled label a b c l) = List.length l.
Proof.
  intros Hab Hac Hbc. unfold count_label, unlabelled.
  induction l as [|x l IH]; [reflexivity|].
  cbn [filter List.length].
  destruct (String.eqb_spec (label x) a) as [Ea|Na];
    destruct (String.eqb_spec (label x) b) as [Eb|Nb];
    destruct (String.eqb_spec (label x) c) as [Ec|Nc];
    try congruence; cbn [negb andb List.length]; lia.
Qed.

End Counting.

(** A project whose status is none of the three counted ones (here
    [failed], a status [getStatusTag] knows) is in [total] only. *)
Lemma failed_project_not_counted :
  ~ (let s := Dashboard.statsData [Project "demo" "failed"] in
     Dashboard.completed s + Dashboard.analyzing s + Dashboard.pending s
     = List.length [Project "demo" "failed"]).
Proof. vm_compute. discriminate. Qed.

(** C4, as the code has it: the three counters of the dashboard and the
    records with any other status add up to [total], which is the
    number of records; likewise the three tags of the recommendations
    header and the recommendations of any other component type. No
    counter collects the other values. *)
Theorem counts_and_uncounted_make_total :
  (forall projectsData : list project,
      let s := Dashboard.statsData projectsData in
      Dashboard.total s = List.length projectsData /\
      Dashboard.completed s + Dashboard.analyzing s + Dashboard.pending s
      + List.length (Dashboard.uncounted projectsData) = Dashboard.total s)
  /\
  (forall recommendations : list recommendation,
      let h := Recommendations.header_counts recommendations in
      Recommendations.shown_total h = List.length recommendations /\
      Recommendations.frontend h + Recommendations.backend h
      + Recommendations.database h
      + List.length (Recommendations.uncounted recommendations)
      = Recommendations.shown_total h).
Proof.
  split; intros l; cbn; (split; [reflexivity|]).
  - apply (count_three_and_rest status "completed" "analyzing" "pending");
      discriminate.
  - apply (count_three_and_rest component_type "frontend" "backend" "database");
      discriminate.
Qed.

Section PollingFacts.
Context {State Data Captured Error : Type}.
Variables (initial : State) (capture : State -> Captured)
          (gate : Captured -> bool) (on_call : State -> State)
          (on_fulfilled : Data -> State -> State)
          (on_finally : State -> State) (has_reload : bool).

Local Abbreviation step :=
  (Polling.step State Data Captured Error initial capture gate
                on_call on_fulfilled on_finally has_reload).
Local Abbreviation run :=
  (Polling.run State Data Captured Error initial capture gate
               on_call on_fulfilled on_finally has_reload).

Lemma existsb_filter_out (l : list (nat * Captured)) (id : nat) :
  existsb (fun t => Nat.eqb (fst t) id)
          (filter (fun t => negb (Nat.eqb (fst t) id)) l) = false.
Proof.
  induction l as [|t l IH]; [reflexivity|]. cbn.
  destruct (Nat.eqb (fst t) id) eqn:E; cbn; [exact IH|]. now rewrite E.
Qed.

Lemma existsb_filter_other (l : list (nat * Captured)) (id id' : nat) :
  existsb (fun t => Nat.eqb (fst t) id)
          (filter (fun t => negb (Nat.eqb (fst t) id')) l) = true ->
  existsb (fun t => Nat.eqb (fst t) id) l = true.
Proof.
  induction l as [|t l IH]; [easy|]. cbn.
  destruct (Nat.eqb (fst t) id') eqn:E; cbn.
  - intros H. rewrite (IH H). apply orb_true_r.
  - destruct (Nat.eqb (fst t) id); [easy|]. exact IH.
Qed.

(** An interval that is neither live nor yet to be allocated stays so. *)
Lemma retired_step (id : nat) (w : Polling.world State Captured Error)
      (e : Polling.event Data Error) :
  id < Polling.next_timer w -> Polling.scheduled id w = false ->
  id < Polling.next_timer (step w e)
  /\ Polling.scheduled id (step w e) = false.
Proof.
  intros Hlt Hs. destruct w as [v m ts cl nt pe ca co].
  unfold Polling.scheduled in *. cbn in Hlt, Hs.
  assert (Hfresh : Nat.eqb nt id = false) by (apply Nat.eqb_neq; lia).
  destruct e as [| | |tid|k o|]; cbn.
  - destruct m; cbn; [now split| |now split].
    rewrite existsb_app; cbn. rewrite Hs, Hfresh. split; [lia|reflexivity].
  - destruct m; cbn; [|now split|now split].
    destruct cl as [c|]; cbn; rewrite existsb_app; cbn; rewrite Hfresh.
    + split; [lia|]. rewrite orb_false_r.
      destruct (existsb _ (filter _ ts)) eqn:E; [|reflexivity].
      apply existsb_filter_other in E. congruence.
    + rewrite Hs. split; [lia|reflexivity].
  - destruct m; cbn; [|now split|now split].
    destruct cl as [c|]; cbn; [|now split].
    split; [lia|].
    destruct (existsb _ (filter _ ts)) eqn:E; [|reflexivity].
    apply existsb_filter_other in E. congruence.
  - destruct (find _ ts) as [[i c]|]; [|now split].
    destruct (gate c); [|now split]. cbn. destruct m; cbn; now split.
  - unfold Polling.loadData_resume. cbn.
    destruct (existsb (Nat.eqb k) pe); [|now split].
    destruct o; unfold Polling.set_state; cbn; destruct m; cbn; now split.
  - destruct has_reload; cbn; [|now split].
    destruct m; cbn; now split.
Qed.

Lemma retired_run (id : nat) (trace : list (Polling.event Data Error))
      (w : Polling.world State Captured Error) :
  id < Polling.next_timer w -> Polling.scheduled id w = false ->
  Polling.scheduled id (run w trace) = false.
Proof.
  revert w. induction trace as [|e trace IH]; intros w Hlt Hs; [exact Hs|].
  cbn. destruct (retired_step id w e Hlt Hs) as [Hlt' Hs'].
  now apply IH.
Qed.

(** The interval held by the cleanup has been allocated, and only a
    mounted component holds one. *)
Lemma cleanup_allocated_step (w : Polling.world State Captured Error)
      (e : Polling.event Data Error) :
  (forall id, Polling.cleanup w = Some id ->
              id < Polling.next_timer w /\ Polling.mounted w = true) ->
  forall id, Polling.cleanup (step w e) = Some id ->
             id < Polling.next_timer (step w e)
             /\ Polling.mounted (step w e) = true.
Proof.
  intros Hinv id. destruct w as [v m ts cl nt pe ca co]. cbn in Hinv.
  destruct e as [| | |tid|k o|]; cbn.
  - destruct m; cbn; [apply Hinv| |apply Hinv].
    intros [= <-]. split; [lia|reflexivity].
  - destruct m; cbn; [|apply Hinv|apply Hinv].
    destruct cl as [c|]; cbn; intros [= <-]; split; (lia || reflexivity).
  - destruct m; cbn; [|apply Hinv|apply Hinv].
    destruct cl as [c|]; cbn; discriminate.
  - destruct (find _ ts) as [[i c]|]; [|apply Hinv].
    destruct (gate c); [|apply Hinv]. cbn. destruct m; cbn; apply Hinv.
  - unfold Polling.loadData_resume. cbn.
    destruct (existsb (Nat.eqb k) pe); [|apply Hinv].
    destruct o; unfold Polling.set_state; cbn; destruct m; cbn; apply Hinv.
  - destruct has_reload; cbn; [|apply Hinv].
    destruct m; cbn; apply Hinv.
Qed.

Lemma cleanup_allocated_run (trace : list (Polling.event Data Error))
      (w : Polling.world State Captured Error) :
  (forall id, Polling.cleanup w = Some id ->
              id < Polling.next_timer w /\ Polling.mounted w = true) ->
  forall id, Polling.cleanup (run w trace) = Some id ->
             id < Polling.next_timer (run w trace)
             /\ Polling.mounted (run w trace) = true.
Proof.
  revert w. induction trace as [|e trace IH]; intros w Hinv; [exact Hinv|].
  cbn. apply IH. now apply cleanup_allocated_step.
Qed.

(** Running the cleanup of a mounted component retires its interval,
    whether the component goes away or the effect runs again. *)
Lemma stop_retires (w : Polling.world State Captured Error) (id : nat)
      (e : Polling.event Data Error) :
  Polling.cleanup w = Some id -> id < Polling.next_timer w ->
  Polling.mounted w = true ->
  e = Polling.Unmount \/ e = Polling.IdChange ->
  id < Polling.next_timer (step w e)
  /\ Polling.scheduled id (step w e) = false.
Proof.
  intros Hc Hlt Hm He. destruct w as [v m ts cl nt pe ca co].
  cbn in Hc, Hlt, Hm. destruct m; try discriminate Hm. subst cl.
  unfold Polling.scheduled.
  destruct He as [-> | ->]; cbn.
  - split; [lia|]. apply existsb_filter_out.
  - split; [lia|]. rewrite existsb_app, existsb_filter_out. cbn.
    replace (Nat.eqb nt id) with false; [reflexivity|].
    symmetry. apply Nat.eqb_neq. lia.
Qed.



Lemma pending_member (k : nat) (l : list nat) :
  In k l -> existsb (Nat.eqb k) l = true.
Proof.
  intros H. apply existsb_exists. exists k. split; [exact H|].
  apply Nat.eqb_refl.
Qed.

(** A fulfilled [await] of a mounted component: the [try] block runs
    on, then [finally]. Nothing is compared with earlier calls. *)
Lemma settle_fulfilled (w : Polling.world State Captured Error)
      (k : nat) (d : Data) :
  Polling.mounted w = true -> In k (Polling.pending w) ->
  let w' := step w (Polling.Settle k (Polling.Fulfilled d)) in
  Polling.view w' = on_finally (on_fulfilled d (Polling.view w))
  /\ Polling.timers w' = Polling.timers w
  /\ Polling.console w' = Polling.console w
  /\ Polling.calls w' = Polling.calls w
  /\ Polling.mounted w' = true.
Proof.
  intros Hm Hk. destruct w as [v m ts cl nt pe ca co]. cbn in Hm, Hk.
  destruct m; try discriminate Hm. cbn. unfold Polling.loadData_resume. cbn.
  rewrite (pending_member k pe Hk). cbn. repeat split.
Qed.


Lemma scheduled_find (id : nat) (w : Polling.world State Captured Error) :
  Polling.scheduled id w = true ->
  exists c, find (fun t => Nat.eqb (fst t) id) (Polling.timers w)
            = Some (id, c).
Proof.
  unfold Polling.scheduled. induction (Polling.timers w) as [|[i c] l IH];
    [discriminate|].
  cbn. destruct (Nat.eqb_spec i id) as [->|N]; [now exists c|].
  cbn. exact IH.
Qed.

(** A tick of a live interval whose condition holds calls [loadData]:
    one more call, awaiting its result. *)
Lemma tick_calls_loadData (id : nat) (c : Captured)
      (w : Polling.world State Captured Error) :
  find (fun t => Nat.eqb (fst t) id) (Polling.timers w) = Some (id, c) ->
  gate c = true ->
  let w' := step w (Polling.Tick id) in
  Polling.calls w' = S (Polling.calls w)
  /\ Polling.pending w' = Polling.pending w ++ [Polling.calls w]
  /\ Polling.mounted w' = Polling.mounted w
  /\ Polling.timers w' = Polling.timers w.
Proof.
  intros Hf Hg. destruct w as [v m ts cl nt pe ca co]. cbn in Hf. cbn.
  rewrite Hf, Hg. unfold Polling.loadData, Polling.set_state. cbn.
  destruct m; cbn; repeat split.
Qed.

(** When the component is not mounted no setter has an effect. *)
Lemma settle_unmounted (w : Polling.world State Captured Error)
      (k : nat) (o : Polling.outcome Data Error) :
  Polling.mounted w = false ->
  Polling.view (step w (Polling.Settle k o)) = Polling.view w.
Proof.
  intros Hm. destruct w as [v m ts cl nt pe ca co]. cbn in Hm.
  unfold Polling.step, Polling.loadData_resume. cbn.
  destruct (existsb (Nat.eqb k) pe); [|reflexivity].
  destruct m; try discriminate Hm; destruct o; reflexivity.
Qed.

End PollingFacts.

Section PageFacts.
Context {Requirement Task Details Summary Error : Type}.

Local Abbreviation aw_world := (@AgentWorkflow.world Requirement Task Error).
Local Abbreviation aw_response := (@AgentWorkflow.response Requirement Task).
Local Abbreviation cm_world := (@CodeMap.world Details Summary Error).
Local Abbreviation cm_response := (@CodeMap.response Details Summary).

Lemma aw_run_app (w : aw_world) (l1 l2 : list (Polling.event aw_response Error)) :
  AgentWorkflow.run w (l1 ++ l2)
  = AgentWorkflow.run (AgentWorkflow.run w l1) l2.
Proof. apply fold_left_app. Qed.

Lemma cm_run_app (w : cm_world) (l1 l2 : list (Polling.event cm_response Error)) :
  CodeMap.run w (l1 ++ l2) = CodeMap.run (CodeMap.run w l1) l2.
Proof. apply fold_left_app. Qed.

Lemma tick_of_cleared_interval (w : aw_world) (id : nat) :
  Polling.scheduled id w = false ->
  AgentWorkflow.step w (Polling.Tick id) = w.
Proof.
  intros Hs. unfold AgentWorkflow.step, Polling.step.
  destruct (find _ (Polling.timers w)) as [[i c]|] eqn:E; [|reflexivity].
  unfold Polling.scheduled in Hs.
  assert (existsb (fun t => Nat.eqb (fst t) id) (Polling.timers w) = true).
  { apply existsb_exists. exists (i, c). apply find_some in E. exact E. }
  congruence.
Qed.

Lemma aw_ticks (n : nat) (w : aw_world) :
  Polling.scheduled 0 w = true ->
  Polling.calls (AgentWorkflow.run w (repeat (Polling.Tick 0) n))
  = Polling.calls w + n
  /\ Polling.scheduled 0 (AgentWorkflow.run w (repeat (Polling.Tick 0) n))
     = true.
Proof.
  revert w. induction n as [|n IH]; intros w Hs; cbn [repeat].
  - cbn. split; [lia|exact Hs].
  - unfold AgentWorkflow.run. cbn [fold_left].
    destruct (scheduled_find 0 w Hs) as [c Hf].
    destruct (tick_calls_loadData AgentWorkflow.initial (fun _ => tt)
                (fun _ => true) (fun s => s) AgentWorkflow.loadData_fulfilled
                (AgentWorkflow.setLoading false) false 0 c w Hf eq_refl)
      as (Hc & _ & _ & Ht).
    fold (AgentWorkflow.step w (Polling.Tick 0)) in *.
    assert (Hs' : Polling.scheduled 0 (AgentWorkflow.step w (Polling.Tick 0))
                  = true).
    { unfold Polling.scheduled in *. now rewrite Ht. }
    destruct (IH _ Hs') as [IH1 IH2]. unfold AgentWorkflow.run in IH1, IH2.
    rewrite IH1, IH2, Hc. split; [lia|reflexivity].
Qed.

(** The render that follows an event leaves the page as the event left
    it, or unmounts it. *)
Lemma cm_rerender_cases (w : cm_world) :
  (Polling.mounted w && CodeMap.render_throws (Polling.view w) = false
   /\ CodeMap.rerender w = w)
  \/ (Polling.mounted w = true
      /\ CodeMap.render_throws (Polling.view w) = true
      /\ CodeMap.rerender w = CodeMap.poll w Polling.Unmount).
Proof.
  unfold CodeMap.rerender.
  destruct (Polling.mounted w) eqn:Hm; cbn [andb]; [|now left].
  destruct (CodeMap.render_throws (Polling.view w)) eqn:Ht;
    [right|left]; auto.
Qed.

Lemma cm_unmount_keeps (w : cm_world) :
  let w' := CodeMap.poll w Polling.Unmount in
  Polling.view w' = Polling.view w
  /\ Polling.calls w' = Polling.calls w
  /\ Polling.pending w' = Polling.pending w
  /\ Polling.console w' = Polling.console w
  /\ Polling.next_timer w' = Polling.next_timer w.
Proof.
  destruct w as [v m ts cl nt pe ca co]. cbn.
  destruct m; cbn; auto. destruct cl; cbn; auto.
Qed.

Lemma cm_unmount_mounted (w : cm_world) :
  Polling.mounted w = true ->
  let w' := CodeMap.poll w Polling.Unmount in
  Polling.life w' = Polling.Unmounted
  /\ Polling.timers w'
     = match Polling.cleanup w with
       | Some id => filter (fun t => negb (Nat.eqb (fst t) id))
                           (Polling.timers w)
       | None => Polling.timers w
       end
  /\ Polling.cleanup w'
     = match Polling.cleanup w with
       | Some _ => None
       | None => None
       end.
Proof.
  destruct w as [v m ts cl nt pe ca co]. cbn. intros Hm.
  destruct m; try discriminate Hm. cbn. destruct cl; cbn; auto.
Qed.

Lemma cm_rerender_keeps (w : cm_world) :
  let w' := CodeMap.rerender w in
  Polling.view w' = Polling.view w
  /\ Polling.calls w' = Polling.calls w
  /\ Polling.pending w' = Polling.pending w
  /\ Polling.console w' = Polling.console w
  /\ Polling.next_timer w' = Polling.next_timer w.
Proof.
  destruct (cm_rerender_cases w) as [[_ ->]|(_ & _ & ->)]; cbv zeta; auto.
  apply cm_unmount_keeps.
Qed.

(** After the render no mounted page is left in a state whose render
    throws. *)
Lemma cm_rerender_settled (w : cm_world) :
  Polling.mounted (CodeMap.rerender w)
  && CodeMap.render_throws (Polling.view (CodeMap.rerender w)) = false.
Proof.
  destruct (cm_rerender_cases w) as [[H ->]|(Hm & _ & ->)]; [exact H|].
  destruct (cm_unmount_mounted w Hm) as [Hl _].
  unfold Polling.mounted. now rewrite Hl.
Qed.

Lemma cm_rerender_id (w : cm_world) :
  Polling.mounted w && CodeMap.render_throws (Polling.view w) = false ->
  CodeMap.rerender w = w.
Proof. intros H. unfold CodeMap.rerender. now rewrite H. Qed.

Lemma cm_run_settled (trace : list (Polling.event cm_response Error))
      (w : cm_world) :
  Polling.mounted w && CodeMap.render_throws (Polling.view w) = false ->
  Polling.mounted (CodeMap.run w trace)
  && CodeMap.render_throws (Polling.view (CodeMap.run w trace)) = false.
Proof.
  revert w. induction trace as [|e trace IH]; intros w H; [exact H|].
  unfold CodeMap.run. cbn [fold_left]. apply IH. apply cm_rerender_settled.
Qed.

(** A property that every event and the unmount keep is kept by every
    run of the code map page. *)
Lemma cm_run_keeps (I : cm_world -> Prop)
      (allowed : Polling.event cm_response Error -> Prop) :
  (forall w e, allowed e -> I w -> I (CodeMap.poll w e)) ->
  (forall w, I w -> I (CodeMap.poll w Polling.Unmount)) ->
  forall trace w, Forall allowed trace -> I w -> I (CodeMap.run w trace).
Proof.
  intros Hstep Hun. induction trace as [|e trace IH]; intros w Hall Hw;
    [exact Hw|].
  inversion Hall as [|? ? He Hrest]; subst. unfold CodeMap.run.
  cbn [fold_left]. apply IH; [exact Hrest|]. unfold CodeMap.step.
  destruct (cm_rerender_cases (CodeMap.poll w e)) as [[_ ->]|(_ & _ & ->)].
  - now apply Hstep.
  - apply Hun. now apply Hstep.
Qed.

(** Ticks of an interval set up while [project] was [null], or of one
    that has been cleared, change nothing. *)
Lemma codemap_idle_ticks (n : nat) (w : cm_world) :
  Polling.timers w = [(0, None)] \/ Polling.timers w = [] ->
  Polling.mounted w && CodeMap.render_throws (Polling.view w) = false ->
  CodeMap.run w (repeat (Polling.Tick 0) n) = w.
Proof.
  intros Ht Hr. induction n as [|n IH]; [reflexivity|].
  cbn [repeat]. unfold CodeMap.run in *. cbn [fold_left].
  replace (CodeMap.step w (Polling.Tick 0)) with w; [exact IH|].
  unfold CodeMap.step.
  replace (CodeMap.poll w (Polling.Tick 0)) with w;
    [symmetry; now apply cm_rerender_id|].
  unfold CodeMap.poll, Polling.step.
  destruct Ht as [-> | ->]; reflexivity.
Qed.

Lemma aw_fulfilled_snapshot (w : aw_world) (k : nat) (res : aw_response) :
  Polling.mounted w = true -> In k (Polling.pending w) ->
  AgentWorkflow.snapshot
    (AgentWorkflow.step w (Polling.Settle k (Polling.Fulfilled res)))
  = (Some (AgentWorkflow.reqRes res), AgentWorkflow.tasksRes res).
Proof.
  intros Hm Hk. unfold AgentWorkflow.snapshot, AgentWorkflow.step.
  destruct (settle_fulfilled AgentWorkflow.initial (fun _ => tt)
              (fun _ => true) (fun s => s) AgentWorkflow.loadData_fulfilled
              (AgentWorkflow.setLoading false) false w k res Hm Hk)
    as (Hv & _).
  rewrite Hv. reflexivity.
Qed.

Lemma cm_fulfilled_snapshot (w : cm_world) (k : nat) (res : cm_response) :
  Polling.mounted w = true -> In k (Polling.pending w) ->
  CodeMap.snapshot
    (CodeMap.step w (Polling.Settle k (Polling.Fulfilled res)))
  = (Some (CodeMap.projectRes res), CodeMap.codeMapsRes res,
     Some (CodeMap.summaryRes res)).
Proof.
  intros Hm Hk. unfold CodeMap.snapshot, CodeMap.step.
  destruct (cm_rerender_keeps
              (CodeMap.poll w (Polling.Settle k (Polling.Fulfilled res))))
    as (-> & _).
  unfold CodeMap.poll.
  destruct (settle_fulfilled CodeMap.initial CodeMap.project_state
              CodeMap.interval_gate (CodeMap.setLoading true)
              CodeMap.loadData_fulfilled (CodeMap.setLoading false) true
              w k res Hm Hk) as (Hv & _).
  rewrite Hv. reflexivity.
Qed.

End PageFacts.

(** The interval callback of the code map page reads the [project] of
    the render in which the effect ran; after [Mount] that is [null],
    whatever the snapshots say later. *)
Lemma interval_gate_reads_project_of_mount :
  Polling.calls
    (CodeMap.run (Details:=nat) (Summary:=nat) (Error:=string)
       CodeMap.start
       [Polling.Mount;
        Polling.Settle 0
          (Polling.Fulfilled
             (CodeMap.Response (Project "demo" "analyzing") [] 0));
        Polling.Tick 0; Polling.Tick 0])
  = 1.
Proof. reflexivity. Qed.

(** The first snapshot says [completed]; the interval set up by the
    effect is still scheduled afterwards. *)
Lemma interval_survives_false_gate :
  ~ (let w := CodeMap.run (Details:=nat) (Summary:=nat) (Error:=string)
                CodeMap.start
                [Polling.Mount;
                 Polling.Settle 0
                   (Polling.Fulfilled
                      (CodeMap.Response (Project "demo" "completed") [] 0))]
     in Polling.calls w = 1 /\ Polling.scheduled 0 w = false).
Proof. vm_compute. intros [_ H]. discriminate H. Qed.

(** The code map page after the mount and its first snapshot: the
    snapshot is on the page; when the tree of its records can be built
    the page is rendered with the interval of the mount, and when the
    builder throws the page is gone and its interval with it. *)
Lemma cm_first_snapshot (Details Summary Error : Type)
      (res : @CodeMap.response Details Summary) :
  let w := CodeMap.run (Error:=Error) CodeMap.start
             [Polling.Mount; Polling.Settle 0 (Polling.Fulfilled res)] in
  Polling.calls w = 1
  /\ CodeMap.snapshot w
     = (Some (CodeMap.projectRes res), CodeMap.codeMapsRes res,
        Some (CodeMap.summaryRes res))
  /\ Polling.mounted w && CodeMap.render_throws (Polling.view w) = false
  /\ match CodeMap.buildTreeData (CodeMap.codeMapsRes res) with
     | Some _ => Polling.mounted w = true
                 /\ Polling.timers w = [(0, None)]
                 /\ Polling.cleanup w = Some 0
     | None => Polling.mounted w = false
               /\ Polling.timers w = []
               /\ Polling.cleanup w = None
     end.
Proof.
  destruct res as [p cms sm]. unfold CodeMap.run. cbn [fold_left].
  unfold CodeMap.step, CodeMap.rerender, CodeMap.poll.
  cbn -[CodeMap.buildTreeData].
  unfold CodeMap.treeData. cbn -[CodeMap.buildTreeData].
  destruct (CodeMap.buildTreeData cms) eqn:E; cbn -[CodeMap.buildTreeData];
    unfold CodeMap.render_throws, CodeMap.treeData;
    cbn -[CodeMap.buildTreeData]; rewrite ?E; repeat split.
Qed.

(** C6, as the code has it: when the first snapshot of the code map
    page has a status other than [analyzing], the ticks that follow call
    [loadData] no more, so one call is made in all. While the page is
    rendered the interval itself stays scheduled and held by the
    cleanup, and its ticks keep firing as no-ops; it is cleared by the
    effect cleanup only, which also runs when the tree of the snapshot
    cannot be built and the render throws. The agent workflow page has
    no condition at all: every tick is one more call, whatever the
    snapshot says. *)
Theorem false_gate_ticks_fetch_nothing_interval_stays
        (Requirement Task Details Summary Error : Type) :
  (forall (res : @CodeMap.response Details Summary) (n : nat),
      status (CodeMap.projectRes res) <> "analyzing" ->
      let w := CodeMap.run (Error:=Error) CodeMap.start
                 ([Polling.Mount; Polling.Settle 0 (Polling.Fulfilled res)]
                    ++ repeat (Polling.Tick 0) n) in
      Polling.calls w = 1
      /\ CodeMap.snapshot w
         = (Some (CodeMap.projectRes res), CodeMap.codeMapsRes res,
            Some (CodeMap.summaryRes res))
      /\ match CodeMap.buildTreeData (CodeMap.codeMapsRes res) with
         | Some _ => Polling.mounted w = true
                     /\ Polling.scheduled 0 w = true
                     /\ Polling.cleanup w = Some 0
         | None => Polling.mounted w = false
                   /\ Polling.scheduled 0 w = false
                   /\ Polling.cleanup w = None
         end)
  /\
  (forall (res : @AgentWorkflow.response Requirement Task) (n : nat),
      let w := AgentWorkflow.run (Error:=Error) AgentWorkflow.start
                 ([Polling.Mount; Polling.Settle 0 (Polling.Fulfilled res)]
                    ++ repeat (Polling.Tick 0) n) in
      Polling.calls w = 1 + n /\ Polling.scheduled 0 w = true).
Proof.
  split.
  - intros res n _ w. subst w.
    destruct (cm_first_snapshot Details Summary Error res)
      as (Hc & Hsnap & Hr & Hb).
    cbv zeta in Hc, Hsnap, Hr, Hb.
    rewrite cm_run_app, codemap_idle_ticks; [|clear Hr|exact Hr].
    + split; [exact Hc|]. split; [exact Hsnap|].
      destruct (CodeMap.buildTreeData (CodeMap.codeMapsRes res));
        destruct Hb as (Hm & Ht & Hcl); unfold Polling.scheduled;
        rewrite Ht; auto.
    + destruct (CodeMap.buildTreeData (CodeMap.codeMapsRes res));
        destruct Hb as (_ & Ht & _); auto.
  - intros res n w. subst w. rewrite aw_run_app.
    match goal with
    | |- context [AgentWorkflow.run ?w0 (repeat _ n)] =>
        destruct (aw_ticks n w0 eq_refl) as [H1 H2]
    end.
    rewrite H1, H2. split; reflexivity.
Qed.

Lemma false_gate_witness :
  status (CodeMap.projectRes
            (@CodeMap.Response nat nat (Project "demo" "completed") [] 0))
  <> "analyzing"
  /\ Polling.calls
       (CodeMap.run (Details:=nat) (Error:=string) CodeMap.start
          ([Polling.Mount;
            Polling.Settle 0
              (Polling.Fulfilled
                 (@CodeMap.Response nat nat (Project "demo" "completed") [] 0))]
             ++ repeat (Polling.Tick 0) 3)) = 1.
Proof.
  split; [discriminate|].
  apply (proj1 (false_gate_ticks_fetch_nothing_interval_stays
                  nat nat nat nat string)
           (@CodeMap.Response nat nat (Project "demo" "completed") [] 0) 3).
  discriminate.
Defined.

(** Fetch A is issued by the effect, fetch B by the first tick; B
    settles first, A afterwards: the page ends up showing A. *)
Lemma late_result_replaces_newer_snapshot :
  ~ (AgentWorkflow.snapshot
       (AgentWorkflow.run (Error:=string) AgentWorkflow.start
          [Polling.Mount; Polling.Tick 0;
           Polling.Settle 1
             (Polling.Fulfilled (AgentWorkflow.Response "B" ["task of B"]));
           Polling.Settle 0
             (Polling.Fulfilled (AgentWorkflow.Response "A" ["task of A"]))])
     = (Some "B", ["task of B"])).
Proof. vm_compute. discriminate. Qed.

(** C1, as the code has it: [loadData] keeps no sequence number and
    compares nothing. On both polling pages every fulfilled call of a
    mounted component replaces the snapshot with its own data, whatever
    call produced the snapshot shown before; so results are applied in
    the order in which they settle, and with A issued before B and
    settled after it the page ends on A's data. *)
Theorem results_applied_in_settle_order
        (Requirement Task Details Summary Error : Type) :
  (forall (w : @AgentWorkflow.world Requirement Task Error) (k : nat)
          (res : AgentWorkflow.response),
      Polling.mounted w = true -> In k (Polling.pending w) ->
      AgentWorkflow.snapshot
        (AgentWorkflow.step w (Polling.Settle k (Polling.Fulfilled res)))
      = (Some (AgentWorkflow.reqRes res), AgentWorkflow.tasksRes res))
  /\
  (forall (w : @CodeMap.world Details Summary Error) (k : nat)
          (res : CodeMap.response),
      Polling.mounted w = true -> In k (Polling.pending w) ->
      CodeMap.snapshot
        (CodeMap.step w (Polling.Settle k (Polling.Fulfilled res)))
      = (Some (CodeMap.projectRes res), CodeMap.codeMapsRes res,
         Some (CodeMap.summaryRes res)))
  /\
  (forall A B : @AgentWorkflow.response Requirement Task,
      AgentWorkflow.snapshot
        (AgentWorkflow.run (Error:=Error) AgentWorkflow.start
           [Polling.Mount; Polling.Tick 0;
            Polling.Settle 1 (Polling.Fulfilled B);
            Polling.Settle 0 (Polling.Fulfilled A)])
      = (Some (AgentWorkflow.reqRes A), AgentWorkflow.tasksRes A)).
Proof.
  split; [|split].
  - apply aw_fulfilled_snapshot.
  - apply cm_fulfilled_snapshot.
  - intros A B. reflexivity.
Qed.

Lemma results_applied_in_settle_order_witness :
  AgentWorkflow.snapshot
    (AgentWorkflow.step
       (AgentWorkflow.run (Error:=string) AgentWorkflow.start
          [Polling.Mount; Polling.Tick 0;
           Polling.Settle 1
             (Polling.Fulfilled (AgentWorkflow.Response "B" ["task of B"]))])
       (Polling.Settle 0
          (Polling.Fulfilled (AgentWorkflow.Response "A" ["task of A"]))))
  = (Some "A", ["task of A"]).
Proof.
  apply (proj1 (results_applied_in_settle_order string string nat nat string)).
  - reflexivity.
  - simpl. left. reflexivity.
Defined.



(** [loadProjects] of the dashboard fails the same way: the error is
    logged, the list and the counters stay, the spinner goes. *)
Lemma loadProjects_rejected_is_logged (Error : Type)
      (s : @Dashboard.state Error) (err : Error) :
  let s' := Dashboard.loadProjects_resume (Polling.Rejected err) s in
  Dashboard.console s' = Dashboard.console s ++ [err]
  /\ Dashboard.projects s' = Dashboard.projects s
  /\ Dashboard.stats s' = Dashboard.stats s
  /\ Dashboard.loading s' = false.
Proof. cbn. repeat split. Qed.

(** The effect is cleaned up because [requirementId] changed while call
    0 was awaiting its result; the component is still there, and when
    call 0 settles its data is put on the page. *)
Lemma result_in_flight_at_cleanup_is_applied :
  ~ (let w := AgentWorkflow.run (Error:=string) AgentWorkflow.start
                [Polling.Mount; Polling.IdChange] in
     AgentWorkflow.snapshot
       (AgentWorkflow.step w
          (Polling.Settle 0
             (Polling.Fulfilled
                (AgentWorkflow.Response "previous requirement"
                                        ["its task"]))))
     = AgentWorkflow.snapshot w).
Proof. vm_compute. discriminate. Qed.

(** C8, as the code has it: the cleanup of the effect clears its
    interval, which is never scheduled again and whose ticks call
    nothing. The result of a call that was awaiting at that moment is
    not discarded by [loadData], which has no cancellation check: after
    a cleanup caused by a change of [requirementId] the component is
    still mounted and the late result replaces the snapshot. Only when
    the component was unmounted do its setters leave the snapshot as it
    was. *)
Theorem cleanup_clears_interval_keeps_results
        (Requirement Task Error : Type) :
  (forall (trace0 trace : list (Polling.event AgentWorkflow.response Error))
          (id : nat) (stop : Polling.event AgentWorkflow.response Error),
      let w := AgentWorkflow.run
                 (@AgentWorkflow.start Requirement Task Error) trace0 in
      let w' := AgentWorkflow.run (AgentWorkflow.step w stop) trace in
      Polling.cleanup w = Some id ->
      stop = Polling.Unmount \/ stop = Polling.IdChange ->
      Polling.scheduled id w' = false
      /\ AgentWorkflow.step w' (Polling.Tick id) = w')
  /\
  (forall (w : @AgentWorkflow.world Requirement Task Error) (k : nat)
          (res : AgentWorkflow.response),
      Polling.mounted w = true -> In k (Polling.pending w) ->
      AgentWorkflow.snapshot
        (AgentWorkflow.step (AgentWorkflow.step w Polling.IdChange)
           (Polling.Settle k (Polling.Fulfilled res)))
      = (Some (AgentWorkflow.reqRes res), AgentWorkflow.tasksRes res))
  /\
  (forall (w : @AgentWorkflow.world Requirement Task Error) (k : nat)
          (o : Polling.outcome AgentWorkflow.response Error),
      AgentWorkflow.snapshot
        (AgentWorkflow.step (AgentWorkflow.step w Polling.Unmount)
           (Polling.Settle k o))
      = AgentWorkflow.snapshot w).
Proof.
  split; [|split].
  - intros trace0 trace id stop w w' Hc Hstop.
    assert (Hinv : id < Polling.next_timer w /\ Polling.mounted w = true).
    { apply (cleanup_allocated_run AgentWorkflow.initial (fun _ => tt)
               (fun _ => true) (fun s => s) AgentWorkflow.loadData_fulfilled
               (AgentWorkflow.setLoading false) false trace0
               AgentWorkflow.start); [discriminate|exact Hc]. }
    destruct Hinv as [Hlt Hm].
    destruct (stop_retires AgentWorkflow.initial (fun _ => tt)
                (fun _ => true) (fun s => s) AgentWorkflow.loadData_fulfilled
                (AgentWorkflow.setLoading false) false w id stop Hc Hlt Hm
                Hstop) as [Hlt' Hs'].
    assert (Hs : Polling.scheduled id w' = false).
    { apply (retired_run AgentWorkflow.initial (fun _ => tt)
               (fun _ => true) (fun s => s) AgentWorkflow.loadData_fulfilled
               (AgentWorkflow.setLoading false) false id trace _ Hlt' Hs'). }
    split; [exact Hs|]. now apply tick_of_cleared_interval.
  - intros w k res Hm Hk.
    destruct w as [v m ts cl nt pe ca co]. cbn in Hm, Hk.
    destruct m; try discriminate Hm.
    apply aw_fulfilled_snapshot.
    + destruct cl; reflexivity.
    + destruct cl; cbn; apply in_or_app; now left.
  - intros w k o. unfold AgentWorkflow.snapshot, AgentWorkflow.step.
    rewrite settle_unmounted.
    + destruct w as [v m ts cl nt pe ca co]. cbn.
      destruct m; [|reflexivity|reflexivity]. destruct cl; reflexivity.
    + destruct w as [v m ts cl nt pe ca co]. cbn.
      destruct m; [|reflexivity|reflexivity]. destruct cl; reflexivity.
Qed.

Lemma cleanup_clears_interval_witness :
  Polling.cleanup
    (AgentWorkflow.run (Requirement:=nat) (Task:=nat) (Error:=string)
       AgentWorkflow.start [Polling.Mount; Polling.Tick 0]) = Some 0
  /\ Polling.scheduled 0
       (AgentWorkflow.run
          (AgentWorkflow.step
             (AgentWorkflow.run (Requirement:=nat) (Task:=nat)
                (Error:=string) AgentWorkflow.start
                [Polling.Mount; Polling.Tick 0])
             Polling.Unmount)
          [Polling.Tick 0; Polling.Mount]) = false.
Proof.
  split; [reflexivity|].
  pose proof (proj1 (cleanup_clears_interval_keeps_results nat nat string)
                [Polling.Mount; Polling.Tick 0]
                [Polling.Tick 0; Polling.Mount] 0 Polling.Unmount
                eq_refl (or_introl eq_refl)) as H.
  exact (proj1 H).
Defined.

(** ** Plain objects *)

Section ObjectFacts.
Context {A : Type}.
Implicit Types (o : Js.object A) (k : string) (v : A).

Lemma own_set_same o k v : Js.own (Js.set o k v) k = Some v.
Proof.
  unfold Js.own. induction o as [|[k' v'] o IH]; cbn.
  - now rewrite String.eqb_refl.
  - destruct (String.eqb k' k) eqn:E; cbn.
    + now rewrite String.eqb_refl.
    + rewrite E. exact IH.
Qed.

Lemma own_set_other o k k' v :
  k <> k' -> Js.own (Js.set o k v) k' = Js.own o k'.
Proof.
  intros Hne. unfold Js.own. induction o as [|[k0 v0] o IH]; cbn.
  - destruct (String.eqb_spec k k'); [contradiction|reflexivity].
  - destruct (String.eqb_spec k0 k) as [->|N]; cbn.
    + destruct (String.eqb_spec k k'); [contradiction|reflexivity].
    + destruct (String.eqb k0 k'); [reflexivity|exact IH].
Qed.

Lemma own_In o k v : Js.own o k = Some v -> In (k, v) o.
Proof.
  unfold Js.own. destruct (find _ o) as [[k' v']|] eqn:E; [|discriminate].
  intros [= <-]. apply find_some in E. destruct E as [Hin Heq].
  cbn in Heq. apply String.eqb_eq in Heq. now subst.
Qed.

Lemma set_own_id o k v : Js.own o k = Some v -> Js.set o k v = o.
Proof.
  unfold Js.own. induction o as [|[k' v'] o IH]; cbn; [discriminate|].
  destruct (String.eqb_spec k' k) as [->|N]; cbn.
  - now intros [= ->].
  - intros H. now rewrite IH.
Qed.

Lemma In_set o k v e : In e (Js.set o k v) -> e = (k, v) \/ In e o.
Proof.
  induction o as [|[k' v'] o IH]; cbn.
  - intros [<-|[]]. now left.
  - destruct (String.eqb k' k); cbn.
    + intros [<-|H]; [now left|right; now right].
    + intros [<-|H]; [right; now left|].
      destruct (IH H) as [->|H']; [now left|right; now right].
Qed.

Lemma In_set_new o k v : In (k, v) (Js.set o k v).
Proof.
  induction o as [|[k' v'] o IH]; cbn; [now left|].
  destruct (String.eqb k' k); cbn; [now left|now right].
Qed.

(** An entry survives an assignment unless it is the one read back
    under the assigned name. *)
Lemma In_set_kept o k v e :
  In e o -> In e (Js.set o k v) \/ Js.own o k = Some (snd e).
Proof.
  unfold Js.own. induction o as [|[k' v'] o IH]; cbn; [intros []|].
  destruct (String.eqb k' k) eqn:E; cbn.
  - intros [<-|H]; [now right|left; now right].
  - intros [<-|H]; [left; now left|].
    destruct (IH H) as [H'|H']; [left; now right|now right].
Qed.

Lemma set_keys o k v :
  map fst (Js.set o k v)
  = match Js.own o k with
    | Some _ => map fst o
    | None => map fst o ++ [k]
    end.
Proof.
  unfold Js.own. induction o as [|[k' v'] o IH]; cbn; [reflexivity|].
  destruct (String.eqb_spec k' k) as [->|N]; cbn; [reflexivity|].
  rewrite IH. now destruct (find _ o).
Qed.

Lemma own_None_keys o k : Js.own o k = None -> ~ In k (map fst o).
Proof.
  unfold Js.own. intros H Hin. apply in_map_iff in Hin.
  destruct Hin as [[k' v'] [Heq Hin]]. cbn in Heq. subst k'.
  destruct (find _ o) eqn:E; [discriminate|].
  apply (find_none _ _ E) in Hin. cbn in Hin.
  now rewrite String.eqb_refl in Hin.
Qed.

Lemma set_NoDup o k v : NoDup (map fst o) -> NoDup (map fst (Js.set o k v)).
Proof.
  intros Hnd. rewrite set_keys. destruct (Js.own o k) eqn:E; [exact Hnd|].
  apply NoDup_app; [exact Hnd|repeat constructor; intros []|].
  intros x Hx [<-|[]]. now apply (own_None_keys o k).
Qed.

Lemma set_not_empty o k v : Js.set o k v <> [].
Proof.
  destruct o as [|[k' v'] o]; cbn; [discriminate|].
  destruct (String.eqb k' k); discriminate.
Qed.

Lemma set_length o k v : List.length o <= List.length (Js.set o k v).
Proof.
  induction o as [|[k' v'] o IH]; cbn; [lia|].
  destruct (String.eqb k' k); cbn; lia.
Qed.

Lemma read_Own o k v : Js.read o k = Js.Own v -> Js.own o k = Some v.
Proof.
  unfold Js.read. destruct (Js.own o k); [now intros [= ->]|].
  destruct (Js.inherited k); discriminate.
Qed.

Lemma read_Undefined o k :
  Js.read o k = Js.Undefined -> Js.own o k = None /\ Js.inherited k = false.
Proof.
  unfold Js.read. destruct (Js.own o k); [discriminate|].
  destruct (Js.inherited k); [discriminate|now split].
Qed.

Lemma read_Inherited o k :
  Js.read o k = Js.Inherited -> Js.own o k = None /\ Js.inherited k = true.
Proof.
  unfold Js.read. destruct (Js.own o k); [discriminate|].
  destruct (Js.inherited k); [now split|discriminate].
Qed.

(** Enumeration reorders the own properties and loses none. *)
Lemma insert_by_index_perm (i : N) (e : string * A) l :
  Permutation (Js.insert_by_index i e l) ((i, e) :: l).
Proof.
  induction l as [|[j e'] l IH]; cbn; [reflexivity|].
  destruct (i <=? j)%N; [reflexivity|].
  rewrite IH. apply perm_swap.
Qed.

Lemma entries_perm o : Permutation (Js.entries o) o.
Proof.
  unfold Js.entries, Js.named_entries.
  induction o as [|e o IH]; cbn; [reflexivity|].
  destruct (Js.array_index (fst e)) as [i|]; cbn.
  - rewrite insert_by_index_perm. cbn. now constructor.
  - rewrite <- Permutation_middle. now constructor.
Qed.

Lemma values_perm o : Permutation (Js.values o) (map snd o).
Proof. unfold Js.values. apply Permutation_map, entries_perm. Qed.

Lemma keys_perm o : Permutation (Js.keys o) (map fst o).
Proof. unfold Js.keys. apply Permutation_map, entries_perm. Qed.

Lemma keys_length o : List.length (Js.keys o) = List.length o.
Proof.
  rewrite (Permutation_length (keys_perm o)). apply length_map.
Qed.

Lemma entries_single k v : Js.entries [(k, v)] = [(k, v)].
Proof.
  unfold Js.entries, Js.named_entries. cbn.
  destruct (Js.array_index k); reflexivity.
Qed.

End ObjectFacts.

Lemma entries_map {A B : Type} (f : A -> B) (o : Js.object A) :
  Js.entries (map (fun e => (fst e, f (snd e))) o)
  = map (fun e => (fst e, f (snd e))) (Js.entries o).
Proof.
  unfold Js.entries, Js.named_entries. rewrite map_app. f_equal.
  - rewrite !map_map.
    assert (H : Js.index_entries (map (fun e => (fst e, f (snd e))) o)
                = map (fun ie => (fst ie, (fst (snd ie), f (snd (snd ie)))))
                      (Js.index_entries o)).
    { induction o as [|e o IH]; cbn; [reflexivity|].
      destruct (Js.array_index (fst e)) as [i|]; [|exact IH].
      rewrite IH. generalize (Js.index_entries o). intros l.
      induction l as [|[j e'] l IHl]; cbn; [reflexivity|].
      destruct (i <=? j)%N; cbn; [reflexivity|]. now rewrite IHl. }
    rewrite H, map_map. reflexivity.
  - induction o as [|e o IH]; cbn; [reflexivity|].
    destruct (Js.array_index (fst e)); cbn; [exact IH|]. now rewrite IH.
Qed.

(** [Object.values(o).map(f)] and converting in place agree. *)
Lemma values_map {A B : Type} (f : A -> B) (o : Js.object A) :
  Js.values (map (fun e => (fst e, f (snd e))) o) = map f (Js.values o).
Proof.
  unfold Js.values. rewrite entries_map, !map_map. reflexivity.
Qed.

(** ** Nodes of the tree and of the forest *)

Section NodeFacts.
Context {Details : Type}.
Implicit Types (n m : CodeMap.node Details) (o : Js.object (CodeMap.node Details)).

(** Induction on a node with the hypothesis for all its children. *)
Lemma node_induction (P : CodeMap.node Details -> Prop) :
  (forall k t i ch f d,
      Forall (fun e => P (snd e)) ch -> P (CodeMap.Node k t i ch f d)) ->
  forall n, P n.
Proof.
  intros Hstep. fix IH 1. intros [k t i ch f d]. apply Hstep.
  induction ch as [|[name child] ch IHch]; constructor.
  - apply IH.
  - exact IHch.
Qed.

Lemma descendants_eq n :
  CodeMap.descendants n = n :: CodeMap.object_nodes (CodeMap.children n).
Proof.
  destruct n as [k t i ch f d]. cbn. f_equal.
  induction ch as [|[name child] ch IH]; cbn; [reflexivity|].
  now rewrite IH.
Qed.

Lemma object_nodes_cons (e : string * CodeMap.node Details) o :
  CodeMap.object_nodes (e :: o)
  = snd e :: CodeMap.object_nodes (CodeMap.children (snd e))
      ++ CodeMap.object_nodes o.
Proof.
  unfold CodeMap.object_nodes at 1. cbn [flat_map].
  now rewrite descendants_eq.
Qed.

Lemma In_object_nodes m o :
  In m (CodeMap.object_nodes o) <->
  exists e, In e o
            /\ (m = snd e
                \/ In m (CodeMap.object_nodes (CodeMap.children (snd e)))).
Proof.
  unfold CodeMap.object_nodes at 1. rewrite in_flat_map.
  split; intros [e [He H]]; exists e; (split; [exact He|]).
  - rewrite descendants_eq in H. destruct H as [<-|H]; [now left|now right].
  - rewrite descendants_eq. destruct H as [->|H]; [now left|now right].
Qed.

Lemma subtree_eq (t : CodeMap.treeNode Details) :
  CodeMap.subtree t
  = t :: match CodeMap.tchildren t with
         | Some l => CodeMap.forest_nodes l
         | None => []
         end.
Proof.
  destruct t as [k ti i [l|] f d]; [|reflexivity].
  cbn [CodeMap.subtree CodeMap.tchildren]. f_equal.
Qed.

Lemma convert_item_eq n :
  CodeMap.convert_item n
  = CodeMap.TreeNode
      (CodeMap.key n) (CodeMap.title n) (CodeMap.node_icon n)
      (if Nat.ltb 0 (List.length (Js.keys (CodeMap.children n)))
       then Some (CodeMap.convertToArray (CodeMap.children n)) else None)
      (CodeMap.isFile n) (CodeMap.data n).
Proof.
  destruct n as [k t i ch f d].
  cbn [CodeMap.convert_item CodeMap.key CodeMap.title CodeMap.node_icon
       CodeMap.children CodeMap.isFile CodeMap.data].
  match goal with
  | |- context [Js.values (?inner ch)] =>
      assert (Hinner : inner ch = CodeMap.convert_all ch)
  end.
  { unfold CodeMap.convert_all.
    induction ch as [|[name child] ch IH]; [reflexivity|].
    cbn [map fst snd]. now rewrite IH. }
  rewrite Hinner. reflexivity.
Qed.

Lemma convertToArray_eq o :
  CodeMap.convertToArray o = map CodeMap.convert_item (Js.values o).
Proof. unfold CodeMap.convertToArray, CodeMap.convert_all. apply values_map. Qed.

Lemma In_convertToArray (x : CodeMap.treeNode Details) o :
  In x (CodeMap.convertToArray o) <->
  exists e, In e o /\ x = CodeMap.convert_item (snd e).
Proof.
  rewrite convertToArray_eq, in_map_iff. split.
  - intros [n [<- Hn]].
    apply (Permutation_in _ (values_perm o)) in Hn.
    apply in_map_iff in Hn. destruct Hn as [e [<- He]]. now exists e.
  - intros [e [He ->]]. exists (snd e). split; [reflexivity|].
    apply (Permutation_in _ (Permutation_sym (values_perm o))).
    now apply in_map.
Qed.

Lemma tchildren_convert_item n :
  CodeMap.tchildren (CodeMap.convert_item n)
  = match CodeMap.children n with
    | [] => None
    | _ :: _ => Some (CodeMap.convertToArray (CodeMap.children n))
    end.
Proof.
  rewrite convert_item_eq. cbn. rewrite keys_length.
  now destruct (CodeMap.children n).
Qed.

(** The nodes of the converted forest are the converted nodes of the
    tree. *)
Lemma In_subtree_convert n (x : CodeMap.treeNode Details) :
  In x (CodeMap.subtree (CodeMap.convert_item n)) <->
  exists m, In m (CodeMap.descendants n) /\ x = CodeMap.convert_item m.
Proof.
  revert x. induction n as [k t i ch f d IH] using node_induction.
  intros x. rewrite subtree_eq, tchildren_convert_item, descendants_eq.
  cbn [CodeMap.children].
  assert (Hkids : forall y,
             In y (CodeMap.forest_nodes (CodeMap.convertToArray ch)) <->
             exists m, In m (CodeMap.object_nodes ch)
                       /\ y = CodeMap.convert_item m).
  { intros y. unfold CodeMap.forest_nodes, CodeMap.object_nodes.
    rewrite in_flat_map. split.
    - intros [c [Hc Hy]]. apply In_convertToArray in Hc.
      destruct Hc as [e [He ->]].
      rewrite Forall_forall in IH. apply (IH e He) in Hy.
      destruct Hy as [m [Hm ->]]. exists m. split; [|reflexivity].
      apply in_flat_map. now exists e.
    - intros [m [Hm ->]]. apply in_flat_map in Hm.
      destruct Hm as [e [He Hm]].
      exists (CodeMap.convert_item (snd e)). split.
      + apply In_convertToArray. now exists e.
      + rewrite Forall_forall in IH. apply (IH e He). now exists m. }
  split.
  - intros [<-|H].
    + eexists. split; [now left|reflexivity].
    + destruct ch as [|e ch']; [destruct H|].
      apply Hkids in H. destruct H as [m [Hm ->]].
      exists m. split; [now right|reflexivity].
  - intros [m [[<-|Hm] ->]]; [now left|]. right.
    destruct ch as [|e ch']; [destruct Hm|].
    apply Hkids. now exists m.
Qed.

Lemma In_forest_nodes_convert o (x : CodeMap.treeNode Details) :
  In x (CodeMap.forest_nodes (CodeMap.convertToArray o)) <->
  exists m, In m (CodeMap.object_nodes o) /\ x = CodeMap.convert_item m.
Proof.
  unfold CodeMap.forest_nodes, CodeMap.object_nodes.
  rewrite in_flat_map. split.
  - intros [c [Hc Hx]]. apply In_convertToArray in Hc.
    destruct Hc as [e [He ->]]. apply In_subtree_convert in Hx.
    destruct Hx as [m [Hm ->]]. exists m. split; [|reflexivity].
    apply in_flat_map. now exists e.
  - intros [m [Hm ->]]. apply in_flat_map in Hm.
    destruct Hm as [e [He Hm]].
    exists (CodeMap.convert_item (snd e)). split.
    + apply In_convertToArray. now exists e.
    + apply In_subtree_convert. now exists m.
Qed.

End NodeFacts.

(** ** Walking a path *)

Section WalkFacts.
Context {Details : Type}.
Implicit Types (n m : CodeMap.node Details)
         (o current : Js.object (CodeMap.node Details))
         (cm : CodeMap.codeMap Details).

Lemma with_children_id n : CodeMap.with_children n (CodeMap.children n) = n.
Proof. now destruct n. Qed.

(** One round of the loop over [parts], read backwards. *)
Lemma walk_inv cm len part rest idx current t' :
  CodeMap.walk cm len (part :: rest) idx current = Some t' ->
  (Js.read current part = Js.Inherited /\ rest = [] /\ t' = current)
  \/ exists n ch',
      (Js.read current part = Js.Own n
       \/ (Js.read current part = Js.Undefined
           /\ n = CodeMap.new_node cm len part idx))
      /\ CodeMap.walk cm len rest (S idx) (CodeMap.children n) = Some ch'
      /\ t' = Js.set current part (CodeMap.with_children n ch').
Proof.
  cbn [CodeMap.walk]. destruct (Js.read current part) as [n| |] eqn:E.
  - destruct (CodeMap.walk cm len rest (S idx) (CodeMap.children n))
      as [ch'|] eqn:W; [|discriminate].
    intros [= <-]. right. exists n, ch'. auto.
  - destruct rest; [|discriminate]. intros [= <-]. now left.
  - destruct (CodeMap.walk cm len rest (S idx)
                (CodeMap.children (CodeMap.new_node cm len part idx)))
      as [ch'|] eqn:W; [|discriminate].
    intros [= <-]. right. exists (CodeMap.new_node cm len part idx), ch'.
    auto.
Qed.

Lemma walk_length cm len parts idx current t' :
  CodeMap.walk cm len parts idx current = Some t' ->
  List.length current <= List.length t'.
Proof.
  destruct parts as [|part rest]; [now intros [= <-]|].
  intros H. apply walk_inv in H.
  destruct H as [(_ & _ & ->)|(n & ch' & _ & _ & ->)]; [lia|].
  apply set_length.
Qed.

(** Walking a first segment that is not inherited leaves a dictionary
    with at least that entry. *)
Lemma walk_not_empty cm len part rest idx current t' :
  Js.inherited part = false ->
  CodeMap.walk cm len (part :: rest) idx current = Some t' -> t' <> [].
Proof.
  intros Hi H. apply walk_inv in H.
  destruct H as [(Hr & _ & _)|(n & ch' & _ & _ & ->)].
  - apply read_Inherited in Hr. destruct Hr. congruence.
  - apply set_not_empty.
Qed.

Lemma walk_top_keyed cm len parts idx current t' :
  well_keyed current ->
  CodeMap.walk cm len parts idx current = Some t' -> well_keyed t'.
Proof.
  intros [Hnd Ht]. destruct parts as [|part rest]; [now intros [= <-]|].
  intros H. apply walk_inv in H.
  destruct H as [(_ & _ & ->)|(n & ch' & Hn & _ & ->)]; [now split|].
  split; [now apply set_NoDup|].
  apply Forall_forall. intros e He. apply In_set in He.
  destruct He as [->|He]; [|now apply (proj1 (Forall_forall _ _) Ht)].
  cbn. destruct Hn as [Hr|[_ ->]]; [|reflexivity].
  apply read_Own, own_In in Hr.
  apply (proj1 (Forall_forall _ _) Ht) in Hr. exact Hr.
Qed.

Lemma own_object_nodes o part n :
  Js.own o part = Some n -> In n (CodeMap.object_nodes o).
Proof.
  intros H. apply own_In in H. apply In_object_nodes.
  exists (part, n). split; [exact H|now left].
Qed.

Lemma below_own_object_nodes o part n m :
  Js.own o part = Some n ->
  In m (CodeMap.object_nodes (CodeMap.children n)) ->
  In m (CodeMap.object_nodes o).
Proof.
  intros H Hm. apply own_In in H. apply In_object_nodes.
  exists (part, n). split; [exact H|now right].
Qed.

(** A property of nodes that holds for the nodes the loop creates and
    survives the update of a node's children holds throughout the tree
    after the walk. [ok] restricts the segments walked. *)
Lemma walk_preserves (P : CodeMap.node Details -> Prop) (ok : string -> Prop)
      cm len :
  (forall part rest idx ch',
      idx + S (List.length rest) = len -> Forall ok (part :: rest) ->
      CodeMap.walk cm len rest (S idx) [] = Some ch' ->
      P (CodeMap.with_children (CodeMap.new_node cm len part idx) ch')) ->
  (forall n rest idx ch',
      P n ->
      CodeMap.walk cm len rest (S idx) (CodeMap.children n) = Some ch' ->
      P (CodeMap.with_children n ch')) ->
  forall parts idx current t',
    idx + List.length parts = len -> Forall ok parts ->
    Forall P (CodeMap.object_nodes current) ->
    CodeMap.walk cm len parts idx current = Some t' ->
    Forall P (CodeMap.object_nodes t').
Proof.
  intros Hnew Hold. induction parts as [|part rest IH];
    intros idx current t' Hlen Hok Hall Hw; [now injection Hw as <-|].
  apply walk_inv in Hw.
  destruct Hw as [(_ & _ & ->)|(n & ch' & Hn & Hw & ->)]; [exact Hall|].
  cbn [List.length] in Hlen.
  assert (Hok' : Forall ok rest) by now inversion Hok.
  assert (Hbelow : Forall P (CodeMap.object_nodes (CodeMap.children n))).
  { destruct Hn as [Hr|[_ ->]]; [|constructor].
    apply read_Own in Hr. apply Forall_forall. intros m Hm.
    apply (proj1 (Forall_forall _ _) Hall).
    now apply (below_own_object_nodes current part n). }
  assert (Hch : Forall P (CodeMap.object_nodes ch')).
  { apply (IH (S idx) (CodeMap.children n) ch'); auto. lia. }
  assert (Hn' : P (CodeMap.with_children n ch')).
  { destruct Hn as [Hr|[_ ->]].
    - apply (Hold n rest idx ch'); [|exact Hw].
      apply (proj1 (Forall_forall _ _) Hall).
      apply read_Own in Hr. now apply (own_object_nodes current part).
    - now apply (Hnew part rest idx ch'). }
  apply Forall_forall. intros m Hm. apply In_object_nodes in Hm.
  destruct Hm as [e [He Hm]]. apply In_set in He.
  destruct He as [->|He].
  - cbn [snd] in Hm. destruct Hm as [->|Hm]; [exact Hn'|].
    apply (proj1 (Forall_forall _ _) Hch). exact Hm.
  - apply (proj1 (Forall_forall _ _) Hall). apply In_object_nodes.
    now exists e.
Qed.

Lemma Forall_True (l : list string) : Forall (fun _ => True) l.
Proof. induction l; constructor; auto. Qed.

Lemma walk_file_or_folder seen cm len parts idx current t' :
  In cm seen -> idx + List.length parts = len ->
  Forall (file_or_folder seen) (CodeMap.object_nodes current) ->
  CodeMap.walk cm len parts idx current = Some t' ->
  Forall (file_or_folder seen) (CodeMap.object_nodes t').
Proof.
  intros Hcm Hlen.
  apply (walk_preserves (file_or_folder seen) (fun _ => True) cm len);
    [| |exact Hlen|apply Forall_True].
  - intros part rest i ch' _ _ _.
    unfold file_or_folder, CodeMap.new_node. cbn.
    destruct (Nat.eqb i (len - 1)); [|now split].
    split; [|reflexivity]. now exists cm.
  - intros n rest i ch' Hn _. exact Hn.
Qed.

Lemma walk_children_keyed cm len parts idx current t' :
  idx + List.length parts = len ->
  Forall (fun n => well_keyed (CodeMap.children n))
         (CodeMap.object_nodes current) ->
  CodeMap.walk cm len parts idx current = Some t' ->
  Forall (fun n => well_keyed (CodeMap.children n))
         (CodeMap.object_nodes t').
Proof.
  intros Hlen.
  apply (walk_preserves (fun n => well_keyed (CodeMap.children n))
           (fun _ => True) cm len); [| |exact Hlen|apply Forall_True].
  - intros part rest i ch' _ _ Hw. cbn.
    apply (walk_top_keyed cm len rest (S i) [] ch'); [|exact Hw].
    split; constructor.
  - intros n rest i ch' Hn Hw. cbn.
    now apply (walk_top_keyed cm len rest (S i) (CodeMap.children n) ch').
Qed.

Lemma walk_all_keyed cm len parts idx current t' :
  idx + List.length parts = len -> all_keyed current ->
  CodeMap.walk cm len parts idx current = Some t' -> all_keyed t'.
Proof.
  intros Hlen [Htop Hdeep] Hw. split.
  - now apply (walk_top_keyed cm len parts idx current).
  - now apply (walk_children_keyed cm len parts idx current).
Qed.

Lemma walk_folder_has_children cm len parts idx current t' :
  idx + List.length parts = len ->
  Forall (fun part => Js.inherited part = false) parts ->
  Forall folder_has_children (CodeMap.object_nodes current) ->
  CodeMap.walk cm len parts idx current = Some t' ->
  Forall folder_has_children (CodeMap.object_nodes t').
Proof.
  apply (walk_preserves folder_has_children
           (fun part => Js.inherited part = false) cm len).
  - intros part rest i ch' Hlen Hok Hw. unfold folder_has_children. cbn.
    intros Hlast. apply Nat.eqb_neq in Hlast.
    destruct rest as [|part' rest']; [cbn in Hlen; lia|].
    apply Forall_inv_tail, Forall_inv in Hok.
    now apply (walk_not_empty cm len part' rest' (S i) [] ch').
  - intros n rest i ch' Hn Hw. unfold folder_has_children in *. cbn.
    intros Hf Hempty. subst ch'. apply walk_length in Hw. cbn in Hw.
    specialize (Hn Hf). destruct (CodeMap.children n); [congruence|].
    cbn in Hw. lia.
Qed.

End WalkFacts.

(** ** Adding the records *)

Section BuildFacts.
Context {Details : Type}.
Implicit Types (n m : CodeMap.node Details)
         (o current tree : Js.object (CodeMap.node Details))
         (cm r : CodeMap.codeMap Details)
         (cms : list (CodeMap.codeMap Details)).

Lemma add_records_app cms1 cms2 tree :
  CodeMap.add_records (cms1 ++ cms2) tree
  = match CodeMap.add_records cms1 tree with
    | Some tree' => CodeMap.add_records cms2 tree'
    | None => None
    end.
Proof.
  revert tree. induction cms1 as [|cm cms1 IH]; intros tree; [reflexivity|].
  cbn. destruct (CodeMap.add_record tree cm); [apply IH|reflexivity].
Qed.

(** A property kept by every single record is kept by all of them. *)
Lemma add_records_keeps (P : Js.object (CodeMap.node Details) -> Prop) cms :
  (forall cm tree tree',
      In cm cms -> P tree -> CodeMap.add_record tree cm = Some tree' ->
      P tree') ->
  forall tree tree',
    P tree -> CodeMap.add_records cms tree = Some tree' -> P tree'.
Proof.
  induction cms as [|cm cms IH]; intros Hstep tree tree' HP H.
  - now injection H as <-.
  - cbn in H. destruct (CodeMap.add_record tree cm) as [t1|] eqn:E;
      [|discriminate].
    apply (IH (fun c t t'' Hc => Hstep c t t'' (or_intror Hc)) t1 tree');
      [|exact H].
    apply (Hstep cm tree t1); auto. now left.
Qed.

Lemma add_records_all_keyed cms tree tree' :
  all_keyed tree -> CodeMap.add_records cms tree = Some tree' ->
  all_keyed tree'.
Proof.
  apply (add_records_keeps all_keyed). intros cm t t' _ Ht Hw.
  unfold CodeMap.add_record in Hw.
  eapply walk_all_keyed; [|exact Ht|exact Hw]. reflexivity.
Qed.

Lemma add_records_file_or_folder cms tree tree' :
  Forall (file_or_folder cms) (CodeMap.object_nodes tree) ->
  CodeMap.add_records cms tree = Some tree' ->
  Forall (file_or_folder cms) (CodeMap.object_nodes tree').
Proof.
  apply (add_records_keeps
           (fun t => Forall (file_or_folder cms) (CodeMap.object_nodes t))).
  intros cm t t' Hcm Ht Hw. unfold CodeMap.add_record in Hw.
  eapply walk_file_or_folder; [exact Hcm| |exact Ht|exact Hw]. reflexivity.
Qed.

Lemma add_records_folder_has_children cms tree tree' :
  plain_segments cms ->
  Forall folder_has_children (CodeMap.object_nodes tree) ->
  CodeMap.add_records cms tree = Some tree' ->
  Forall folder_has_children (CodeMap.object_nodes tree').
Proof.
  intros Hplain.
  apply (add_records_keeps
           (fun t => Forall folder_has_children (CodeMap.object_nodes t))).
  intros cm t t' Hcm Ht Hw. unfold CodeMap.add_record in Hw.
  eapply walk_folder_has_children; [| |exact Ht|exact Hw]; [reflexivity|].
  now apply (proj1 (Forall_forall _ _) Hplain).
Qed.

Lemma empty_all_keyed : all_keyed (@nil (string * CodeMap.node Details)).
Proof. repeat split; constructor. Qed.

(** *** Paths already in the tree *)

Lemma walk_present cm len parts idx current :
  present parts current ->
  CodeMap.walk cm len parts idx current = Some current.
Proof.
  revert idx current. induction parts as [|part rest IH];
    intros idx current Hp; [reflexivity|].
  cbn in *. destruct (Js.read current part) as [n| |] eqn:E.
  - rewrite (IH (S idx) _ Hp), with_children_id.
    apply read_Own in E. now rewrite (set_own_id _ _ _ E).
  - now subst rest.
  - destruct Hp.
Qed.

Lemma read_set_same current part n :
  Js.read (Js.set current part n) part = Js.Own n.
Proof. unfold Js.read. now rewrite own_set_same. Qed.

Lemma read_set_other current part part' n :
  part <> part' ->
  Js.read (Js.set current part n) part' = Js.read current part'.
Proof. intros H. unfold Js.read. now rewrite own_set_other. Qed.

Lemma present_walked cm len parts idx current t' :
  CodeMap.walk cm len parts idx current = Some t' -> present parts t'.
Proof.
  revert idx current t'. induction parts as [|part rest IH];
    intros idx current t' Hw; [exact I|].
  apply walk_inv in Hw.
  destruct Hw as [(Hr & -> & ->)|(n & ch' & _ & Hw & ->)]; cbn.
  - now rewrite Hr.
  - rewrite read_set_same. cbn. now apply (IH (S idx) (CodeMap.children n)).
Qed.

(** Whatever is walked afterwards, a path stays present. *)
Lemma present_kept cm len parts qs idx current t' :
  present parts current ->
  CodeMap.walk cm len qs idx current = Some t' -> present parts t'.
Proof.
  revert qs idx current t'. induction parts as [|part rest IH];
    intros qs idx current t' Hp Hw; [exact I|].
  destruct qs as [|q qrest]; [now injection Hw as <-|].
  apply walk_inv in Hw.
  destruct Hw as [(_ & _ & ->)|(n & ch' & Hn & Hw & ->)]; [exact Hp|].
  cbn in *. destruct (String.eqb_spec q part) as [->|Hne].
  - rewrite read_set_same. cbn.
    destruct Hn as [Hr|[Hr _]]; rewrite Hr in Hp; [|destruct Hp].
    now apply (IH qrest (S idx) (CodeMap.children n)).
  - now rewrite read_set_other.
Qed.

Lemma present_prefix parts more current :
  present (parts ++ more) current -> present parts current.
Proof.
  revert current. induction parts as [|part rest IH]; intros current Hp;
    [exact I|].
  cbn in *. destruct (Js.read current part) as [n| |].
  - now apply IH.
  - now destruct rest.
  - exact Hp.
Qed.

(** Whatever is walked afterwards, a node stays where it is and keeps
    its key, title, icon, file mark and data. *)
Lemma node_at_kept cm len parts qs idx current t' n :
  node_at parts current = Some n ->
  CodeMap.walk cm len qs idx current = Some t' ->
  exists n', node_at parts t' = Some n' /\ same_fields n n'.
Proof.
  revert qs idx current t'. induction parts as [|part rest IH];
    intros qs idx current t' Hn Hw; [discriminate Hn|].
  assert (Hsame : exists n', node_at (part :: rest) current = Some n'
                             /\ same_fields n n').
  { exists n. split; [exact Hn|]. now repeat split. }
  destruct qs as [|q qrest]; [now injection Hw as <-|].
  apply walk_inv in Hw.
  destruct Hw as [(_ & _ & ->)|(nq & ch' & Hq & Hw & ->)]; [exact Hsame|].
  clear Hsame. cbn [node_at] in *.
  destruct (Js.own current part) as [n0|] eqn:Eown; [|discriminate Hn].
  destruct (String.eqb_spec q part) as [->|Hne].
  - rewrite own_set_same.
    assert (nq = n0) as ->.
    { destruct Hq as [Hr|[Hr _]].
      - apply read_Own in Hr. congruence.
      - apply read_Undefined in Hr. destruct Hr. congruence. }
    destruct rest as [|part' rest'].
    + injection Hn as <-. eexists. split; [reflexivity|].
      now repeat split.
    + cbn [CodeMap.with_children CodeMap.children].
      now apply (IH qrest (S idx) (CodeMap.children n0) ch').
  - rewrite own_set_other by exact Hne. rewrite Eown.
    exists n. split; [exact Hn|]. now repeat split.
Qed.

Lemma node_at_kept_records cms parts tree tree' n :
  node_at parts tree = Some n ->
  CodeMap.add_records cms tree = Some tree' ->
  exists n', node_at parts tree' = Some n' /\ same_fields n n'.
Proof.
  intros Hn. apply (add_records_keeps
    (fun t => exists n', node_at parts t = Some n' /\ same_fields n n')).
  - intros cm t t' _ [n1 [Hn1 Hs1]] Hw. unfold CodeMap.add_record in Hw.
    destruct (node_at_kept _ _ _ _ _ _ _ _ Hn1 Hw) as [n2 [Hn2 Hs2]].
    exists n2. split; [exact Hn2|].
    destruct Hs1 as (a1 & b1 & c1 & d1 & e1).
    destruct Hs2 as (a2 & b2 & c2 & d2 & e2).
    repeat split; congruence.
  - exists n. split; [exact Hn|]. now repeat split.
Qed.

Lemma present_kept_records cms parts tree tree' :
  present parts tree -> CodeMap.add_records cms tree = Some tree' ->
  present parts tree'.
Proof.
  apply (add_records_keeps (present parts)). intros cm t t' _ Hp Hw.
  unfold CodeMap.add_record in Hw. eapply present_kept; eauto.
Qed.

(** After the records are added, every one of them, and every path
    that one of them extends, is present. *)
Lemma present_after_records cms r0 parts more tree tree' :
  In r0 cms ->
  Js.split "/"%char (CodeMap.file_path r0) = parts ++ more ->
  CodeMap.add_records cms tree = Some tree' -> present parts tree'.
Proof.
  revert tree. induction cms as [|cm cms IH]; intros tree Hin Hsplit H;
    [destruct Hin|].
  cbn in H. destruct (CodeMap.add_record tree cm) as [t1|] eqn:E;
    [|discriminate].
  destruct Hin as [->|Hin]; [|now apply (IH t1)].
  apply (present_kept_records cms parts t1 tree'); [|exact H].
  apply (present_prefix parts more). rewrite <- Hsplit.
  unfold CodeMap.add_record in E. now apply present_walked in E.
Qed.

(** A record whose path is covered by an earlier record changes
    nothing. *)
Lemma covered_record_adds_nothing cms r0 r more tree tree' :
  In r0 cms ->
  Js.split "/"%char (CodeMap.file_path r0)
  = Js.split "/"%char (CodeMap.file_path r) ++ more ->
  CodeMap.add_records cms tree = Some tree' ->
  CodeMap.add_record tree' r = Some tree'.
Proof.
  intros Hin Hsplit H. unfold CodeMap.add_record.
  apply walk_present. now apply (present_after_records cms r0 _ more tree).
Qed.

End BuildFacts.

Section TreeClaimsHelpers.
Context {Details : Type}.
Implicit Types (n m : CodeMap.node Details)
         (o current tree : Js.object (CodeMap.node Details))
         (cm r : CodeMap.codeMap Details)
         (cms : list (CodeMap.codeMap Details)).

(** A covered record can be left out of the collection. *)
Lemma covered_record_can_be_dropped pre post r0 r more :
  In r0 pre ->
  Js.split "/"%char (CodeMap.file_path r0)
  = Js.split "/"%char (CodeMap.file_path r) ++ more ->
  CodeMap.add_records (pre ++ r :: post) []
  = CodeMap.add_records (pre ++ post) [].
Proof.
  intros Hin Hsplit. rewrite !add_records_app.
  destruct (CodeMap.add_records pre []) as [t|] eqn:E; [|reflexivity].
  cbn. now rewrite (covered_record_adds_nothing pre r0 r more [] t).
Qed.

(** Adding the same records once more changes nothing. *)
Lemma add_records_again cms cms' tree :
  (forall r, In r cms' ->
             present (Js.split "/"%char (CodeMap.file_path r)) tree) ->
  CodeMap.add_records cms' tree = Some tree.
Proof.
  induction cms' as [|r cms' IH]; intros Hp; [reflexivity|]. cbn.
  unfold CodeMap.add_record. rewrite walk_present; [|apply Hp; now left].
  apply IH. intros r' Hr'. apply Hp. now right.
Qed.

Lemma add_records_twice cms :
  CodeMap.add_records (cms ++ cms) [] = CodeMap.add_records cms [].
Proof.
  rewrite add_records_app.
  destruct (CodeMap.add_records cms []) as [t|] eqn:E; [|reflexivity].
  apply (add_records_again cms). intros r Hr.
  apply (present_after_records cms r _ [] [] t Hr); [|exact E].
  now rewrite app_nil_r.
Qed.

Lemma convertToArray_titles o :
  well_keyed o ->
  Permutation (map CodeMap.ttitle (CodeMap.convertToArray o)) (map fst o).
Proof.
  intros [_ Ht]. rewrite convertToArray_eq, map_map.
  rewrite (Permutation_map _ (values_perm o)), map_map.
  assert (H : map (fun e => CodeMap.ttitle (CodeMap.convert_item (snd e))) o
              = map fst o).
  { apply map_ext_in. intros e He. rewrite convert_item_eq. cbn.
    now apply (proj1 (Forall_forall _ _) Ht). }
  now rewrite H.
Qed.

Lemma convertToArray_distinct o :
  well_keyed o -> NoDup (map CodeMap.ttitle (CodeMap.convertToArray o)).
Proof.
  intros Hk. apply (Permutation_NoDup (Permutation_sym
                                         (convertToArray_titles o Hk))).
  apply Hk.
Qed.

Lemma sibling_groups_distinct tree :
  all_keyed tree ->
  Forall (fun g => NoDup (map CodeMap.ttitle g))
         (CodeMap.sibling_groups (CodeMap.convertToArray tree)).
Proof.
  intros [Htop Hdeep]. unfold CodeMap.sibling_groups. constructor.
  - now apply convertToArray_distinct.
  - apply Forall_forall. intros g Hg. apply in_flat_map in Hg.
    destruct Hg as [x [Hx Hg]]. apply In_forest_nodes_convert in Hx.
    destruct Hx as [m [Hm ->]]. rewrite tchildren_convert_item in Hg.
    destruct (CodeMap.children m) as [|e ch] eqn:E; [destruct Hg|].
    destruct Hg as [<-|[]]. apply convertToArray_distinct.
    rewrite <- E. now apply (proj1 (Forall_forall _ _) Hdeep).
Qed.

Lemma convertToArray_length o :
  List.length (CodeMap.convertToArray o) = List.length o.
Proof.
  rewrite convertToArray_eq, length_map.
  rewrite (Permutation_length (values_perm o)). apply length_map.
Qed.

End TreeClaimsHelpers.

(** C10: a record whose path was met before in the collection leaves
    the tree exactly as it was, so every node keeps its key, its file
    mark and its data, and no node is added: the forest is the one
    built without that record. *)
Theorem repeated_path_changes_nothing
        (Details : Type) (pre post : list (CodeMap.codeMap Details))
        (r0 r : CodeMap.codeMap Details) :
  In r0 pre -> CodeMap.file_path r = CodeMap.file_path r0 ->
  CodeMap.add_records (pre ++ [r]) [] = CodeMap.add_records pre []
  /\ CodeMap.buildTreeData (pre ++ r :: post)
     = CodeMap.buildTreeData (pre ++ post).
Proof.
  intros Hin Hpath.
  assert (Hsplit : Js.split "/"%char (CodeMap.file_path r0)
                   = Js.split "/"%char (CodeMap.file_path r) ++ []).
  { now rewrite app_nil_r, Hpath. }
  split.
  - rewrite (covered_record_can_be_dropped pre [] r0 r [] Hin Hsplit).
    now rewrite app_nil_r.
  - unfold CodeMap.buildTreeData.
    now rewrite (covered_record_can_be_dropped pre post r0 r [] Hin Hsplit).
Qed.

Lemma repeated_path_witness :
  CodeMap.buildTreeData
    ([CodeMap.CodeMapRecord "src/app.js" 10]
       ++ CodeMap.CodeMapRecord "src/app.js" 99
       :: [CodeMap.CodeMapRecord "readme.md" 2])
  = CodeMap.buildTreeData
      ([CodeMap.CodeMapRecord "src/app.js" 10]
         ++ [CodeMap.CodeMapRecord "readme.md" 2]).
Proof.
  apply (repeated_path_changes_nothing nat
           [CodeMap.CodeMapRecord "src/app.js" 10]
           [CodeMap.CodeMapRecord "readme.md" 2]
           (CodeMap.CodeMapRecord "src/app.js" 10)
           (CodeMap.CodeMapRecord "src/app.js" 99)).
  - simpl. left. reflexivity.
  - reflexivity.
Defined.

(** C9: the forest is a function of the [codeMaps] state alone, built
    from a fresh dictionary in every call; feeding the same records a
    second time changes nothing; and in the forest no two siblings have
    the same title, so records that share a directory share its node. *)
Theorem build_repeatable_and_merging
        (Details Summary : Type) (cms : list (CodeMap.codeMap Details)) :
  (forall s1 s2 : @CodeMap.state Details Summary,
      CodeMap.codeMaps s1 = cms -> CodeMap.codeMaps s2 = cms ->
      CodeMap.treeData s1 = CodeMap.treeData s2)
  /\ CodeMap.buildTreeData (cms ++ cms) = CodeMap.buildTreeData cms
  /\ (forall forest,
         CodeMap.buildTreeData cms = Some forest ->
         Forall (fun g => NoDup (map CodeMap.ttitle g))
                (CodeMap.sibling_groups forest)).
Proof.
  split; [|split].
  - intros s1 s2 H1 H2. unfold CodeMap.treeData. now rewrite H1, H2.
  - unfold CodeMap.buildTreeData. now rewrite add_records_twice.
  - intros forest. unfold CodeMap.buildTreeData.
    destruct (CodeMap.add_records cms []) as [t|] eqn:E; [|discriminate].
    intros [= <-]. apply sibling_groups_distinct.
    apply (add_records_all_keyed cms [] t); [apply empty_all_keyed|exact E].
Qed.

Lemma build_repeatable_witness :
  Forall (fun g => NoDup (map CodeMap.ttitle g))
         (CodeMap.sibling_groups
            [ CodeMap.TreeNode "src/app.js0" "src" CodeMap.FolderOutlined
                (Some
                   [ CodeMap.TreeNode "src/app.js1" "app.js"
                       CodeMap.FileOutlined None true
                       (Some (CodeMap.CodeMapRecord "src/app.js" 10));
                     CodeMap.TreeNode "src/util.js1" "util.js"
                       CodeMap.FileOutlined None true
                       (Some (CodeMap.CodeMapRecord "src/util.js" 5)) ])
                false None ]).
Proof.
  apply (proj2 (proj2 (build_repeatable_and_merging nat nat
                         [ CodeMap.CodeMapRecord "src/app.js" 10;
                           CodeMap.CodeMapRecord "src/util.js" 5 ]))).
  reflexivity.
Defined.

Section BlankSegments.
Context {Details : Type}.
Implicit Types (n m : CodeMap.node Details)
         (o current tree : Js.object (CodeMap.node Details))
         (cm r : CodeMap.codeMap Details)
         (cms : list (CodeMap.codeMap Details)).

Lemma all_keyed_below current part n :
  all_keyed current -> Js.own current part = Some n ->
  CodeMap.title n = part /\ all_keyed (CodeMap.children n).
Proof.
  intros [[_ Ht] Hdeep] Ho. split.
  - apply own_In in Ho. now apply (proj1 (Forall_forall _ _) Ht) in Ho.
  - split.
    + apply (proj1 (Forall_forall _ _) Hdeep).
      now apply (own_object_nodes current part).
    + apply Forall_forall. intros m Hm.
      apply (proj1 (Forall_forall _ _) Hdeep).
      now apply (below_own_object_nodes current part n).
Qed.

Lemma In_object_nodes_set_new current part n :
  In n (CodeMap.object_nodes (Js.set current part n)).
Proof.
  apply In_object_nodes. exists (part, n). split; [apply In_set_new|].
  now left.
Qed.

Lemma In_object_nodes_set_below current part n m :
  In m (CodeMap.object_nodes (CodeMap.children n)) ->
  In m (CodeMap.object_nodes (Js.set current part n)).
Proof.
  intros Hm. apply In_object_nodes. exists (part, n).
  split; [apply In_set_new|]. now right.
Qed.

(** Walking a path with an empty segment leaves a node whose title is
    the empty string. *)
Lemma walk_blank_segment cm len parts idx current t' :
  all_keyed current -> In "" parts ->
  CodeMap.walk cm len parts idx current = Some t' ->
  exists m, In m (CodeMap.object_nodes t') /\ CodeMap.title m = "".
Proof.
  revert idx current t'. induction parts as [|part rest IH];
    intros idx current t' Hk Hin Hw; [destruct Hin|].
  apply walk_inv in Hw.
  destruct Hw as [(Hr & -> & ->)|(n & ch' & Hn & Hw & ->)].
  - destruct Hin as [->|[]]. apply read_Inherited in Hr.
    destruct Hr as [_ Hr]. discriminate Hr.
  - assert (Hn' : CodeMap.title n = part /\ all_keyed (CodeMap.children n)).
    { destruct Hn as [Hr|[_ ->]].
      - apply read_Own in Hr. now apply (all_keyed_below current).
      - split; [reflexivity|apply empty_all_keyed]. }
    destruct Hn' as [Htitle Hkn]. destruct Hin as [->|Hin].
    + exists (CodeMap.with_children n ch').
      split; [apply In_object_nodes_set_new|exact Htitle].
    + destruct (IH (S idx) _ _ Hkn Hin Hw) as [m [Hm Hmt]].
      exists m. split; [|exact Hmt].
      now apply In_object_nodes_set_below.
Qed.

(** A node with a given title is still there, with that title, after
    any walk. *)
Lemma walk_keeps_title (s : string) cm len parts idx current t' :
  (exists m, In m (CodeMap.object_nodes current) /\ CodeMap.title m = s) ->
  CodeMap.walk cm len parts idx current = Some t' ->
  exists m, In m (CodeMap.object_nodes t') /\ CodeMap.title m = s.
Proof.
  revert idx current t'. induction parts as [|part rest IH];
    intros idx current t' Hex Hw; [now injection Hw as <-|].
  apply walk_inv in Hw.
  destruct Hw as [(_ & _ & ->)|(n & ch' & Hn & Hw & ->)]; [exact Hex|].
  destruct Hex as [m [Hm Hmt]]. apply In_object_nodes in Hm.
  destruct Hm as [e [He Hm]].
  destruct (In_set_kept current part (CodeMap.with_children n ch') e He)
    as [Hkept|Hown].
  - exists m. split; [|exact Hmt]. apply In_object_nodes. now exists e.
  - assert (Hn' : snd e = n).
    { destruct Hn as [Hr|[Hr _]].
      - apply read_Own in Hr. congruence.
      - apply read_Undefined in Hr. destruct Hr. congruence. }
    rewrite Hn' in Hm. destruct Hm as [->|Hm].
    + exists (CodeMap.with_children n ch').
      split; [apply In_object_nodes_set_new|exact Hmt].
    + destruct (IH (S idx) (CodeMap.children n) ch') as [m' [Hm' Hmt']];
        [now exists m|exact Hw|].
      exists m'. split; [|exact Hmt'].
      now apply In_object_nodes_set_below.
Qed.

Lemma add_records_blank_segment cms r tree tree' :
  all_keyed tree -> In r cms ->
  In "" (Js.split "/"%char (CodeMap.file_path r)) ->
  CodeMap.add_records cms tree = Some tree' ->
  exists m, In m (CodeMap.object_nodes tree') /\ CodeMap.title m = "".
Proof.
  revert tree. induction cms as [|cm cms IH]; intros tree Hk Hin Hb H;
    [destruct Hin|].
  cbn in H. destruct (CodeMap.add_record tree cm) as [t1|] eqn:E;
    [|discriminate].
  destruct Hin as [->|Hin].
  - unfold CodeMap.add_record in E.
    pose proof (walk_blank_segment _ _ _ _ _ _ Hk Hb E) as Hex.
    revert Hex H. apply (add_records_keeps
      (fun t => exists m, In m (CodeMap.object_nodes t)
                          /\ CodeMap.title m = "")).
    intros c t t' _ Hex Hw. unfold CodeMap.add_record in Hw.
    eapply walk_keeps_title; eauto.
  - apply (IH t1); auto. unfold CodeMap.add_record in E.
    eapply walk_all_keyed; [|exact Hk|exact E]. reflexivity.
Qed.

End BlankSegments.

(** The path [src//app.js] has an empty segment; the forest built from
    it has a node whose title is the empty string. *)
Lemma blank_segment_makes_blank_node :
  ~ (forall forest,
        CodeMap.buildTreeData [CodeMap.CodeMapRecord "src//app.js" 10]
        = Some forest ->
        ~ In "" (map CodeMap.ttitle (CodeMap.forest_nodes forest))).
Proof.
  intros H. apply (H _ eq_refl). vm_compute. right. left. reflexivity.
Qed.

(** C3, as the code has it: the builder checks no path. A record whose
    path is empty or has an empty segment is walked like any other, and
    whenever the build returns a forest that forest has a node whose
    title is the empty string. The builder returns the forest only:
    nothing is reported and no record is skipped. *)
Theorem empty_segment_becomes_blank_node
        (Details : Type) (cms : list (CodeMap.codeMap Details))
        (r : CodeMap.codeMap Details)
        (forest : list (CodeMap.treeNode Details)) :
  In r cms ->
  In "" (Js.split "/"%char (CodeMap.file_path r)) ->
  CodeMap.buildTreeData cms = Some forest ->
  In "" (map CodeMap.ttitle (CodeMap.forest_nodes forest)).
Proof.
  intros Hin Hb. unfold CodeMap.buildTreeData.
  destruct (CodeMap.add_records cms []) as [t|] eqn:E; [|discriminate].
  intros [= <-].
  destruct (add_records_blank_segment cms r [] t empty_all_keyed Hin Hb E)
    as [m [Hm Hmt]].
  apply in_map_iff. exists (CodeMap.convert_item m). split.
  - rewrite convert_item_eq. exact Hmt.
  - apply In_forest_nodes_convert. now exists m.
Qed.

Lemma empty_segment_witness :
  In "" (map CodeMap.ttitle
           [ CodeMap.TreeNode "0" "" CodeMap.FileOutlined None true
               (Some (CodeMap.CodeMapRecord "" 1)) ]).
Proof.
  apply (empty_segment_becomes_blank_node nat
           [CodeMap.CodeMapRecord "" 1] (CodeMap.CodeMapRecord "" 1)
           [ CodeMap.TreeNode "0" "" CodeMap.FileOutlined None true
               (Some (CodeMap.CodeMapRecord "" 1)) ]).
  - simpl. left. reflexivity.
  - simpl. left. reflexivity.
  - reflexivity.
Defined.

(** The record [a] comes before [a/b]: node [a] is marked as a file,
    carries data and has a child. *)
Lemma file_node_with_children :
  ~ (forall forest,
        CodeMap.buildTreeData
          [CodeMap.CodeMapRecord "a" 1; CodeMap.CodeMapRecord "a/b" 2]
        = Some forest ->
        Forall (fun x =>
                  (CodeMap.tisFile x = true /\ CodeMap.tchildren x = None
                   /\ CodeMap.tdata x <> None)
                  \/ (CodeMap.tisFile x = false /\ CodeMap.tdata x = None
                      /\ exists c l, CodeMap.tchildren x = Some (c :: l)))
               (CodeMap.forest_nodes forest)).
Proof.
  intros H. specialize (H _ eq_refl). apply Forall_inv in H.
  destruct H as [(_ & H & _)|(H & _)]; discriminate H.
Qed.

(** C5, as the code has it: every node of the forest is marked as a
    file, with the file icon and the record of one of the files as its
    data, or as a folder, with the folder icon and no data; and when no
    path segment is the name of a property inherited from
    [Object.prototype], every folder has a non-empty array of children.
    A node marked as a file may have children as well. *)
Theorem forest_nodes_are_files_or_folders
        (Details : Type) (cms : list (CodeMap.codeMap Details))
        (forest : list (CodeMap.treeNode Details)) :
  CodeMap.buildTreeData cms = Some forest ->
  Forall (fun x =>
            if CodeMap.tisFile x
            then (exists cm, In cm cms /\ CodeMap.tdata x = Some cm)
                 /\ CodeMap.ticon x = CodeMap.FileOutlined
            else CodeMap.tdata x = None
                 /\ CodeMap.ticon x = CodeMap.FolderOutlined)
         (CodeMap.forest_nodes forest)
  /\ (plain_segments cms ->
      Forall (fun x =>
                CodeMap.tisFile x = false ->
                exists c l, CodeMap.tchildren x = Some (c :: l))
             (CodeMap.forest_nodes forest)).
Proof.
  unfold CodeMap.buildTreeData.
  destruct (CodeMap.add_records cms []) as [t|] eqn:E; [|discriminate].
  intros [= <-]. split.
  - pose proof (add_records_file_or_folder cms [] t (Forall_nil _) E) as Hall.
    apply Forall_forall. intros x Hx. apply In_forest_nodes_convert in Hx.
    destruct Hx as [m [Hm ->]].
    apply (proj1 (Forall_forall _ _) Hall) in Hm.
    rewrite convert_item_eq. exact Hm.
  - intros Hplain.
    pose proof (add_records_folder_has_children cms [] t Hplain
                  (Forall_nil _) E) as Hall.
    apply Forall_forall. intros x Hx. apply In_forest_nodes_convert in Hx.
    destruct Hx as [m [Hm ->]].
    apply (proj1 (Forall_forall _ _) Hall) in Hm.
    rewrite tchildren_convert_item. rewrite convert_item_eq. cbn.
    intros Hf. specialize (Hm Hf).
    destruct (CodeMap.children m) as [|e ch] eqn:Ech; [congruence|].
    pose proof (convertToArray_length (e :: ch)) as Hlen.
    destruct (CodeMap.convertToArray (e :: ch)) as [|c l];
      [discriminate Hlen|].
    now exists c, l.
Qed.

Lemma forest_nodes_witness :
  Forall (fun x =>
            if CodeMap.tisFile x
            then (exists cm,
                     In cm [CodeMap.CodeMapRecord "a" 1;
                            CodeMap.CodeMapRecord "a/b" 2]
                     /\ CodeMap.tdata x = Some cm)
                 /\ CodeMap.ticon x = CodeMap.FileOutlined
            else CodeMap.tdata x = None
                 /\ CodeMap.ticon x = CodeMap.FolderOutlined)
         (CodeMap.forest_nodes
            [ CodeMap.TreeNode "a0" "a" CodeMap.FileOutlined
                (Some [ CodeMap.TreeNode "a/b1" "b" CodeMap.FileOutlined
                          None true (Some (CodeMap.CodeMapRecord "a/b" 2)) ])
                true (Some (CodeMap.CodeMapRecord "a" 1)) ]).
Proof.
  apply (forest_nodes_are_files_or_folders nat
           [CodeMap.CodeMapRecord "a" 1; CodeMap.CodeMapRecord "a/b" 2]).
  reflexivity.
Defined.

(** ** Two records, one path continuing the other *)

Lemma split_not_empty (sep : ascii) (s : string) : Js.split sep s <> [].
Proof.
  destruct s as [|c s]; cbn; [discriminate|].
  destruct (Ascii.eqb c sep); [discriminate|].
  destruct (Js.split sep s); discriminate.
Qed.

(** A string that is one segment, followed by the separator and more. *)
Lemma split_segment_then (sep : ascii) (s t : string) :
  Js.split sep s = [s] ->
  Js.split sep (s ++ String sep t)%string = s :: Js.split sep t.
Proof.
  induction s as [|c s IH]; cbn.
  - intros _. now rewrite Ascii.eqb_refl.
  - destruct (Ascii.eqb c sep); [discriminate|].
    destruct (Js.split sep s) as [|piece pieces] eqn:E.
    + now destruct (split_not_empty sep s).
    + intros [= -> ->]. now rewrite IH.
Qed.

Section TwoRecords.
Context {Details : Type}.

Lemma read_empty (part : string) :
  Js.inherited part = false ->
  Js.read (@nil (string * CodeMap.node Details)) part = Js.Undefined.
Proof. intros H. unfold Js.read, Js.own. cbn [find]. now rewrite H. Qed.

Lemma read_first (part : string) (n : CodeMap.node Details) o :
  Js.read ((part, n) :: o) part = Js.Own n.
Proof. unfold Js.read, Js.own. cbn. now rewrite String.eqb_refl. Qed.

Lemma set_first (part : string) (n n' : CodeMap.node Details) o :
  Js.set ((part, n) :: o) part n' = (part, n') :: o.
Proof. cbn. now rewrite String.eqb_refl. Qed.

Lemma set_empty (part : string) (n : CodeMap.node Details) :
  Js.set [] part n = [(part, n)].
Proof. reflexivity. Qed.

Lemma convertToArray_single (part : string) (n : CodeMap.node Details) :
  CodeMap.convertToArray [(part, n)] = [CodeMap.convert_item n].
Proof.
  unfold CodeMap.convertToArray, CodeMap.convert_all, Js.values. cbn [map].
  now rewrite entries_single.
Qed.

Lemma keys_single (part : string) (n : CodeMap.node Details) :
  Js.keys [(part, n)] = [part].
Proof. unfold Js.keys. now rewrite entries_single. Qed.

End TwoRecords.

(** The record [a] comes first and [a/b] second: node [a] stays a file
    with its data. *)
Lemma leaf_first_stays_leaf :
  ~ (exists root,
        CodeMap.buildTreeData
          [CodeMap.CodeMapRecord "a" 1; CodeMap.CodeMapRecord "a/b" 2]
        = Some [root]
        /\ CodeMap.tisFile root = false /\ CodeMap.tdata root = None).
Proof.
  intros [root [H [Hf _]]]. vm_compute in H. injection H as <-.
  discriminate Hf.
Qed.

(** C2, as the code has it: the builder has no notion of conflict and
    reports none; the record met first decides. A record whose path is
    the beginning of (or equal to) the path of an earlier record changes
    nothing and its data is dropped silently. A node, once made, keeps
    its key, title, icon, file mark and data whatever records follow.
    For the two records [S] and [S/T]: with [S/T] first, [S] is a
    folder with the single child [T]; with [S] first, [S] is a file
    node with its own data and the child [T] below it. The outcome
    depends on the order. *)
Theorem first_record_decides_file_or_folder (Details : Type) :
  (forall (post : list (CodeMap.codeMap Details))
          (tree tree' : Js.object (CodeMap.node Details))
          (parts : list string) (n : CodeMap.node Details),
      node_at parts tree = Some n ->
      CodeMap.add_records post tree = Some tree' ->
      exists n', node_at parts tree' = Some n' /\ same_fields n n')
  /\
  (forall (pre post : list (CodeMap.codeMap Details))
          (r0 r : CodeMap.codeMap Details) (more : list string),
      In r0 pre ->
      Js.split "/"%char (CodeMap.file_path r0)
      = Js.split "/"%char (CodeMap.file_path r) ++ more ->
      CodeMap.buildTreeData (pre ++ r :: post)
      = CodeMap.buildTreeData (pre ++ post))
  /\
  (forall (S T : string) (dS dL : Details),
      Js.split "/"%char S = [S] -> Js.split "/"%char T = [T] ->
      Js.inherited S = false -> Js.inherited T = false ->
      let short := CodeMap.CodeMapRecord S dS in
      let long := CodeMap.CodeMapRecord (S ++ "/" ++ T)%string dL in
      let child :=
        CodeMap.TreeNode (Js.concat_number (CodeMap.file_path long) 1) T
                         CodeMap.FileOutlined None true (Some long) in
      CodeMap.buildTreeData [long; short]
      = Some [ CodeMap.TreeNode
                 (Js.concat_number (CodeMap.file_path long) 0) S
                 CodeMap.FolderOutlined (Some [child]) false None ]
      /\ CodeMap.buildTreeData [short; long]
         = Some [ CodeMap.TreeNode
                    (Js.concat_number S 0) S
                    CodeMap.FileOutlined (Some [child]) true (Some short) ]).
Proof.
  split; [|split].
  - intros post tree tree' parts n. apply node_at_kept_records.
  - intros pre post r0 r more Hin Hsplit. unfold CodeMap.buildTreeData.
    now rewrite (covered_record_can_be_dropped pre post r0 r more Hin Hsplit).
  - intros S T dS dL HS HT HiS HiT short long child.
    assert (Hlong : Js.split "/"%char (CodeMap.file_path long) = [S; T]).
    { cbn [CodeMap.file_path long]. change ("/" ++ T)%string with (String "/"%char T).
      now rewrite (split_segment_then "/"%char S T HS), HT. }
    assert (Hshort : Js.split "/"%char (CodeMap.file_path short) = [S]).
    { exact HS. }
    unfold CodeMap.buildTreeData, CodeMap.add_records, CodeMap.add_record.
    rewrite Hlong, Hshort. cbn [List.length].
    repeat first
      [ rewrite read_empty by assumption
      | rewrite read_first
      | rewrite set_first
      | rewrite set_empty
      | rewrite convertToArray_single
      | rewrite keys_single
      | rewrite convert_item_eq
      | progress cbn [CodeMap.walk CodeMap.new_node CodeMap.children
                      CodeMap.with_children Nat.eqb Nat.sub CodeMap.key
                      CodeMap.title CodeMap.node_icon CodeMap.isFile
                      CodeMap.data List.length Nat.ltb Nat.leb] ].
    cbn. split; reflexivity.
Qed.

Lemma first_record_decides_witness :
  CodeMap.buildTreeData
    [CodeMap.CodeMapRecord ("a" ++ "/" ++ "b")%string 2;
     CodeMap.CodeMapRecord "a" 1]
  = Some [ CodeMap.TreeNode "a/b0" "a" CodeMap.FolderOutlined
             (Some [ CodeMap.TreeNode "a/b1" "b" CodeMap.FileOutlined None
                       true (Some (CodeMap.CodeMapRecord "a/b" 2)) ])
             false None ].
Proof.
  apply (proj1 (proj2 (proj2 (first_record_decides_file_or_folder nat))
                  "a" "b" 1 2 eq_refl eq_refl eq_refl eq_refl)).
Defined.

(** * Further properties of the builder *)

Section Provenance.
Context {Details : Type}.
Implicit Types (n m : CodeMap.node Details)
         (o current tree : Js.object (CodeMap.node Details))
         (cm r : CodeMap.codeMap Details)
         (cms seen : list (CodeMap.codeMap Details)).

Lemma node_at_not_nil parts o n : node_at parts o = Some n -> parts <> [].
Proof. destruct parts; [discriminate|discriminate]. Qed.

Lemma node_at_cons part rest o :
  node_at (part :: rest) o
  = match Js.own o part with
    | Some n0 => match rest with
                 | [] => Some n0
                 | _ :: _ => node_at rest (CodeMap.children n0)
                 end
    | None => None
    end.
Proof. reflexivity. Qed.

(** Every node of the tree was made for some record, at the place its
    path leads to. *)
Lemma walk_made_by seen cm len parts :
  forall done idx current t',
    In cm seen ->
    Js.split "/"%char (CodeMap.file_path cm) = done ++ parts ->
    idx = List.length done ->
    len = List.length (done ++ parts) ->
    (forall qs n, node_at qs current = Some n -> made_by seen (done ++ qs) n) ->
    CodeMap.walk cm len parts idx current = Some t' ->
    forall qs n, node_at qs t' = Some n -> made_by seen (done ++ qs) n.
Proof.
  induction parts as [|part rest IH];
    intros done idx current t' Hcm Hsplit Hidx Hlen Hcur Hw qs n Hn.
  - injection Hw as <-. now apply Hcur.
  - apply walk_inv in Hw.
    destruct Hw as [(_ & _ & ->)|(n0 & ch' & Hn0 & Hw & ->)];
      [now apply Hcur|].
    destruct qs as [|q qs']; [discriminate Hn|].
    rewrite node_at_cons in Hn.
    destruct (String.eqb_spec part q) as [<-|Hne].
    + rewrite own_set_same in Hn.
      destruct qs' as [|q' qs''].
      * injection Hn as <-.
        destruct Hn0 as [Hr|[_ ->]].
        -- apply read_Own in Hr.
           assert (H0 : node_at [part] current = Some n0).
           { cbn. now rewrite Hr. }
           apply Hcur in H0. exact H0.
        -- exists cm, rest. split; [exact Hcm|].
           unfold made_for, CodeMap.new_node. cbn.
           rewrite <- app_assoc. cbn. split; [exact Hsplit|].
           rewrite length_app. cbn.
           replace (List.length done + 1 - 1) with idx by lia.
           split; [reflexivity|]. rewrite last_last.
           split; [reflexivity|].
           assert (Hlast : Nat.eqb idx (len - 1)
                           = match rest with [] => true | _ :: _ => false end).
           { rewrite Hlen, length_app. cbn. destruct rest; cbn.
             - apply Nat.eqb_eq. lia.
             - apply Nat.eqb_neq. lia. }
           rewrite Hlast. now repeat split.
      * cbn [CodeMap.with_children CodeMap.children] in Hn.
        replace (done ++ part :: q' :: qs'')
          with ((done ++ [part]) ++ q' :: qs'')
          by (now rewrite <- app_assoc).
        apply (IH (done ++ [part]) (S idx) (CodeMap.children n0) ch');
          auto.
        -- now rewrite <- app_assoc.
        -- rewrite length_app. cbn. lia.
        -- now rewrite <- app_assoc.
        -- intros ps m Hm. rewrite <- app_assoc. cbn.
           destruct Hn0 as [Hr|[_ ->]]; [|destruct ps; discriminate Hm].
           apply read_Own in Hr. apply Hcur.
           rewrite node_at_cons, Hr.
           destruct ps; [discriminate Hm|exact Hm].
    + rewrite own_set_other in Hn by exact Hne.
      apply Hcur. now rewrite node_at_cons.
Qed.

Lemma add_records_made_by cms seen tree tree' :
  (forall r, In r cms -> In r seen) ->
  (forall qs n, node_at qs tree = Some n -> made_by seen qs n) ->
  CodeMap.add_records cms tree = Some tree' ->
  forall qs n, node_at qs tree' = Some n -> made_by seen qs n.
Proof.
  intros Hsub.
  apply (add_records_keeps
           (fun t => forall qs n, node_at qs t = Some n -> made_by seen qs n)).
  intros cm t t' Hcm Ht Hw. unfold CodeMap.add_record in Hw.
  intros qs n Hn.
  apply (walk_made_by seen cm
           (List.length (Js.split "/"%char (CodeMap.file_path cm)))
           (Js.split "/"%char (CodeMap.file_path cm)) [] 0 t t'); auto.
Qed.

End Provenance.

(** ** Where the nodes sit *)

Section Locations.
Context {Details : Type}.
Implicit Types (n m : CodeMap.node Details)
         (o current tree : Js.object (CodeMap.node Details))
         (x t : CodeMap.treeNode Details)
         (cms : list (CodeMap.codeMap Details)).

Lemma located_below_eq n loc :
  located_below n loc = (loc, n) :: object_located loc (CodeMap.children n).
Proof.
  destruct n as [k ti i ch f d]. cbn [located_below CodeMap.children].
  f_equal. unfold object_located.
  induction ch as [|[name child] ch IH]; [reflexivity|].
  cbn [flat_map fst snd]. now rewrite IH.
Qed.

Lemma tree_located_eq t loc :
  tree_located t loc
  = (loc, t) :: match CodeMap.tchildren t with
                | Some l => forest_located loc l
                | None => []
                end.
Proof. now destruct t as [k ti i [l|] f d]. Qed.

Lemma In_object_located done o ps n :
  In (ps, n) (object_located done o) <->
  exists e, In e o
            /\ ((ps, n) = (done ++ [fst e], snd e)
                \/ In (ps, n) (object_located (done ++ [fst e])
                                              (CodeMap.children (snd e)))).
Proof.
  unfold object_located at 1. rewrite in_flat_map.
  split; intros [e [He H]]; exists e; (split; [exact He|]);
    rewrite located_below_eq in *; cbn in *; intuition congruence.
Qed.

Lemma own_of_In o (k : string) n :
  NoDup (map fst o) -> In (k, n) o -> Js.own o k = Some n.
Proof.
  unfold Js.own. induction o as [|[k' n'] o IH]; cbn; [intros _ []|].
  intros Hnd Hin. inversion Hnd as [|? ? Hnotin Hnd']; subst.
  destruct Hin as [[= -> ->]|Hin]; [now rewrite String.eqb_refl|].
  destruct (String.eqb_spec k' k) as [->|Hne]; [|now apply IH].
  exfalso. apply Hnotin. apply in_map_iff. now exists (k, n).
Qed.

Lemma all_keyed_entry o (e : string * CodeMap.node Details) :
  all_keyed o -> In e o ->
  CodeMap.title (snd e) = fst e /\ all_keyed (CodeMap.children (snd e)).
Proof.
  intros Hk He. destruct e as [k n]. cbn.
  apply (all_keyed_below o k n Hk). apply own_of_In; [apply Hk|exact He].
Qed.

(** A node that node_at finds is listed at that place. *)
Lemma node_at_located qs :
  forall done o n,
    node_at qs o = Some n -> In (done ++ qs, n) (object_located done o).
Proof.
  induction qs as [|q qs IH]; intros done o n Hn; [discriminate Hn|].
  rewrite node_at_cons in Hn.
  destruct (Js.own o q) as [n0|] eqn:E; [|discriminate Hn].
  apply own_In in E. apply In_object_located. exists (q, n0).
  split; [exact E|]. cbn. destruct qs as [|q' qs'].
  - injection Hn as <-. now left.
  - right. replace (done ++ q :: q' :: qs') with ((done ++ [q]) ++ q' :: qs')
      by (now rewrite <- app_assoc).
    now apply IH.
Qed.

(** In a well keyed tree a listed node is where node_at looks. *)
Lemma located_node_at_step o :
  Forall (fun e =>
            forall loc ps n,
              all_keyed (CodeMap.children (snd e)) ->
              In (ps, n) (object_located loc (CodeMap.children (snd e))) ->
              exists qs, ps = loc ++ qs
                         /\ node_at qs (CodeMap.children (snd e)) = Some n) o ->
  forall done ps n,
    all_keyed o -> In (ps, n) (object_located done o) ->
    exists qs, ps = done ++ qs /\ node_at qs o = Some n.
Proof.
  intros IH done ps n Hk Hin. apply In_object_located in Hin.
  destruct Hin as [[k n0] [He Hin]]. cbn [fst snd] in Hin.
  destruct (all_keyed_entry o (k, n0) Hk He) as [_ Hk0]. cbn in Hk0.
  assert (Hown : Js.own o k = Some n0).
  { apply own_of_In; [apply Hk|exact He]. }
  destruct Hin as [[= -> ->]|Hin].
  - exists [k]. split; [reflexivity|]. cbn. now rewrite Hown.
  - rewrite Forall_forall in IH.
    destruct (IH (k, n0) He (done ++ [k]) ps n Hk0 Hin) as [qs [-> Hqs]].
    exists (k :: qs). split; [now rewrite <- app_assoc|].
    rewrite node_at_cons, Hown.
    destruct qs; [discriminate Hqs|exact Hqs].
Qed.

Lemma located_node_at o done ps n :
  all_keyed o -> In (ps, n) (object_located done o) ->
  exists qs, ps = done ++ qs /\ node_at qs o = Some n.
Proof.
  intros Hk Hin. apply (located_node_at_step o); [|exact Hk|exact Hin].
  apply Forall_forall. intros e _. generalize (snd e). clear.
  induction n as [k ti i ch f d IH] using node_induction.
  intros loc ps m Hk Hin. cbn [CodeMap.children] in *.
  now apply (located_node_at_step ch).
Qed.

Lemma flat_map_pointwise_perm {A B : Type} (f g : A -> list B) (l : list A) :
  (forall a, In a l -> Permutation (f a) (g a)) ->
  Permutation (flat_map f l) (flat_map g l).
Proof.
  induction l as [|a l IH]; intros H; [reflexivity|]. cbn.
  apply Permutation_app; [apply H; now left|].
  apply IH. intros b Hb. apply H. now right.
Qed.

Lemma flat_map_of_map {A B C : Type} (f : B -> list C) (g : A -> B)
      (l : list A) :
  flat_map f (map g l) = flat_map (fun a => f (g a)) l.
Proof. induction l as [|a l IH]; [reflexivity|]. cbn. now rewrite IH. Qed.

Lemma map_of_flat_map {A B C : Type} (f : B -> C) (g : A -> list B)
      (l : list A) :
  map f (flat_map g l) = flat_map (fun a => map f (g a)) l.
Proof.
  induction l as [|a l IH]; [reflexivity|]. cbn.
  now rewrite map_app, IH.
Qed.

(** The located nodes of the converted forest are the converted located
    nodes of the tree, in enumeration order. *)
Lemma forest_located_convert_step o :
  Forall (fun e =>
            forall loc,
              all_keyed (CodeMap.children (snd e)) ->
              Permutation
                (forest_located loc
                   (CodeMap.convertToArray (CodeMap.children (snd e))))
                (map (fun p => (fst p, CodeMap.convert_item (snd p)))
                     (object_located loc (CodeMap.children (snd e))))) o ->
  forall done,
    all_keyed o ->
    Permutation
      (forest_located done (CodeMap.convertToArray o))
      (map (fun p => (fst p, CodeMap.convert_item (snd p)))
           (object_located done o)).
Proof.
  intros IH done Hk. unfold forest_located at 1, object_located at 1.
  rewrite convertToArray_eq, map_of_flat_map.
  rewrite (Permutation_flat_map _
             (Permutation_map CodeMap.convert_item (values_perm o))).
  rewrite !flat_map_of_map. apply flat_map_pointwise_perm.
  intros e He. destruct (all_keyed_entry o e Hk He) as [Ht Hke].
  assert (Htt : CodeMap.ttitle (CodeMap.convert_item (snd e)) = fst e).
  { now rewrite convert_item_eq. }
  rewrite Htt, tree_located_eq, located_below_eq, tchildren_convert_item.
  cbn [map fst snd]. apply perm_skip.
  rewrite Forall_forall in IH. specialize (IH e He (done ++ [fst e]) Hke).
  destruct (CodeMap.children (snd e)) as [|c ch] eqn:E; [reflexivity|].
  exact IH.
Qed.

Lemma forest_located_convert o done :
  all_keyed o ->
  Permutation
    (forest_located done (CodeMap.convertToArray o))
    (map (fun p => (fst p, CodeMap.convert_item (snd p)))
         (object_located done o)).
Proof.
  intros Hk. apply forest_located_convert_step; [|exact Hk].
  apply Forall_forall. intros e _. generalize (snd e). clear.
  induction n as [k ti i ch f d IH] using node_induction.
  intros loc Hk. cbn [CodeMap.children] in *.
  now apply forest_located_convert_step.
Qed.

(** Induction on a node of the forest with the hypothesis for its
    children. *)
Lemma treeNode_induction (P : CodeMap.treeNode Details -> Prop) :
  (forall k ti i ch f d,
      match ch with Some l => Forall P l | None => True end ->
      P (CodeMap.TreeNode k ti i ch f d)) ->
  forall t, P t.
Proof.
  intros Hstep. fix IH 1. intros [k ti i ch f d]. apply Hstep.
  destruct ch as [l|]; [|exact I].
  induction l as [|c l IHl]; constructor; [apply IH|exact IHl].
Qed.

Lemma tree_located_nodes t :
  forall loc, map snd (tree_located t loc) = CodeMap.subtree t.
Proof.
  induction t as [k ti i ch f d IH] using treeNode_induction.
  intros loc. rewrite tree_located_eq, subtree_eq. cbn [map snd]. f_equal.
  cbn [CodeMap.tchildren]. destruct ch as [l|]; [|reflexivity].
  unfold forest_located, CodeMap.forest_nodes.
  induction l as [|c l IHl]; [reflexivity|].
  inversion IH as [|? ? Hc Hl]; subst. cbn [flat_map].
  now rewrite map_app, Hc, IHl.
Qed.

Lemma forest_located_nodes (forest : list (CodeMap.treeNode Details)) done :
  map snd (forest_located done forest) = CodeMap.forest_nodes forest.
Proof.
  unfold forest_located, CodeMap.forest_nodes.
  induction forest as [|t forest IH]; [reflexivity|]. cbn [flat_map].
  now rewrite map_app, tree_located_nodes, IH.
Qed.

Lemma all_keyed_tail (e : string * CodeMap.node Details) o :
  all_keyed (e :: o) -> all_keyed o.
Proof.
  intros [[Hnd Ht] Hdeep]. split; [split|].
  - now inversion Hnd.
  - now inversion Ht.
  - apply Forall_forall. intros m Hm.
    apply (proj1 (Forall_forall _ _) Hdeep).
    rewrite object_nodes_cons. right. apply in_or_app. now right.
Qed.

(** No two listed nodes of a well keyed tree sit at the same place. *)
Lemma object_located_NoDup_step o :
  Forall (fun e =>
            forall loc,
              all_keyed (CodeMap.children (snd e)) ->
              NoDup (map fst (object_located loc (CodeMap.children (snd e)))))
         o ->
  forall done, all_keyed o -> NoDup (map fst (object_located done o)).
Proof.
  induction o as [|[k n0] o IHo]; intros IH done Hk; [constructor|].
  unfold object_located. cbn [flat_map fst snd].
  fold (object_located done o). rewrite map_app.
  inversion IH as [|? ? Hn0 Hrest]; subst. cbn [snd] in Hn0.
  destruct (all_keyed_entry _ (k, n0) Hk (or_introl eq_refl)) as [_ Hk0].
  cbn [snd] in Hk0.
  apply NoDup_app.
  - rewrite located_below_eq. cbn [map fst]. constructor; [|now apply Hn0].
    intros Hin. apply in_map_iff in Hin. destruct Hin as [[ps m] [Hps Hin]].
    cbn in Hps. subst ps.
    destruct (located_node_at _ _ _ _ Hk0 Hin) as [qs [Heq Hqs]].
    apply node_at_not_nil in Hqs.
    rewrite <- (app_nil_r (done ++ [k])) in Heq at 1.
    apply app_inv_head in Heq. congruence.
  - apply IHo; [exact Hrest|]. now apply (all_keyed_tail (k, n0)).
  - intros ps Hl Hr.
    assert (Hfirst : exists qs, ps = done ++ k :: qs).
    { rewrite located_below_eq in Hl. cbn [map fst] in Hl.
      destruct Hl as [<-|Hl]; [exists []; reflexivity|].
      apply in_map_iff in Hl. destruct Hl as [[ps' m] [Hps Hin]].
      cbn in Hps. subst ps'.
      destruct (located_node_at _ _ _ _ Hk0 Hin) as [qs [-> _]].
      exists qs. now rewrite <- app_assoc. }
    destruct Hfirst as [qs ->].
    apply in_map_iff in Hr. destruct Hr as [[ps' m] [Hps Hin]].
    cbn in Hps. subst ps'.
    destruct (located_node_at _ _ _ _ (all_keyed_tail (k, n0) o Hk) Hin)
      as [qs' [Heq Hqs']].
    apply app_inv_head in Heq. subst qs'.
    rewrite node_at_cons in Hqs'.
    destruct (Js.own o k) as [m0|] eqn:E; [|discriminate Hqs'].
    apply own_In in E. destruct Hk as [[Hnd _] _]. cbn in Hnd.
    inversion Hnd as [|? ? Hnotin _]; subst. apply Hnotin.
    apply in_map_iff. now exists (k, m0).
Qed.

Lemma object_located_NoDup o done :
  all_keyed o -> NoDup (map fst (object_located done o)).
Proof.
  intros Hk. apply object_located_NoDup_step; [|exact Hk].
  apply Forall_forall. intros e _. generalize (snd e). clear.
  induction n as [k ti i ch f d IH] using node_induction.
  intros loc Hk. cbn [CodeMap.children] in *.
  now apply object_located_NoDup_step.
Qed.

End Locations.

(** ** What the forest consists of *)

Section ForestFacts.
Context {Details : Type}.
Implicit Types (n m : CodeMap.node Details)
         (o current tree : Js.object (CodeMap.node Details))
         (x t : CodeMap.treeNode Details)
         (cm r : CodeMap.codeMap Details)
         (cms : list (CodeMap.codeMap Details)).

Lemma build_inv cms forest :
  CodeMap.buildTreeData cms = Some forest ->
  exists tree,
    CodeMap.add_records cms [] = Some tree
    /\ forest = CodeMap.convertToArray tree
    /\ all_keyed tree.
Proof.
  unfold CodeMap.buildTreeData.
  destruct (CodeMap.add_records cms []) as [t|] eqn:E; [|discriminate].
  intros [= <-]. exists t. split; [reflexivity|]. split; [reflexivity|].
  apply (add_records_all_keyed cms [] t); [apply empty_all_keyed|exact E].
Qed.

Lemma made_by_convert cms ps n :
  made_by cms ps n -> tree_made_by cms ps (CodeMap.convert_item n).
Proof.
  intros (r & more & Hr & H). exists r, more. split; [exact Hr|].
  destruct n as [k ti i ch f d]. exact H.
Qed.

(** A located node of the forest comes from a node of the tree that
    node_at finds at the same place. *)
Lemma forest_located_node_at tree ps x :
  all_keyed tree ->
  In (ps, x) (forest_located [] (CodeMap.convertToArray tree)) ->
  exists n, node_at ps tree = Some n /\ x = CodeMap.convert_item n.
Proof.
  intros Hk Hin.
  apply (Permutation_in _ (forest_located_convert tree [] Hk)) in Hin.
  apply in_map_iff in Hin. destruct Hin as [[ps' n] [Heq Hin]].
  cbn in Heq. injection Heq as -> <-.
  destruct (located_node_at tree [] ps n Hk Hin) as [qs [-> Hqs]].
  now exists n.
Qed.

Lemma node_at_forest_located tree ps n :
  all_keyed tree -> node_at ps tree = Some n ->
  In (ps, CodeMap.convert_item n)
     (forest_located [] (CodeMap.convertToArray tree)).
Proof.
  intros Hk Hn.
  apply (Permutation_in _ (Permutation_sym
                             (forest_located_convert tree [] Hk))).
  apply in_map_iff. exists (ps, n). split; [reflexivity|].
  now apply (node_at_located ps [] tree n).
Qed.

Lemma built_nodes_made_by cms tree ps n :
  CodeMap.add_records cms [] = Some tree ->
  node_at ps tree = Some n -> made_by cms ps n.
Proof.
  intros E. apply (add_records_made_by cms cms [] tree); auto.
  intros qs m Hm. destruct qs; discriminate Hm.
Qed.

Lemma forest_located_made_by cms forest ps x :
  CodeMap.buildTreeData cms = Some forest ->
  In (ps, x) (forest_located [] forest) -> tree_made_by cms ps x.
Proof.
  intros Hb Hin. destruct (build_inv cms forest Hb) as (tree & E & -> & Hk).
  destruct (forest_located_node_at tree ps x Hk Hin) as [n [Hn ->]].
  apply made_by_convert. now apply (built_nodes_made_by cms tree).
Qed.

(** A present path without inherited names leads to a node. *)
Lemma present_node_at parts :
  forall o,
    present parts o -> parts <> [] ->
    Forall (fun part => Js.inherited part = false) parts ->
    exists n, node_at parts o = Some n.
Proof.
  induction parts as [|part rest IH]; intros o Hp Hne Hplain;
    [congruence|].
  cbn [present] in Hp. rewrite node_at_cons.
  inversion Hplain as [|? ? Hpart Hrest]; subst.
  destruct (Js.read o part) as [n0| |] eqn:E.
  - apply read_Own in E. rewrite E. destruct rest as [|q rest'].
    + now exists n0.
    + apply IH; auto. discriminate.
  - apply read_Inherited in E. destruct E. congruence.
  - destruct Hp.
Qed.

End ForestFacts.

(** ** When the builder throws *)

Section Throws.
Context {Details : Type}.
Implicit Types (n m : CodeMap.node Details)
         (o current tree : Js.object (CodeMap.node Details))
         (cm r : CodeMap.codeMap Details)
         (cms : list (CodeMap.codeMap Details)).

Lemma walk_top_plain cm len parts idx current t' :
  plain_keys current ->
  CodeMap.walk cm len parts idx current = Some t' -> plain_keys t'.
Proof.
  intros Hp. destruct parts as [|part rest]; [now intros [= <-]|].
  intros H. apply walk_inv in H.
  destruct H as [(_ & _ & ->)|(n & ch' & Hn & _ & ->)]; [exact Hp|].
  apply Forall_forall. intros e He. apply In_set in He.
  destruct He as [->|He]; [|now apply (proj1 (Forall_forall _ _) Hp)].
  cbn. destruct Hn as [Hr|[Hr _]].
  - apply read_Own, own_In in Hr.
    now apply (proj1 (Forall_forall _ _) Hp) in Hr.
  - now apply read_Undefined in Hr.
Qed.

Lemma walk_all_plain cm len parts idx current t' :
  idx + List.length parts = len -> all_plain current ->
  CodeMap.walk cm len parts idx current = Some t' -> all_plain t'.
Proof.
  intros Hlen [Htop Hdeep] Hw. split.
  - now apply (walk_top_plain cm len parts idx current).
  - revert Hdeep Hw.
    apply (walk_preserves (fun n => plain_keys (CodeMap.children n))
             (fun _ => True) cm len); [| |exact Hlen|apply Forall_True].
    + intros part rest i ch' _ _ Hw. cbn.
      apply (walk_top_plain cm len rest (S i) [] ch'); [constructor|exact Hw].
    + intros n rest i ch' Hn Hw. cbn.
      now apply (walk_top_plain cm len rest (S i) (CodeMap.children n) ch').
Qed.

Lemma add_records_all_plain cms tree tree' :
  all_plain tree -> CodeMap.add_records cms tree = Some tree' ->
  all_plain tree'.
Proof.
  apply (add_records_keeps all_plain). intros cm t t' _ Ht Hw.
  unfold CodeMap.add_record in Hw.
  eapply walk_all_plain; [|exact Ht|exact Hw]. reflexivity.
Qed.

Lemma all_plain_below current part n :
  all_plain current -> Js.own current part = Some n ->
  all_plain (CodeMap.children n).
Proof.
  intros [_ Hdeep] Ho. split.
  - apply (proj1 (Forall_forall _ _) Hdeep).
    now apply (own_object_nodes current part).
  - apply Forall_forall. intros m Hm.
    apply (proj1 (Forall_forall _ _) Hdeep).
    now apply (below_own_object_nodes current part n).
Qed.

Lemma empty_all_plain : all_plain (@nil (string * CodeMap.node Details)).
Proof. split; constructor. Qed.

(** The loop throws only where an inherited name is followed by
    another segment. *)
Lemma walk_None_inherited_inside cm len parts :
  forall idx current,
    CodeMap.walk cm len parts idx current = None -> inherited_inside parts.
Proof.
  induction parts as [|part rest IH]; intros idx current Hw;
    [discriminate Hw|].
  cbn [CodeMap.walk] in Hw.
  destruct (Js.read current part) as [n| |] eqn:E.
  - destruct (CodeMap.walk cm len rest (S idx) (CodeMap.children n))
      eqn:W; [discriminate Hw|].
    destruct (IH _ _ W) as (b & name & next & rest' & -> & Hi).
    now exists (part :: b), name, next, rest'.
  - destruct rest as [|next rest']; [discriminate Hw|].
    apply read_Inherited in E. destruct E as [_ Hi].
    now exists [], part, next, rest'.
  - destruct (CodeMap.walk cm len rest (S idx) _) eqn:W; [discriminate Hw|].
    destruct (IH _ _ W) as (b & name & next & rest' & -> & Hi).
    now exists (part :: b), name, next, rest'.
Qed.

(** And there it does throw: no dictionary of the tree has an own
    property under an inherited name. *)
Lemma walk_inherited_inside_None cm len before name next rest :
  Js.inherited name = true ->
  forall idx current,
    all_plain current ->
    CodeMap.walk cm len (before ++ name :: next :: rest) idx current = None.
Proof.
  intros Hi. induction before as [|part before IH]; intros idx current Hp.
  - cbn [app CodeMap.walk].
    assert (Hr : Js.read current name = Js.Inherited).
    { unfold Js.read. destruct (Js.own current name) as [n|] eqn:E.
      - apply own_In in E. destruct Hp as [Hp _].
        apply (proj1 (Forall_forall _ _) Hp) in E. cbn [fst] in E.
        congruence.
      - now rewrite Hi. }
    now rewrite Hr.
  - cbn [app CodeMap.walk]. destruct (Js.read current part) as [n| |] eqn:E.
    + rewrite IH; [reflexivity|].
      apply read_Own in E. now apply (all_plain_below current part).
    + now destruct before.
    + rewrite IH; [reflexivity|apply empty_all_plain].
Qed.

Lemma add_records_None cms :
  forall tree,
    CodeMap.add_records cms tree = None ->
    exists r, In r cms
              /\ inherited_inside (Js.split "/"%char (CodeMap.file_path r)).
Proof.
  induction cms as [|cm cms IH]; intros tree H; [discriminate H|].
  cbn in H. destruct (CodeMap.add_record tree cm) as [t1|] eqn:E.
  - destruct (IH t1 H) as [r [Hr Hin]]. exists r. split; [now right|exact Hin].
  - exists cm. split; [now left|]. unfold CodeMap.add_record in E.
    now apply walk_None_inherited_inside in E.
Qed.

Lemma add_records_throws cms r :
  In r cms ->
  inherited_inside (Js.split "/"%char (CodeMap.file_path r)) ->
  forall tree, all_plain tree -> CodeMap.add_records cms tree = None.
Proof.
  intros Hin (b & name & next & rest & Hsplit & Hi).
  induction cms as [|cm cms IH]; intros tree Hp; [destruct Hin|].
  cbn. destruct (CodeMap.add_record tree cm) as [t1|] eqn:E; [|reflexivity].
  destruct Hin as [->|Hin].
  - unfold CodeMap.add_record in E. rewrite Hsplit in E.
    rewrite (walk_inherited_inside_None r _ b name next rest Hi 0 tree Hp)
      in E.
    discriminate E.
  - apply IH; [exact Hin|].
    apply (add_records_all_plain [cm] tree t1 Hp). cbn. now rewrite E.
Qed.

End Throws.

(** X1. The builder throws exactly when some path has a segment that
    is the name of a property inherited from [Object.prototype] and is
    followed by another segment. *)
Theorem build_throws_iff_inherited_name_inside
        (Details : Type) (cms : list (CodeMap.codeMap Details)) :
  CodeMap.buildTreeData cms = None <->
  exists r, In r cms
            /\ inherited_inside (Js.split "/"%char (CodeMap.file_path r)).
Proof.
  unfold CodeMap.buildTreeData. split.
  - destruct (CodeMap.add_records cms []) as [t|] eqn:E; [discriminate|].
    intros _. now apply (add_records_None cms []).
  - intros [r [Hin Hi]].
    now rewrite (add_records_throws cms r Hin Hi [] empty_all_plain).
Qed.

(** X2. Every node of the forest was made for a record of the
    collection: if [ps] are the titles from a root down to the node,
    some record has a path that begins with the segments [ps], the key
    of the node is that path followed by the depth of the node, its
    title is the last of [ps], it is marked as a file exactly when [ps]
    is the whole path, and then its data is that record. *)
Theorem forest_node_made_for_a_record
        (Details : Type) (cms : list (CodeMap.codeMap Details))
        (forest : list (CodeMap.treeNode Details))
        (ps : list string) (x : CodeMap.treeNode Details) :
  CodeMap.buildTreeData cms = Some forest ->
  In (ps, x) (forest_located [] forest) ->
  tree_made_by cms ps x.
Proof. apply forest_located_made_by. Qed.

Lemma forest_node_made_for_witness :
  tree_made_by
    [CodeMap.CodeMapRecord "src/app.js" 10; CodeMap.CodeMapRecord "src/b.js" 5]
    ["src"; "b.js"]
    (CodeMap.TreeNode "src/b.js1" "b.js" CodeMap.FileOutlined None true
                      (Some (CodeMap.CodeMapRecord "src/b.js" 5))).
Proof.
  eapply (forest_node_made_for_a_record nat
            [CodeMap.CodeMapRecord "src/app.js" 10;
             CodeMap.CodeMapRecord "src/b.js" 5]).
  - reflexivity.
  - cbn. right. right. left. reflexivity.
Defined.

(** X3. When no segment is an inherited property name, the places of
    the forest are exactly the non-empty beginnings of the paths of the
    records: nothing is invented and nothing is lost, whatever the order
    of the records. *)
Theorem forest_places_are_the_path_beginnings
        (Details : Type) (cms : list (CodeMap.codeMap Details))
        (forest : list (CodeMap.treeNode Details)) (ps : list string) :
  plain_segments cms ->
  CodeMap.buildTreeData cms = Some forest ->
  ((exists x, In (ps, x) (forest_located [] forest)) <->
   (ps <> []
    /\ exists r more,
        In r cms /\ Js.split "/"%char (CodeMap.file_path r) = ps ++ more)).
Proof.
  intros Hplain Hb. split.
  - intros [x Hin]. split.
    + destruct (build_inv cms forest Hb) as (tree & E & -> & Hk).
      destruct (forest_located_node_at tree ps x Hk Hin) as [n [Hn _]].
      now apply node_at_not_nil in Hn.
    + destruct (forest_located_made_by cms forest ps x Hb Hin)
        as (r & more & Hr & Hsplit & _).
      now exists r, more.
  - intros [Hne (r & more & Hr & Hsplit)].
    destruct (build_inv cms forest Hb) as (tree & E & -> & Hk).
    assert (Hp : present ps tree).
    { now apply (present_after_records cms r ps more [] tree). }
    assert (Hps : Forall (fun part => Js.inherited part = false) ps).
    { apply (proj1 (Forall_forall _ _) Hplain) in Hr. rewrite Hsplit in Hr.
      now apply Forall_app in Hr. }
    destruct (present_node_at ps tree Hp Hne Hps) as [n Hn].
    exists (CodeMap.convert_item n). now apply node_at_forest_located.
Qed.

Lemma forest_places_witness :
  (exists x,
      In (["src"], x)
         (forest_located []
            [ CodeMap.TreeNode "src/app.js0" "src" CodeMap.FolderOutlined
                (Some [ CodeMap.TreeNode "src/app.js1" "app.js"
                          CodeMap.FileOutlined None true
                          (Some (CodeMap.CodeMapRecord "src/app.js" 10)) ])
                false None ]))
  <-> (["src"] <> []
       /\ exists r more,
           In r [CodeMap.CodeMapRecord "src/app.js" 10]
           /\ Js.split "/"%char (CodeMap.file_path r) = ["src"] ++ more).
Proof.
  apply (forest_places_are_the_path_beginnings nat
           [CodeMap.CodeMapRecord "src/app.js" 10]).
  - repeat constructor.
  - reflexivity.
Defined.

(** X4. Clicking a node of the forest: on a node marked as a file the
    selected file becomes the record whose path is the place of the
    node; on a folder the selection stays as it is. *)
Theorem onSelect_shows_the_file_of_the_place
        (Details : Type) (cms : list (CodeMap.codeMap Details))
        (forest : list (CodeMap.treeNode Details))
        (ps : list string) (x : CodeMap.treeNode Details)
        (selectedFile : option (CodeMap.codeMap Details)) :
  CodeMap.buildTreeData cms = Some forest ->
  In (ps, x) (forest_located [] forest) ->
  if CodeMap.tisFile x
  then exists r,
      In r cms
      /\ Js.split "/"%char (CodeMap.file_path r) = ps
      /\ CodeMap.onSelect x selectedFile = Some r
  else CodeMap.onSelect x selectedFile = selectedFile.
Proof.
  intros Hb Hin.
  destruct (forest_located_made_by cms forest ps x Hb Hin)
    as (r & more & Hr & Hsplit & _ & _ & Hf & _ & Hd).
  unfold CodeMap.onSelect, CodeMap.isFile_and_data. rewrite Hd.
  destruct (CodeMap.tisFile x); [|reflexivity].
  destruct more; [|discriminate Hf]. rewrite app_nil_r in Hsplit.
  exists r. auto.
Qed.

Lemma onSelect_witness :
  exists r,
    In r [CodeMap.CodeMapRecord "src/app.js" 10]
    /\ Js.split "/"%char (CodeMap.file_path r) = ["src"; "app.js"]
    /\ CodeMap.onSelect
         (CodeMap.TreeNode "src/app.js1" "app.js" CodeMap.FileOutlined None
                           true (Some (CodeMap.CodeMapRecord "src/app.js" 10)))
         None
       = Some r.
Proof.
  apply (onSelect_shows_the_file_of_the_place nat
           [CodeMap.CodeMapRecord "src/app.js" 10]
           [ CodeMap.TreeNode "src/app.js0" "src" CodeMap.FolderOutlined
               (Some [ CodeMap.TreeNode "src/app.js1" "app.js"
                         CodeMap.FileOutlined None true
                         (Some (CodeMap.CodeMapRecord "src/app.js" 10)) ])
               false None ]
           ["src"; "app.js"]
           (CodeMap.TreeNode "src/app.js1" "app.js" CodeMap.FileOutlined None
                             true (Some (CodeMap.CodeMapRecord "src/app.js" 10)))
           None).
  - reflexivity.
  - cbn. right. left. reflexivity.
Defined.

(** ** Keys *)

Lemma append_one_inj (p q : string) (c d : ascii) :
  (p ++ String c "")%string = (q ++ String d "")%string -> p = q /\ c = d.
Proof.
  revert q. induction p as [|a p IH]; intros [|b q]; cbn.
  - now intros [= ->].
  - intros [= -> H]. destruct q; discriminate H.
  - intros [= -> H]. destruct p; discriminate H.
  - intros [= -> H]. destruct (IH q H) as [-> ->]. now split.
Qed.

(** Below ten the decimal form of a depth is one digit, so a key tells
    the path and the depth apart. *)
Lemma one_digit (i : nat) :
  i <= 9 -> Js.number_to_string i = String (ascii_of_nat (48 + i)) "".
Proof.
  intros H. repeat (destruct i as [|i]; [reflexivity|]). lia.
Qed.

Lemma concat_number_inj (p q : string) (i j : nat) :
  i <= 9 -> j <= 9 ->
  Js.concat_number p i = Js.concat_number q j -> p = q /\ i = j.
Proof.
  intros Hi Hj. unfold Js.concat_number.
  rewrite (one_digit i Hi), (one_digit j Hj). intros H.
  apply append_one_inj in H. destruct H as [-> H]. split; [reflexivity|].
  apply (f_equal nat_of_ascii) in H.
  rewrite !nat_ascii_embedding in H by lia. lia.
Qed.

Lemma NoDup_map_on {A B : Type} (f : A -> B) (l : list A) :
  NoDup l ->
  (forall a b, In a l -> In b l -> f a = f b -> a = b) ->
  NoDup (map f l).
Proof.
  induction l as [|a l IH]; intros Hnd Hinj; [constructor|].
  inversion Hnd as [|? ? Hnotin Hnd']; subst. cbn. constructor.
  - intros Hin. apply in_map_iff in Hin. destruct Hin as [b [Hfb Hb]].
    assert (b = a) by (apply Hinj; [now right|now left|exact Hfb]).
    now subst b.
  - apply IH; [exact Hnd'|]. intros x y Hx Hy. apply Hinj; now right.
Qed.

Lemma app_same_length_inj {A : Type} (l1 l2 m1 m2 : list A) :
  List.length l1 = List.length l2 -> l1 ++ m1 = l2 ++ m2 -> l1 = l2.
Proof.
  revert l2. induction l1 as [|a l1 IH]; intros [|b l2] Hlen H;
    try discriminate Hlen; [reflexivity|].
  cbn in *. injection H as -> H. f_equal. apply IH; [lia|exact H].
Qed.

(** X5. When no path has more than ten segments, no two nodes of the
    forest have the same key. *)
Theorem forest_keys_distinct_up_to_ten_segments
        (Details : Type) (cms : list (CodeMap.codeMap Details))
        (forest : list (CodeMap.treeNode Details)) :
  Forall (fun r =>
            List.length (Js.split "/"%char (CodeMap.file_path r)) <= 10) cms ->
  CodeMap.buildTreeData cms = Some forest ->
  NoDup (map CodeMap.tkey (CodeMap.forest_nodes forest)).
Proof.
  intros Hshort Hb.
  destruct (build_inv cms forest Hb) as (tree & E & -> & Hk).
  rewrite <- (forest_located_nodes _ []), map_map.
  apply (Permutation_NoDup
           (Permutation_sym
              (Permutation_map (fun p => CodeMap.tkey (snd p))
                               (forest_located_convert tree [] Hk)))).
  rewrite map_map. cbn [snd].
  apply NoDup_map_on.
  - apply (NoDup_map_inv fst). now apply object_located_NoDup.
  - intros [ps1 n1] [ps2 n2] H1 H2 Hkey. cbn [snd] in Hkey.
    rewrite !convert_item_eq in Hkey. cbn [CodeMap.tkey] in Hkey.
    destruct (located_node_at tree [] ps1 n1 Hk H1) as [qs1 [-> Hn1]].
    destruct (located_node_at tree [] ps2 n2 Hk H2) as [qs2 [-> Hn2]].
    cbn [app] in *.
    destruct (built_nodes_made_by cms tree qs1 n1 E Hn1)
      as (r1 & more1 & Hr1 & Hs1 & Hk1 & _).
    destruct (built_nodes_made_by cms tree qs2 n2 E Hn2)
      as (r2 & more2 & Hr2 & Hs2 & Hk2 & _).
    pose proof (proj1 (Forall_forall _ _) Hshort r1 Hr1) as Hl1.
    pose proof (proj1 (Forall_forall _ _) Hshort r2 Hr2) as Hl2.
    cbn beta in Hl1, Hl2.
    rewrite Hs1, length_app in Hl1. rewrite Hs2, length_app in Hl2.
    pose proof (node_at_not_nil _ _ _ Hn1) as Hne1.
    pose proof (node_at_not_nil _ _ _ Hn2) as Hne2.
    rewrite Hk1, Hk2 in Hkey.
    apply concat_number_inj in Hkey; [|lia|lia].
    destruct Hkey as [Hpath Hdepth].
    assert (Hlen : List.length qs1 = List.length qs2).
    { destruct qs1; [congruence|]. destruct qs2; [congruence|].
      cbn in *. lia. }
    assert (qs1 = qs2).
    { apply (app_same_length_inj qs1 qs2 more1 more2 Hlen).
      now rewrite <- Hs1, <- Hs2, Hpath. }
    subst qs2. rewrite Hn1 in Hn2. now injection Hn2 as ->.
Qed.

Lemma forest_keys_distinct_witness :
  NoDup (map CodeMap.tkey
           (CodeMap.forest_nodes
              [ CodeMap.TreeNode "src/app.js0" "src" CodeMap.FolderOutlined
                  (Some [ CodeMap.TreeNode "src/app.js1" "app.js"
                            CodeMap.FileOutlined None true
                            (Some (CodeMap.CodeMapRecord "src/app.js" 10)) ])
                  false None ])).
Proof.
  apply (forest_keys_distinct_up_to_ten_segments nat
           [CodeMap.CodeMapRecord "src/app.js" 10]).
  - repeat constructor.
  - reflexivity.
Defined.

(** With eleven segments two nodes can get one key: the root made for
    the path ending in [a1] and the last node of the other path. *)
Example same_key_with_eleven_segments :
  option_map
    (fun forest =>
       List.length
         (filter (fun x => String.eqb (CodeMap.tkey x) "a/a/a/a/a/a/a/a/a/a/a10")
                 (CodeMap.forest_nodes forest)))
    (CodeMap.buildTreeData
       [ CodeMap.CodeMapRecord "a/a/a/a/a/a/a/a/a/a/a1" 1;
         CodeMap.CodeMapRecord "a/a/a/a/a/a/a/a/a/a/a" 2 ])
  = Some 2.
Proof. reflexivity. Qed.

(** ** How many nodes *)

Section Counting.
Context {Details : Type}.
Implicit Types (n m : CodeMap.node Details)
         (o current tree : Js.object (CodeMap.node Details))
         (cm r : CodeMap.codeMap Details)
         (cms : list (CodeMap.codeMap Details)).

Lemma object_nodes_set_new o (k : string) n :
  Js.own o k = None ->
  List.length (CodeMap.object_nodes (Js.set o k n))
  = List.length (CodeMap.object_nodes o)
    + List.length (CodeMap.descendants n).
Proof.
  unfold Js.own, CodeMap.object_nodes.
  induction o as [|[k' n'] o IH]; cbn [find Js.set flat_map fst snd].
  - intros _. rewrite app_nil_r. reflexivity.
  - destruct (String.eqb k' k) eqn:E; [discriminate|].
    intros H. cbn [flat_map snd]. rewrite !length_app, (IH H). lia.
Qed.

Lemma object_nodes_set_old o (k : string) n old :
  Js.own o k = Some old ->
  List.length (CodeMap.object_nodes (Js.set o k n))
  + List.length (CodeMap.descendants old)
  = List.length (CodeMap.object_nodes o)
    + List.length (CodeMap.descendants n).
Proof.
  unfold Js.own, CodeMap.object_nodes.
  induction o as [|[k' n'] o IH]; cbn [find Js.set flat_map fst snd];
    [discriminate|].
  destruct (String.eqb k' k) eqn:E.
  - intros [= ->]. cbn [flat_map snd]. rewrite !length_app. lia.
  - intros H. cbn [flat_map snd]. rewrite !length_app.
    specialize (IH H). lia.
Qed.

(** Walking a path adds at most one node for each of its segments. *)
Lemma walk_count cm len parts :
  forall idx current t',
    CodeMap.walk cm len parts idx current = Some t' ->
    List.length (CodeMap.object_nodes t')
    <= List.length (CodeMap.object_nodes current) + List.length parts.
Proof.
  induction parts as [|part rest IH]; intros idx current t' Hw.
  - injection Hw as <-. lia.
  - apply walk_inv in Hw.
    destruct Hw as [(_ & _ & ->)|(n0 & ch' & Hn0 & Hw & ->)]; [lia|].
    specialize (IH _ _ _ Hw). cbn [List.length].
    assert (Hd : List.length (CodeMap.descendants
                                (CodeMap.with_children n0 ch'))
                 = S (List.length (CodeMap.object_nodes ch'))).
    { now rewrite descendants_eq. }
    destruct Hn0 as [Hr|[Hr ->]].
    + apply read_Own in Hr.
      pose proof (object_nodes_set_old current part
                    (CodeMap.with_children n0 ch') n0 Hr) as Hc.
      rewrite Hd in Hc. rewrite (descendants_eq n0) in Hc.
      cbn [List.length] in Hc. lia.
    + apply read_Undefined in Hr. destruct Hr as [Hr _].
      rewrite (object_nodes_set_new current part _ Hr), Hd.
      cbn in IH. lia.
Qed.

Lemma add_records_count cms :
  forall tree tree',
    CodeMap.add_records cms tree = Some tree' ->
    List.length (CodeMap.object_nodes tree')
    <= List.length (CodeMap.object_nodes tree)
       + list_sum (map (fun r => List.length
                                   (Js.split "/"%char (CodeMap.file_path r)))
                       cms).
Proof.
  induction cms as [|cm cms IH]; intros tree tree' H.
  - injection H as <-. cbn. lia.
  - cbn in H. destruct (CodeMap.add_record tree cm) as [t1|] eqn:E;
      [|discriminate].
    specialize (IH _ _ H). unfold CodeMap.add_record in E.
    apply walk_count in E. cbn [map list_sum fold_right].
    fold (list_sum
            (map (fun r => List.length
                             (Js.split "/"%char (CodeMap.file_path r))) cms)).
    lia.
Qed.

Lemma object_located_nodes_step o :
  Forall (fun e =>
            forall loc,
              map snd (object_located loc (CodeMap.children (snd e)))
              = CodeMap.object_nodes (CodeMap.children (snd e))) o ->
  forall done, map snd (object_located done o) = CodeMap.object_nodes o.
Proof.
  intros IH done. unfold object_located at 1, CodeMap.object_nodes at 1.
  induction o as [|e o IHo]; [reflexivity|].
  inversion IH as [|? ? He Hrest]; subst. cbn [flat_map].
  rewrite map_app, (IHo Hrest), located_below_eq, descendants_eq.
  cbn [map snd]. now rewrite He.
Qed.

Lemma object_located_nodes o done :
  map snd (object_located done o) = CodeMap.object_nodes o.
Proof.
  apply object_located_nodes_step.
  apply Forall_forall. intros e _. generalize (snd e). clear.
  induction n as [k ti i ch f d IH] using node_induction.
  intros loc. cbn [CodeMap.children]. now apply object_located_nodes_step.
Qed.

Lemma forest_nodes_count tree :
  all_keyed tree ->
  List.length (CodeMap.forest_nodes (CodeMap.convertToArray tree))
  = List.length (CodeMap.object_nodes tree).
Proof.
  intros Hk. rewrite <- (forest_located_nodes _ []), length_map.
  rewrite (Permutation_length (forest_located_convert tree [] Hk)).
  rewrite length_map, <- (object_located_nodes tree []). now rewrite length_map.
Qed.

End Counting.

(** X6. The forest has at most as many nodes as the paths have
    segments in all. *)
Theorem forest_has_at_most_one_node_per_segment
        (Details : Type) (cms : list (CodeMap.codeMap Details))
        (forest : list (CodeMap.treeNode Details)) :
  CodeMap.buildTreeData cms = Some forest ->
  List.length (CodeMap.forest_nodes forest)
  <= list_sum (map (fun r => List.length
                                (Js.split "/"%char (CodeMap.file_path r)))
                   cms).
Proof.
  intros Hb. destruct (build_inv cms forest Hb) as (tree & E & -> & Hk).
  rewrite (forest_nodes_count tree Hk).
  apply add_records_count in E. cbn in E. exact E.
Qed.

Lemma forest_node_count_witness :
  List.length
    (CodeMap.forest_nodes
       [ CodeMap.TreeNode "src/app.js0" "src" CodeMap.FolderOutlined
           (Some [ CodeMap.TreeNode "src/app.js1" "app.js"
                     CodeMap.FileOutlined None true
                     (Some (CodeMap.CodeMapRecord "src/app.js" 10));
                   CodeMap.TreeNode "src/b.js1" "b.js"
                     CodeMap.FileOutlined None true
                     (Some (CodeMap.CodeMapRecord "src/b.js" 5)) ])
           false None ])
  <= 4.
Proof.
  apply (forest_has_at_most_one_node_per_segment nat
           [CodeMap.CodeMapRecord "src/app.js" 10;
            CodeMap.CodeMapRecord "src/b.js" 5]).
  reflexivity.
Defined.

(** X7. A record whose path no other record continues or repeats has
    its own node in the forest, at the place its path names, marked as a
    file and carrying the record. *)
Theorem unshadowed_record_has_its_file_node
        (Details : Type) (cms : list (CodeMap.codeMap Details))
        (forest : list (CodeMap.treeNode Details))
        (r : CodeMap.codeMap Details) :
  In r cms ->
  Forall (fun part => Js.inherited part = false)
         (Js.split "/"%char (CodeMap.file_path r)) ->
  (forall r' more,
      In r' cms ->
      Js.split "/"%char (CodeMap.file_path r')
      = Js.split "/"%char (CodeMap.file_path r) ++ more ->
      r' = r) ->
  CodeMap.buildTreeData cms = Some forest ->
  exists x,
    In (Js.split "/"%char (CodeMap.file_path r), x) (forest_located [] forest)
    /\ CodeMap.tisFile x = true
    /\ CodeMap.tdata x = Some r
    /\ CodeMap.tkey x
       = Js.concat_number
           (CodeMap.file_path r)
           (List.length (Js.split "/"%char (CodeMap.file_path r)) - 1).
Proof.
  intros Hr Hplain Hown Hb.
  destruct (build_inv cms forest Hb) as (tree & E & -> & Hk).
  assert (Hp : present (Js.split "/"%char (CodeMap.file_path r)) tree).
  { apply (present_after_records cms r _ [] [] tree Hr); [|exact E].
    now rewrite app_nil_r. }
  destruct (present_node_at _ tree Hp (split_not_empty _ _) Hplain)
    as [n Hn].
  exists (CodeMap.convert_item n). split; [now apply node_at_forest_located|].
  destruct (built_nodes_made_by cms tree _ n E Hn)
    as (r' & more & Hr' & Hsplit & Hkey & _ & Hf & _ & Hd).
  pose proof (Hown r' more Hr' Hsplit) as ->.
  assert (more = []) as ->.
  { rewrite <- (app_nil_r (Js.split "/"%char (CodeMap.file_path r)))
      in Hsplit at 1.
    apply app_inv_head in Hsplit. now symmetry. }
  rewrite convert_item_eq. cbn. rewrite Hd, Hf. auto.
Qed.

Lemma unshadowed_record_witness :
  exists x,
    In (Js.split "/"%char "src/b.js", x)
       (forest_located []
          [ CodeMap.TreeNode "src/b.js0" "src" CodeMap.FolderOutlined
              (Some [ CodeMap.TreeNode "src/b.js1" "b.js"
                        CodeMap.FileOutlined None true
                        (Some (CodeMap.CodeMapRecord "src/b.js" 5)) ])
              false None ])
    /\ CodeMap.tisFile x = true
    /\ CodeMap.tdata x = Some (CodeMap.CodeMapRecord "src/b.js" 5)
    /\ CodeMap.tkey x = "src/b.js1".
Proof.
  apply (unshadowed_record_has_its_file_node nat
           [CodeMap.CodeMapRecord "src/b.js" 5]
           [ CodeMap.TreeNode "src/b.js0" "src" CodeMap.FolderOutlined
               (Some [ CodeMap.TreeNode "src/b.js1" "b.js"
                         CodeMap.FileOutlined None true
                         (Some (CodeMap.CodeMapRecord "src/b.js" 5)) ])
               false None ]
           (CodeMap.CodeMapRecord "src/b.js" 5)).
  - simpl. left. reflexivity.
  - repeat constructor.
  - intros r' more [<-|[]] _. reflexivity.
  - reflexivity.
Defined.

(** * Further properties of the polling pages *)

Section PollingInvariants.
Context {State Data Captured Error : Type}.
Variables (initial : State) (capture : State -> Captured)
          (gate : Captured -> bool) (on_call : State -> State)
          (on_fulfilled : Data -> State -> State)
          (on_finally : State -> State) (has_reload : bool).

Local Abbreviation step :=
  (Polling.step State Data Captured Error initial capture gate
                on_call on_fulfilled on_finally has_reload).
Local Abbreviation run :=
  (Polling.run State Data Captured Error initial capture gate
               on_call on_fulfilled on_finally has_reload).

Lemma run_keeps (I : Polling.world State Captured Error -> Prop)
      (allowed : Polling.event Data Error -> Prop) :
  (forall w e, allowed e -> I w -> I (step w e)) ->
  forall trace w, Forall allowed trace -> I w -> I (run w trace).
Proof.
  intros Hstep. induction trace as [|e trace IH]; intros w Hall Hw;
    [exact Hw|].
  inversion Hall as [|? ? He Hrest]; subst. cbn.
  apply IH; [exact Hrest|]. now apply Hstep.
Qed.

(** While the component is mounted exactly one interval is live, the
    one its cleanup holds; otherwise none is. *)
Lemma one_interval_step (w : Polling.world State Captured Error)
      (e : Polling.event Data Error) :
  match Polling.life w with
  | Polling.Mounted =>
      exists id c, Polling.timers w = [(id, c)]
                   /\ Polling.cleanup w = Some id
  | _ => Polling.timers w = [] /\ Polling.cleanup w = None
  end ->
  match Polling.life (step w e) with
  | Polling.Mounted =>
      exists id c, Polling.timers (step w e) = [(id, c)]
                   /\ Polling.cleanup (step w e) = Some id
  | _ => Polling.timers (step w e) = []
         /\ Polling.cleanup (step w e) = None
  end.
Proof.
  destruct w as [v m ts cl nt pe ca co]. cbn.
  destruct e as [| | |tid|k o|]; cbn.
  - destruct m; cbn; auto. intros [-> ->]. cbn. eauto.
  - destruct m; cbn; auto. intros (id & c & -> & ->). cbn.
    rewrite Nat.eqb_refl. cbn. eauto.
  - destruct m; cbn; auto. intros (id & c & -> & ->). cbn.
    rewrite Nat.eqb_refl. cbn. auto.
  - destruct (find _ ts) as [[i c]|]; [|auto].
    destruct (gate c); [|auto]. destruct m; cbn; auto.
  - unfold Polling.loadData_resume. cbn.
    destruct (existsb (Nat.eqb k) pe); [|auto].
    destruct o; destruct m; cbn; auto.
  - destruct has_reload; cbn; [|auto]. destruct m; cbn; auto.
Qed.

Lemma one_interval_run (trace : list (Polling.event Data Error)) :
  let w := run (Polling.start State Captured Error initial) trace in
  match Polling.life w with
  | Polling.Mounted =>
      exists id c, Polling.timers w = [(id, c)]
                   /\ Polling.cleanup w = Some id
  | _ => Polling.timers w = [] /\ Polling.cleanup w = None
  end.
Proof.
  apply (run_keeps
           (fun w =>
              match Polling.life w with
              | Polling.Mounted =>
                  exists id c, Polling.timers w = [(id, c)]
                               /\ Polling.cleanup w = Some id
              | _ => Polling.timers w = [] /\ Polling.cleanup w = None
              end) (fun _ => True)).
  - intros w e _. apply one_interval_step.
  - clear. induction trace; constructor; auto.
  - cbn. auto.
Qed.

(** Events other than an unmount or an id change leave the intervals
    of a mounted component as they are. *)
Lemma timers_kept_step (w : Polling.world State Captured Error)
      (e : Polling.event Data Error) :
  e <> Polling.Unmount /\ e <> Polling.IdChange ->
  Polling.mounted w = true ->
  Polling.timers (step w e) = Polling.timers w
  /\ Polling.mounted (step w e) = true.
Proof.
  intros [Hu Hi] Hm. destruct w as [v m ts cl nt pe ca co].
  unfold Polling.mounted in *. cbn in Hm.
  destruct m; try discriminate Hm.
  destruct e as [| | |tid|k o|]; cbn; try congruence; auto.
  - destruct (find _ ts) as [[i c]|]; [|auto]. destruct (gate c); auto.
  - unfold Polling.loadData_resume. cbn.
    destruct (existsb (Nat.eqb k) pe); [|auto]. destruct o; auto.
  - destruct has_reload; auto.
Qed.

Lemma timers_kept_run (trace : list (Polling.event Data Error))
      (w : Polling.world State Captured Error) :
  Forall (fun e => e <> Polling.Unmount /\ e <> Polling.IdChange) trace ->
  Polling.mounted w = true ->
  Polling.timers (run w trace) = Polling.timers w
  /\ Polling.mounted (run w trace) = true.
Proof.
  intros Hall Hm.
  apply (run_keeps
           (fun w' => Polling.timers w' = Polling.timers w
                      /\ Polling.mounted w' = true)
           (fun e => e <> Polling.Unmount /\ e <> Polling.IdChange));
    auto.
  intros w' e He [Ht Hm']. destruct (timers_kept_step w' e He Hm') as [H1 H2].
  split; [congruence|exact H2].
Qed.

Lemma loadData_calls (w : Polling.world State Captured Error) :
  Polling.calls (Polling.loadData State Captured Error on_call w)
  = S (Polling.calls w).
Proof.
  destruct w as [v m ts cl nt pe ca co].
  unfold Polling.loadData, Polling.set_state, Polling.mounted. cbn.
  destruct m; reflexivity.
Qed.

(** A property of the state that [loadData] keeps is kept by every
    event of a component that has been mounted. *)
Lemma view_keeps_step (P : State -> Prop) :
  (forall s, P s -> P (on_call s)) ->
  (forall d s, P s -> P (on_fulfilled d s)) ->
  (forall s, P s -> P (on_finally s)) ->
  forall w e,
    Polling.life w <> Polling.NotMounted /\ P (Polling.view w) ->
    Polling.life (step w e) <> Polling.NotMounted
    /\ P (Polling.view (step w e)).
Proof.
  intros Hc Hf Hfin w e [Hl HP].
  destruct w as [v m ts cl nt pe ca co]. cbn in Hl, HP.
  destruct e as [| | |tid|k o|]; cbn.
  - destruct m; cbn; auto. congruence.
  - destruct m; cbn; auto. destruct cl; cbn; split; auto; discriminate.
  - destruct m; cbn; auto. destruct cl; cbn; split; auto; discriminate.
  - destruct (find _ ts) as [[i c]|]; [|auto].
    destruct (gate c); [|auto]. destruct m; cbn; auto.
  - unfold Polling.loadData_resume. cbn.
    destruct (existsb (Nat.eqb k) pe); [|auto].
    destruct o; destruct m; cbn; auto.
  - destruct has_reload; cbn; [|auto]. destruct m; cbn; auto.
Qed.

Lemma view_keeps (P : State -> Prop) :
  (forall s, P s -> P (on_call s)) ->
  (forall d s, P s -> P (on_fulfilled d s)) ->
  (forall s, P s -> P (on_finally s)) ->
  forall trace w,
    Polling.mounted w = true -> P (Polling.view w) ->
    P (Polling.view (run w trace)).
Proof.
  intros Hc Hf Hfin trace w Hm HP.
  assert (H : Polling.life (run w trace) <> Polling.NotMounted
              /\ P (Polling.view (run w trace))); [|apply H].
  apply (run_keeps
           (fun w' => Polling.life w' <> Polling.NotMounted
                      /\ P (Polling.view w')) (fun _ => True)).
  - intros w' e _. now apply view_keeps_step.
  - clear. induction trace; constructor; auto.
  - split; [|exact HP]. unfold Polling.mounted in Hm.
    destruct (Polling.life w); congruence.
Qed.

(** Events other than an unmount or an id change leave the one
    interval of a mounted component and its cleanup as they are, and
    give an unmounted component no interval. *)
Lemma interval_kept_step (id : nat) (c : Captured)
      (w : Polling.world State Captured Error)
      (e : Polling.event Data Error) :
  e <> Polling.IdChange ->
  (Polling.life w = Polling.Mounted
   /\ Polling.timers w = [(id, c)] /\ Polling.cleanup w = Some id)
  \/ (Polling.life w = Polling.Unmounted /\ Polling.timers w = []) ->
  (Polling.life (step w e) = Polling.Mounted
   /\ Polling.timers (step w e) = [(id, c)]
   /\ Polling.cleanup (step w e) = Some id)
  \/ (Polling.life (step w e) = Polling.Unmounted
      /\ Polling.timers (step w e) = []).
Proof.
  intros Hi H. destruct w as [v m ts cl nt pe ca co]. cbn in H.
  destruct H as [(-> & -> & ->)|(-> & ->)].
  - destruct e as [| | |tid|k o|]; cbn; try congruence; auto.
    + rewrite Nat.eqb_refl. cbn. auto.
    + destruct (Nat.eqb id tid); cbn; [|auto]. destruct (gate c); cbn; auto.
    + unfold Polling.loadData_resume. cbn.
      destruct (existsb (Nat.eqb k) pe); [|auto]. destruct o; cbn; auto.
    + destruct has_reload; cbn; auto.
  - destruct e as [| | |tid|k o|]; cbn; try congruence; auto.
    + unfold Polling.loadData_resume. cbn.
      destruct (existsb (Nat.eqb k) pe); [|auto]. destruct o; cbn; auto.
    + destruct has_reload; cbn; auto.
Qed.

End PollingInvariants.

Section CodeMapInvariants.
Context {Details Summary Error : Type}.

Local Abbreviation cm_world := (@CodeMap.world Details Summary Error).
Local Abbreviation cm_response := (@CodeMap.response Details Summary).

Lemma Forall_any {A : Type} (l : list A) : Forall (fun _ => True) l.
Proof. induction l; constructor; auto. Qed.

Lemma cm_one_interval_run (trace : list (Polling.event cm_response Error)) :
  let w := CodeMap.run (@CodeMap.start Details Summary Error) trace in
  match Polling.life w with
  | Polling.Mounted =>
      exists id c, Polling.timers w = [(id, c)]
                   /\ Polling.cleanup w = Some id
  | _ => Polling.timers w = [] /\ Polling.cleanup w = None
  end.
Proof.
  apply (cm_run_keeps
           (fun w : cm_world =>
              match Polling.life w with
              | Polling.Mounted =>
                  exists id c, Polling.timers w = [(id, c)]
                               /\ Polling.cleanup w = Some id
              | _ => Polling.timers w = [] /\ Polling.cleanup w = None
              end) (fun _ => True)).
  - intros w e _. apply one_interval_step.
  - intros w. apply one_interval_step.
  - apply Forall_any.
  - cbn. auto.
Qed.

Lemma cm_view_keeps (P : @CodeMap.state Details Summary -> Prop) :
  (forall b s, P s -> P (CodeMap.setLoading b s)) ->
  (forall d s, P s -> P (CodeMap.loadData_fulfilled d s)) ->
  forall (trace : list (Polling.event cm_response Error)) (w : cm_world),
    Polling.mounted w = true -> P (Polling.view w) ->
    P (Polling.view (CodeMap.run w trace)).
Proof.
  intros Hl Hf trace w Hm HP.
  assert (H : Polling.life (CodeMap.run w trace) <> Polling.NotMounted
              /\ P (Polling.view (CodeMap.run w trace))); [|apply H].
  apply (cm_run_keeps
           (fun w' : cm_world =>
              Polling.life w' <> Polling.NotMounted
              /\ P (Polling.view w')) (fun _ => True)).
  - intros w' e _. apply view_keeps_step; auto.
  - intros w'. apply view_keeps_step; auto.
  - apply Forall_any.
  - split; [|exact HP]. unfold Polling.mounted in Hm.
    destruct (Polling.life w); congruence.
Qed.

(** Without an id change the page keeps the interval it has until it
    goes away. *)
Lemma cm_interval_kept_run (id : nat) (c : option project)
      (trace : list (Polling.event cm_response Error)) (w : cm_world) :
  Forall (fun e => e <> Polling.Unmount /\ e <> Polling.IdChange) trace ->
  (Polling.life w = Polling.Mounted
   /\ Polling.timers w = [(id, c)] /\ Polling.cleanup w = Some id)
  \/ (Polling.life w = Polling.Unmounted /\ Polling.timers w = []) ->
  let w' := CodeMap.run w trace in
  (Polling.life w' = Polling.Mounted
   /\ Polling.timers w' = [(id, c)] /\ Polling.cleanup w' = Some id)
  \/ (Polling.life w' = Polling.Unmounted /\ Polling.timers w' = []).
Proof.
  intros Hall Hw.
  apply (cm_run_keeps
           (fun w' : cm_world =>
              (Polling.life w' = Polling.Mounted
               /\ Polling.timers w' = [(id, c)]
               /\ Polling.cleanup w' = Some id)
              \/ (Polling.life w' = Polling.Unmounted
                  /\ Polling.timers w' = []))
           (fun e => e <> Polling.Unmount /\ e <> Polling.IdChange));
    auto.
  - intros w' e [_ Hi]. now apply interval_kept_step.
  - intros w'. apply interval_kept_step. discriminate.
Qed.

(** A tick of an interval that is not live, or whose condition does
    not hold, changes nothing. *)
Lemma cm_idle_tick (id : nat) (w : cm_world) :
  Polling.mounted w && CodeMap.render_throws (Polling.view w) = false ->
  (forall c, Polling.timers w = [(id, c)] ->
             CodeMap.interval_gate c = false) ->
  (exists c, Polling.timers w = [(id, c)]) \/ Polling.timers w = [] ->
  CodeMap.step w (Polling.Tick id) = w.
Proof.
  intros Hr Hg Ht. unfold CodeMap.step.
  replace (CodeMap.poll w (Polling.Tick id)) with w;
    [now apply cm_rerender_id|].
  unfold CodeMap.poll, Polling.step.
  destruct Ht as [[c Ht]| Ht]; rewrite Ht; [|reflexivity].
  cbn [find fst]. rewrite Nat.eqb_refl. now rewrite (Hg c Ht).
Qed.

(** The state in which a change of [projectId] leaves a mounted page
    that had one interval. *)
Lemma cm_after_IdChange (w0 : cm_world) (id0 : nat) (c0 : option project) :
  Polling.life w0 = Polling.Mounted ->
  Polling.timers w0 = [(id0, c0)] -> Polling.cleanup w0 = Some id0 ->
  let w1 := CodeMap.step w0 Polling.IdChange in
  (Polling.life w1 = Polling.Mounted
   /\ Polling.timers w1
      = [(Polling.next_timer w0, CodeMap.project_state (Polling.view w0))]
   /\ Polling.cleanup w1 = Some (Polling.next_timer w0))
  \/ (Polling.life w1 = Polling.Unmounted /\ Polling.timers w1 = []).
Proof.
  intros Hl Hts Hcl w1. subst w1. unfold CodeMap.step.
  assert (Hp : let w1 := CodeMap.poll w0 Polling.IdChange in
               Polling.life w1 = Polling.Mounted
               /\ Polling.timers w1
                  = [(Polling.next_timer w0,
                      CodeMap.project_state (Polling.view w0))]
               /\ Polling.cleanup w1 = Some (Polling.next_timer w0)).
  { destruct w0 as [v m ts cl nt pe ca co]. cbn in Hl, Hts, Hcl.
    subst m ts cl. cbn. rewrite Nat.eqb_refl. cbn. auto. }
  cbv zeta in Hp.
  destruct (cm_rerender_cases (CodeMap.poll w0 Polling.IdChange))
    as [[_ ->]|(Hm & _ & ->)]; [now left|right].
  destruct (cm_unmount_mounted _ Hm) as (Hl' & Ht' & _).
  destruct Hp as (_ & Hts1 & Hcl1). rewrite Hcl1, Hts1 in Ht'.
  cbn in Ht'. rewrite Nat.eqb_refl in Ht'. auto.
Qed.

End CodeMapInvariants.

(** X8. On both polling pages, however the events fall, exactly one
    interval is live while the component is mounted (the one the effect
    cleanup holds), and none is live before the mount or after the
    unmount: no interval is leaked. *)
Theorem mounted_page_has_exactly_one_interval
        (Requirement Task Details Summary Error : Type) :
  (forall trace : list (Polling.event AgentWorkflow.response Error),
      let w := AgentWorkflow.run
                 (@AgentWorkflow.start Requirement Task Error) trace in
      if Polling.mounted w
      then exists id c, Polling.timers w = [(id, c)]
                        /\ Polling.cleanup w = Some id
      else Polling.timers w = [] /\ Polling.cleanup w = None)
  /\
  (forall trace : list (Polling.event CodeMap.response Error),
      let w := CodeMap.run (@CodeMap.start Details Summary Error) trace in
      if Polling.mounted w
      then exists id c, Polling.timers w = [(id, c)]
                        /\ Polling.cleanup w = Some id
      else Polling.timers w = [] /\ Polling.cleanup w = None).
Proof.
  split; intros trace w; subst w; unfold Polling.mounted.
  - pose proof (one_interval_run AgentWorkflow.initial (fun _ => tt)
                  (fun _ => true) (fun s => s)
                  AgentWorkflow.loadData_fulfilled
                  (AgentWorkflow.setLoading false) false trace) as H.
    cbv zeta in H. unfold Polling.run in H.
    unfold AgentWorkflow.run, AgentWorkflow.start.
    destruct (Polling.life _); exact H.
  - pose proof (cm_one_interval_run (Details:=Details) (Summary:=Summary)
                  (Error:=Error) trace) as H.
    cbv zeta in H.
    destruct (Polling.life _); exact H.
Qed.

(** X9. Once a page shows data it keeps showing data: whatever events
    follow (failed calls, ticks, reloads, a change of id, the unmount),
    the requirement of the agent workflow page and the project of the
    code map page are never set back to [null], and the spinner that
    replaces the page never comes back. *)
Theorem loaded_data_is_never_blanked
        (Requirement Task Details Summary Error : Type) :
  (forall (w : @AgentWorkflow.world Requirement Task Error)
          (trace : list (Polling.event AgentWorkflow.response Error)),
      Polling.mounted w = true ->
      AgentWorkflow.requirement (Polling.view w) <> None ->
      let s := Polling.view (AgentWorkflow.run w trace) in
      AgentWorkflow.requirement s <> None
      /\ AgentWorkflow.shows_spinner s = false)
  /\
  (forall (w : @CodeMap.world Details Summary Error)
          (trace : list (Polling.event CodeMap.response Error)),
      Polling.mounted w = true ->
      CodeMap.project_state (Polling.view w) <> None ->
      let s := Polling.view (CodeMap.run w trace) in
      CodeMap.project_state s <> None
      /\ CodeMap.shows_spinner s = false).
Proof.
  split; intros w trace Hm Hdata s.
  - assert (H : AgentWorkflow.requirement s <> None).
    { apply (view_keeps AgentWorkflow.initial (fun _ => tt)
               (fun _ => true) (fun s => s) AgentWorkflow.loadData_fulfilled
               (AgentWorkflow.setLoading false) false
               (fun s => AgentWorkflow.requirement s <> None)); auto.
      intros d s0 _. discriminate. }
    split; [exact H|]. unfold AgentWorkflow.shows_spinner.
    destruct (AgentWorkflow.requirement s); [apply andb_false_r|congruence].
  - assert (H : CodeMap.project_state s <> None).
    { apply (cm_view_keeps (fun s => CodeMap.project_state s <> None));
        auto.
      intros d s0 _. discriminate. }
    split; [exact H|]. unfold CodeMap.shows_spinner.
    destruct (CodeMap.project_state s); [apply andb_false_r|congruence].
Qed.

Lemma loaded_data_witness :
  AgentWorkflow.shows_spinner
    (Polling.view
       (AgentWorkflow.run
          (AgentWorkflow.run (Requirement:=string) (Task:=string)
             (Error:=string) AgentWorkflow.start
             [Polling.Mount;
              Polling.Settle 0
                (Polling.Fulfilled (AgentWorkflow.Response "r" []))])
          [Polling.Tick 0; Polling.Settle 1 (Polling.Rejected "down")]))
  = false.
Proof.
  apply (proj1 (loaded_data_is_never_blanked string string nat nat string)
           (AgentWorkflow.run AgentWorkflow.start
              [Polling.Mount;
               Polling.Settle 0
                 (Polling.Fulfilled (AgentWorkflow.Response "r" []))])
           [Polling.Tick 0; Polling.Settle 1 (Polling.Rejected "down")]).
  - reflexivity.
  - discriminate.
Defined.

(** The interval set up after a change of [projectId] while an
    [analyzing] project was shown calls [loadData] at its tick, though
    the project has been [completed] since; the interval set up while a
    [completed] project was shown calls nothing. *)
Example interval_after_id_change :
  Polling.calls
    (CodeMap.run (Details:=nat) (Summary:=nat) (Error:=string)
       CodeMap.start
       [Polling.Mount;
        Polling.Settle 0
          (Polling.Fulfilled
             (CodeMap.Response (Project "demo" "analyzing") [] 0));
        Polling.IdChange;
        Polling.Settle 1
          (Polling.Fulfilled
             (CodeMap.Response (Project "demo" "completed") [] 0));
        Polling.Tick 1])
  = 3
  /\ Polling.calls
       (CodeMap.run (Details:=nat) (Summary:=nat) (Error:=string)
          CodeMap.start
          [Polling.Mount;
           Polling.Settle 0
             (Polling.Fulfilled
                (CodeMap.Response (Project "demo" "completed") [] 0));
           Polling.IdChange;
           Polling.Tick 1])
     = 2.
Proof. split; reflexivity. Qed.

(** X10. The interval callback of the code map page decides with the
    project of the render in which its effect ran. The interval of the
    mount never calls [loadData], whatever the snapshots say. At a tick
    of the interval set up after a change of [projectId], a page that
    is still rendered calls [loadData] once more when the project shown
    at that change had the status [analyzing]; when no project was shown
    then, or one with another status, the tick changes nothing; and
    once a render has thrown and the page is gone the tick changes
    nothing either. *)
Theorem codemap_interval_decides_with_project_of_its_effect
        (Details Summary Error : Type) :
  (forall trace : list (Polling.event CodeMap.response Error),
      Forall (fun e => e <> Polling.Unmount /\ e <> Polling.IdChange) trace ->
      let w := CodeMap.run
                 (CodeMap.step (@CodeMap.start Details Summary Error)
                               Polling.Mount) trace in
      CodeMap.step w (Polling.Tick 0) = w)
  /\
  (forall trace0 trace : list (Polling.event CodeMap.response Error),
      let w0 := CodeMap.run (@CodeMap.start Details Summary Error) trace0 in
      let w := CodeMap.run (CodeMap.step w0 Polling.IdChange) trace in
      let ticked := CodeMap.step w (Polling.Tick (Polling.next_timer w0)) in
      Polling.mounted w0 = true ->
      Forall (fun e => e <> Polling.Unmount /\ e <> Polling.IdChange) trace ->
      (Polling.mounted w = true ->
       forall p, CodeMap.project_state (Polling.view w0) = Some p ->
                 status p = "analyzing" ->
                 Polling.calls ticked = S (Polling.calls w)
                 /\ Polling.pending ticked
                    = Polling.pending w ++ [Polling.calls w])
      /\ ((forall p, CodeMap.project_state (Polling.view w0) = Some p ->
                     status p <> "analyzing") ->
          ticked = w)
      /\ (Polling.mounted w = false -> ticked = w)).
Proof.
  split.
  - intros trace Hall w.
    assert (Hr : Polling.mounted w
                 && CodeMap.render_throws (Polling.view w) = false).
    { apply cm_run_settled. apply cm_rerender_settled. }
    destruct (cm_interval_kept_run 0 None trace
                (CodeMap.step CodeMap.start Polling.Mount) Hall)
      as [(_ & Ht & _)|(_ & Ht)]; [left; repeat split| |];
      fold w in Ht.
    + apply cm_idle_tick; [exact Hr| |left; now exists None].
      intros c Hc. rewrite Ht in Hc. now injection Hc as <-.
    + apply cm_idle_tick; [exact Hr| |now right].
      intros c Hc. rewrite Ht in Hc. discriminate Hc.
  - intros trace0 trace w0 w ticked Hm Hall.
    pose proof (cm_one_interval_run (Details:=Details) (Summary:=Summary)
                  (Error:=Error) trace0) as Hone.
    cbv zeta in Hone. fold w0 in Hone.
    unfold Polling.mounted in Hm.
    destruct (Polling.life w0) eqn:Hl; try discriminate Hm.
    destruct Hone as (id0 & c0 & Hts & Hcl).
    pose proof (cm_interval_kept_run _ _ trace _ Hall
                  (cm_after_IdChange w0 id0 c0 Hl Hts Hcl)) as Hw.
    cbv zeta in Hw. fold w in Hw.
    assert (Hr : Polling.mounted w
                 && CodeMap.render_throws (Polling.view w) = false).
    { apply cm_run_settled. apply cm_rerender_settled. }
    split; [|split].
    + intros Hmw p Hp Hst.
      destruct Hw as [(_ & Ht & _)|(Hlw & _)];
        [|unfold Polling.mounted in Hmw; rewrite Hlw in Hmw;
          discriminate Hmw].
      subst ticked. unfold CodeMap.step.
      destruct (cm_rerender_keeps
                  (CodeMap.poll w (Polling.Tick (Polling.next_timer w0))))
        as (_ & -> & -> & _).
      destruct (tick_calls_loadData CodeMap.initial CodeMap.project_state
                  CodeMap.interval_gate (CodeMap.setLoading true)
                  CodeMap.loadData_fulfilled (CodeMap.setLoading false)
                  true (Polling.next_timer w0)
                  (CodeMap.project_state (Polling.view w0)) w)
        as (Hc & Hpe & _).
      * rewrite Ht. cbn [find fst]. now rewrite Nat.eqb_refl.
      * rewrite Hp. cbn. rewrite Hst. reflexivity.
      * split; [exact Hc|exact Hpe].
    + intros Hst. subst ticked.
      apply cm_idle_tick; [exact Hr| |].
      * intros c Hc.
        destruct Hw as [(_ & Ht & _)|(_ & Ht)]; rewrite Ht in Hc;
          [|discriminate Hc].
        injection Hc as <-.
        destruct (CodeMap.project_state (Polling.view w0)) as [p|] eqn:Hp;
          [|reflexivity].
        cbn. apply String.eqb_neq. now apply Hst.
      * destruct Hw as [(_ & Ht & _)|(_ & Ht)]; [left|right]; eauto.
    + intros Hmw. subst ticked.
      destruct Hw as [(Hlw & _)|(_ & Ht)];
        [unfold Polling.mounted in Hmw; rewrite Hlw in Hmw;
         discriminate Hmw|].
      apply cm_idle_tick; [exact Hr| |now right].
      intros c Hc. rewrite Ht in Hc. discriminate Hc.
Qed.

Lemma codemap_interval_witness :
  Polling.calls
    (CodeMap.step
       (CodeMap.run
          (CodeMap.step
             (CodeMap.run (@CodeMap.start nat nat string)
                [Polling.Mount;
                 Polling.Settle 0
                   (Polling.Fulfilled
                      (CodeMap.Response (Project "demo" "analyzing") [] 0))])
             Polling.IdChange)
          [Polling.Settle 1
             (Polling.Fulfilled
                (CodeMap.Response (Project "demo" "completed") [] 0))])
       (Polling.Tick 1))
  = 3.
Proof.
  pose proof (proj2 (codemap_interval_decides_with_project_of_its_effect
                       nat nat string)
                [Polling.Mount;
                 Polling.Settle 0
                   (Polling.Fulfilled
                      (CodeMap.Response (Project "demo" "analyzing") [] 0))]
                [Polling.Settle 1
                   (Polling.Fulfilled
                      (CodeMap.Response (Project "demo" "completed") [] 0))])
    as H.
  cbv zeta in H.
  assert (Hall : Forall
                   (fun e : Polling.event (@CodeMap.response nat nat) string =>
                      e <> Polling.Unmount /\ e <> Polling.IdChange)
                   [Polling.Settle 1
                      (Polling.Fulfilled
                         (CodeMap.Response (Project "demo" "completed")
                                           [] 0))]).
  { repeat constructor; discriminate. }
  destruct (H eq_refl Hall) as (H1 & _ & _).
  exact (proj1 (H1 eq_refl (Project "demo" "analyzing") eq_refl eq_refl)).
Defined.

(** * Further properties of the dashboard *)

Lemma dashboard_step_keeps_stats (Error : Type) (s : @Dashboard.state Error)
      (e : Dashboard.event) :
  Dashboard.stats s = Dashboard.statsData (Dashboard.projects s) ->
  Dashboard.stats (Dashboard.step s e)
  = Dashboard.statsData (Dashboard.projects (Dashboard.step s e)).
Proof.
  intros H. destruct e as [|[projectsData|err]]; cbn; auto.
Qed.

(** X11. Whatever calls of [loadProjects] are made and however they
    end, the counters on the dashboard are those of the list it shows:
    [total] is its length, and the three status counters are the counts
    of that list and add up to at most [total]. *)
Theorem dashboard_counters_follow_the_list
        (Error : Type) (trace : list (@Dashboard.event Error)) :
  let s := Dashboard.run Dashboard.initial trace in
  Dashboard.stats s = Dashboard.statsData (Dashboard.projects s)
  /\ Dashboard.total (Dashboard.stats s) = List.length (Dashboard.projects s)
  /\ Dashboard.completed (Dashboard.stats s)
     + Dashboard.analyzing (Dashboard.stats s)
     + Dashboard.pending (Dashboard.stats s)
     <= Dashboard.total (Dashboard.stats s).
Proof.
  intros s.
  assert (H : Dashboard.stats s
              = Dashboard.statsData (Dashboard.projects s)).
  { subst s. unfold Dashboard.run.
    assert (Hgen : forall s0 : @Dashboard.state Error,
               Dashboard.stats s0
               = Dashboard.statsData (Dashboard.projects s0) ->
               Dashboard.stats (fold_left Dashboard.step trace s0)
               = Dashboard.statsData
                   (Dashboard.projects (fold_left Dashboard.step trace s0))).
    { induction trace as [|e trace IH]; intros s0 H0; [exact H0|].
      cbn. apply IH. now apply dashboard_step_keeps_stats. }
    apply Hgen. reflexivity. }
  split; [exact H|]. rewrite H. cbn. split; [reflexivity|].
  pose proof (count_three_and_rest status "completed" "analyzing" "pending"
                (Dashboard.projects s)) as Hc.
  unfold count_label in Hc. unfold Dashboard.count_status.
  assert ("completed" <> "analyzing") by discriminate.
  assert ("completed" <> "pending") by discriminate.
  assert ("analyzing" <> "pending") by discriminate.
  specialize (Hc H0 H1 H2). lia.
Qed.

(** * The order of the children *)

Section Order.
Context {Details : Type}.
Implicit Types (n m : CodeMap.node Details)
         (o current tree d : Js.object (CodeMap.node Details))
         (cm r : CodeMap.codeMap Details)
         (cms seen : list (CodeMap.codeMap Details)).

Lemma first_occurrences_snoc (l : list string) (k : string) :
  first_occurrences (l ++ [k])
  = if existsb (String.eqb k) (first_occurrences l)
    then first_occurrences l
    else first_occurrences l ++ [k].
Proof. unfold first_occurrences. now rewrite fold_left_app. Qed.

Lemma first_occurrences_In (l : list string) (k : string) :
  In k (first_occurrences l) <-> In k l.
Proof.
  induction l as [|a l IH] using rev_ind; [reflexivity|].
  rewrite first_occurrences_snoc, in_app_iff.
  destruct (existsb (String.eqb a) (first_occurrences l)) eqn:E.
  - rewrite IH. split; [auto|]. intros [H|[<-|[]]]; [exact H|].
    apply existsb_exists in E. destruct E as [x [Hx Heq]].
    apply String.eqb_eq in Heq. subst x. now apply IH.
  - rewrite in_app_iff, IH. reflexivity.
Qed.

Lemma next_after_app (ps : list string) (k : string) (rest : list string) :
  next_after ps (ps ++ k :: rest) = [k].
Proof.
  induction ps as [|p ps IH]; [reflexivity|]. cbn.
  now rewrite String.eqb_refl.
Qed.

Lemma next_after_In (ps parts : list string) (k : string) :
  In k (next_after ps parts) -> exists rest, parts = ps ++ k :: rest.
Proof.
  revert parts. induction ps as [|p ps IH]; intros [|q parts]; cbn.
  - intros [].
  - intros [<-|[]]. now exists parts.
  - intros [].
  - destruct (String.eqb_spec p q) as [->|Hne]; [|intros []].
    intros H. destruct (IH _ H) as [rest ->]. now exists rest.
Qed.

Lemma next_after_whole (ps qs : list string) :
  next_after (ps ++ qs) ps = [].
Proof.
  induction ps as [|p ps IH]; cbn; [now destruct qs|].
  now rewrite String.eqb_refl.
Qed.

Lemma next_after_other (done qs rest : list string) (p q : string) :
  q <> p -> next_after (done ++ q :: qs) (done ++ p :: rest) = [].
Proof.
  intros Hne. induction done as [|a done IH]; cbn.
  - destruct (String.eqb_spec q p); [contradiction|reflexivity].
  - now rewrite String.eqb_refl.
Qed.

Lemma next_segments_snoc (ps : list string) seen r :
  next_segments ps (seen ++ [r])
  = next_segments ps seen
      ++ next_after ps (Js.split "/"%char (CodeMap.file_path r)).
Proof.
  unfold next_segments. rewrite flat_map_app. cbn. now rewrite app_nil_r.
Qed.

Lemma own_keys o (k : string) :
  existsb (String.eqb k) (map fst o)
  = match Js.own o k with Some _ => true | None => false end.
Proof.
  unfold Js.own. induction o as [|[k' n'] o IH]; [reflexivity|]. cbn.
  rewrite String.eqb_sym. destruct (String.eqb k' k); [reflexivity|exact IH].
Qed.

(** The names of every dictionary of the tree are the segments that
    follow its place in the paths walked so far, each where it came
    first. *)
Lemma walk_order seen cm len parts :
  forall done idx current t',
    Js.split "/"%char (CodeMap.file_path cm) = done ++ parts ->
    Forall (fun part => Js.inherited part = false) parts ->
    (forall qs d, dict_at qs current = Some d ->
                  map fst d
                  = first_occurrences (next_segments (done ++ qs) seen)) ->
    CodeMap.walk cm len parts idx current = Some t' ->
    forall qs d, dict_at qs t' = Some d ->
                 map fst d
                 = first_occurrences
                     (next_segments (done ++ qs) (seen ++ [cm])).
Proof.
  induction parts as [|part rest IH];
    intros done idx current t' Hsplit Hplain Hcur Hw qs d Hd.
  - injection Hw as <-. rewrite next_segments_snoc, Hsplit.
    rewrite app_nil_r, next_after_whole, app_nil_r. now apply Hcur.
  - apply walk_inv in Hw.
    destruct Hw as [(Hr & _ & _)|(n0 & ch' & Hn0 & Hw & ->)].
    { apply read_Inherited in Hr. destruct Hr as [_ Hr].
      apply Forall_inv in Hplain. congruence. }
    destruct qs as [|q qs'].
    + rewrite next_segments_snoc, Hsplit.
      cbn in Hd. injection Hd as <-. rewrite app_nil_r, next_after_app.
      rewrite first_occurrences_snoc, set_keys.
      pose proof (Hcur [] current eq_refl) as Htop.
      rewrite app_nil_r in Htop. rewrite <- Htop, own_keys.
      destruct Hn0 as [Hr|[Hr _]].
      * apply read_Own in Hr. now rewrite Hr.
      * apply read_Undefined in Hr. destruct Hr as [Hr _]. now rewrite Hr.
    + cbn [dict_at] in Hd.
      destruct (String.eqb_spec part q) as [<-|Hne].
      * rewrite own_set_same in Hd.
        cbn [CodeMap.with_children CodeMap.children] in Hd.
        replace (done ++ part :: qs') with ((done ++ [part]) ++ qs')
          by (now rewrite <- app_assoc).
        replace (done ++ part :: rest) with ((done ++ [part]) ++ rest)
          in Hsplit by (now rewrite <- app_assoc).
        apply (IH (done ++ [part]) (S idx) (CodeMap.children n0) ch');
          auto.
        -- now apply Forall_inv_tail in Hplain.
        -- intros ps d0 Hd0. rewrite <- app_assoc. cbn [app].
           destruct Hn0 as [Hr|[Hr ->]].
           ++ apply read_Own in Hr. apply Hcur. cbn [dict_at].
              now rewrite Hr.
           ++ cbn [CodeMap.new_node CodeMap.children] in Hd0.
              destruct ps as [|p ps']; [|discriminate Hd0].
              injection Hd0 as <-. cbn [app map].
              apply read_Undefined in Hr. destruct Hr as [Hr _].
              pose proof (Hcur [] current eq_refl) as Htop.
              rewrite app_nil_r in Htop.
              destruct (first_occurrences (next_segments (done ++ [part]) seen))
                as [|k l] eqn:E; [reflexivity|exfalso].
              assert (Hk : In k (next_segments (done ++ [part]) seen)).
              { apply (proj1 (first_occurrences_In _ _)). rewrite E.
                now left. }
              unfold next_segments in Hk. apply in_flat_map in Hk.
              destruct Hk as [r0 [Hr0 Hk]]. apply next_after_In in Hk.
              destruct Hk as [rest0 Hk]. rewrite <- app_assoc in Hk.
              cbn [app] in Hk.
              assert (Hpart : In part (map fst current)).
              { rewrite Htop. apply (proj2 (first_occurrences_In _ _)).
                unfold next_segments. apply in_flat_map. exists r0.
                split; [exact Hr0|]. rewrite Hk, next_after_app. now left. }
              now apply (own_None_keys current part Hr).
      * rewrite own_set_other in Hd by exact Hne.
        rewrite next_segments_snoc, Hsplit.
        rewrite next_after_other by congruence. rewrite app_nil_r.
        apply Hcur. exact Hd.
Qed.

Lemma add_records_order cms :
  forall seen tree tree',
    Forall (fun r => Forall (fun part => Js.inherited part = false)
                            (Js.split "/"%char (CodeMap.file_path r))) cms ->
    (forall qs d, dict_at qs tree = Some d ->
                  map fst d = first_occurrences (next_segments qs seen)) ->
    CodeMap.add_records cms tree = Some tree' ->
    forall qs d, dict_at qs tree' = Some d ->
                 map fst d
                 = first_occurrences (next_segments qs (seen ++ cms)).
Proof.
  induction cms as [|cm cms IH]; intros seen tree tree' Hplain Ht H qs d Hd.
  - injection H as <-. rewrite app_nil_r. now apply Ht.
  - cbn in H. destruct (CodeMap.add_record tree cm) as [t1|] eqn:E;
      [|discriminate].
    replace (seen ++ cm :: cms) with ((seen ++ [cm]) ++ cms)
      by (now rewrite <- app_assoc).
    inversion Hplain as [|? ? Hcm Hrest]; subst.
    apply (IH (seen ++ [cm]) t1 tree'); auto.
    unfold CodeMap.add_record in E.
    apply (walk_order seen cm
             (List.length (Js.split "/"%char (CodeMap.file_path cm)))
             (Js.split "/"%char (CodeMap.file_path cm)) [] 0 tree t1); auto.
Qed.

Lemma node_at_dict_at ps :
  forall o n, node_at ps o = Some n ->
              dict_at ps o = Some (CodeMap.children n).
Proof.
  induction ps as [|p ps IH]; intros o n Hn; [discriminate Hn|].
  rewrite node_at_cons in Hn. cbn [dict_at].
  destruct (Js.own o p) as [n0|]; [|discriminate Hn].
  destruct ps as [|q ps']; [now injection Hn as <-|]. now apply IH.
Qed.

Lemma entries_without_index {A : Type} (o : Js.object A) :
  Forall (fun e => Js.array_index (fst e) = None) o -> Js.entries o = o.
Proof.
  intros H. unfold Js.entries, Js.named_entries.
  assert (Hi : Js.index_entries o = []).
  { induction o as [|e o IH]; [reflexivity|].
    inversion H as [|? ? He Hrest]; subst. cbn. rewrite He. now apply IH. }
  rewrite Hi. cbn [map app].
  induction o as [|e o IH]; [reflexivity|].
  inversion H as [|? ? He Hrest]; subst. cbn. rewrite He. f_equal.
  apply IH; [exact Hrest|].
  cbn in Hi. now rewrite He in Hi.
Qed.

(** The titles of a converted dictionary without index names are its
    names, in their order. *)
Lemma convertToArray_titles_in_order d :
  well_keyed d ->
  Forall (fun e => Js.array_index (fst e) = None) d ->
  map CodeMap.ttitle (CodeMap.convertToArray d) = map fst d.
Proof.
  intros [_ Ht] Hni. rewrite convertToArray_eq. unfold Js.values.
  rewrite (entries_without_index d Hni), !map_map.
  apply map_ext_in. intros e He. rewrite convert_item_eq. cbn.
  now apply (proj1 (Forall_forall _ _) Ht).
Qed.

Lemma next_segments_are_segments (ps : list string) cms (k : string) :
  In k (next_segments ps cms) ->
  exists r, In r cms /\ In k (Js.split "/"%char (CodeMap.file_path r)).
Proof.
  unfold next_segments. intros H. apply in_flat_map in H.
  destruct H as [r [Hr Hk]]. apply next_after_In in Hk.
  destruct Hk as [rest Hk]. exists r. split; [exact Hr|].
  rewrite Hk. apply in_or_app. right. now left.
Qed.

End Order.

(** X12. When no segment is an inherited property name or an array
    index, the roots of the forest and the children of every node are
    listed in the order in which their names first come up in the
    collection: the titles of the children of the node at place [ps]
    are the segments that follow [ps] in the paths, without
    repetitions, each where it first occurs. *)
Theorem children_in_order_of_first_occurrence
        (Details : Type) (cms : list (CodeMap.codeMap Details))
        (forest : list (CodeMap.treeNode Details)) :
  plain_segments cms ->
  Forall (fun r => Forall (fun part => Js.array_index part = None)
                          (Js.split "/"%char (CodeMap.file_path r))) cms ->
  CodeMap.buildTreeData cms = Some forest ->
  map CodeMap.ttitle forest = first_occurrences (next_segments [] cms)
  /\ forall ps x kids,
      In (ps, x) (forest_located [] forest) ->
      CodeMap.tchildren x = Some kids ->
      map CodeMap.ttitle kids = first_occurrences (next_segments ps cms).
Proof.
  intros Hplain Hni Hb.
  destruct (build_inv cms forest Hb) as (tree & E & -> & Hk).
  assert (Horder : forall qs d,
             dict_at qs tree = Some d ->
             map fst d = first_occurrences (next_segments qs cms)).
  { apply (add_records_order cms [] [] tree Hplain); [|exact E].
    intros qs d Hd. destruct qs; [|discriminate Hd].
    now injection Hd as <-. }
  assert (Hnames : forall qs d,
             dict_at qs tree = Some d ->
             Forall (fun e => Js.array_index (fst e) = None) d).
  { intros qs d Hd. apply Forall_forall. intros e He.
    assert (Hin : In (fst e) (map fst d)) by now apply in_map.
    rewrite (Horder qs d Hd) in Hin.
    apply (proj1 (first_occurrences_In _ _)) in Hin.
    destruct (next_segments_are_segments qs cms _ Hin) as [r [Hr Hseg]].
    apply (proj1 (Forall_forall _ _) Hni) in Hr.
    now apply (proj1 (Forall_forall _ _) Hr). }
  split.
  - rewrite convertToArray_titles_in_order.
    + now apply (Horder [] tree).
    + apply Hk.
    + now apply (Hnames [] tree).
  - intros ps x kids Hin Hkids.
    destruct (forest_located_node_at tree ps x Hk Hin) as [n [Hn ->]].
    rewrite tchildren_convert_item in Hkids.
    destruct (CodeMap.children n) as [|e ch] eqn:Ech; [discriminate Hkids|].
    injection Hkids as <-. rewrite <- Ech.
    pose proof (node_at_dict_at ps tree n Hn) as Hd.
    rewrite convertToArray_titles_in_order.
    + now apply Horder.
    + assert (Hn' : In n (CodeMap.object_nodes tree)).
      { rewrite <- (object_located_nodes tree []).
        apply in_map_iff. exists (ps, n). split; [reflexivity|].
        now apply (node_at_located ps [] tree n). }
      destruct Hk as [_ Hdeep].
      now apply (proj1 (Forall_forall _ _) Hdeep).
    + now apply (Hnames ps).
Qed.

Lemma children_in_order_witness :
  map CodeMap.ttitle
    [ CodeMap.TreeNode "src/b.js0" "src" CodeMap.FolderOutlined
        (Some [ CodeMap.TreeNode "src/b.js1" "b.js" CodeMap.FileOutlined
                  None true (Some (CodeMap.CodeMapRecord "src/b.js" 5));
                CodeMap.TreeNode "src/a.js1" "a.js" CodeMap.FileOutlined
                  None true (Some (CodeMap.CodeMapRecord "src/a.js" 7)) ])
        false None;
      CodeMap.TreeNode "readme.md0" "readme.md" CodeMap.FileOutlined None
        true (Some (CodeMap.CodeMapRecord "readme.md" 2)) ]
  = ["src"; "readme.md"].
Proof.
  apply (proj1 (children_in_order_of_first_occurrence nat
                  [ CodeMap.CodeMapRecord "src/b.js" 5;
                    CodeMap.CodeMapRecord "readme.md" 2;
                    CodeMap.CodeMapRecord "src/a.js" 7 ]
                  _ ltac:(repeat constructor) ltac:(repeat constructor)
                  eq_refl)).
Defined.

(** * Submitting a form *)

Section SubmitFacts.
Context {Error : Type}.
Variables (route success_text error_text : string) (resets_form : bool).

Local Abbreviation sstep :=
  (Submit.step Error route success_text error_text resets_form).
Local Abbreviation srun :=
  (Submit.run Error route success_text error_text resets_form).

Lemma filter_all_kept {A : Type} (f : A -> bool) (l : list A) :
  Forall (fun x => f x = true) l -> filter f l = l.
Proof.
  induction 1 as [|x l Hx _ IH]; [reflexivity|]. cbn. now rewrite Hx, IH.
Qed.

(** The timeout that fires is one of the pending ones, and the only
    one that goes. *)
Lemma fired_timeout_perm (l : list (nat * string)) (t i : nat)
      (path : string) :
  NoDup (map fst l) ->
  find (fun x => Nat.eqb (fst x) t) l = Some (i, path) ->
  Permutation ((i, path) :: filter (fun x => negb (Nat.eqb (fst x) t)) l) l.
Proof.
  induction l as [|x l IH]; [discriminate|]. cbn [map find filter].
  intros Hnd Hf. inversion Hnd as [|? ? Hnot Hnd']; subst.
  destruct (Nat.eqb (fst x) t) eqn:E; cbn [negb].
  - injection Hf as ->. apply Nat.eqb_eq in E.
    rewrite filter_all_kept; [reflexivity|].
    apply Forall_forall. intros y Hy.
    destruct (Nat.eqb (fst y) t) eqn:Ey; [|reflexivity].
    apply Nat.eqb_eq in Ey. exfalso. apply Hnot.
    rewrite E, <- Ey. now apply in_map.
  - etransitivity; [apply perm_swap|]. apply perm_skip. now apply IH.
Qed.

Lemma timeouts_distinct_step (s : Submit.page Error)
      (e : Submit.event Error) :
  timeouts_distinct s -> timeouts_distinct (sstep s e).
Proof.
  intros [Hnd Hlt]. destruct e as [|k o|t]; cbn [Submit.step].
  - split; assumption.
  - unfold Submit.handleSubmit_resume.
    destruct (existsb (Nat.eqb k) (Submit.pending s)); [|now split].
    destruct o as [id|err]; [|now split].
    unfold timeouts_distinct.
    cbn [Submit.timeouts Submit.next_timeout]. split.
    + rewrite map_app. cbn [map fst].
      apply NoDup_app; [exact Hnd|repeat constructor; intros []|].
      intros x Hx [<-|[]]. apply in_map_iff in Hx.
      destruct Hx as (y & Hy & Hin).
      pose proof (proj1 (Forall_forall _ _) Hlt y Hin) as H.
      cbn beta in H. lia.
    + apply Forall_app. split.
      * eapply Forall_impl; [|exact Hlt]. cbn beta. intros; lia.
      * repeat constructor.
  - unfold Submit.fire.
    destruct (find _ (Submit.timeouts s)) as [[i path]|]; [|now split].
    unfold timeouts_distinct.
    cbn [Submit.timeouts Submit.next_timeout]. split.
    + clear Hlt. induction (Submit.timeouts s) as [|x l IH];
        [constructor|].
      cbn [map] in Hnd. inversion Hnd as [|? ? Hnot Hnd']; subst.
      cbn [filter]. destruct (negb (Nat.eqb (fst x) t)); [|now apply IH].
      cbn [map]. constructor; [|now apply IH].
      intros Hin. apply Hnot. apply in_map_iff in Hin.
      destruct Hin as (y & Hy & Hin). apply filter_In in Hin.
      apply in_map_iff. exists y. split; [exact Hy|apply Hin].
    + apply Forall_forall. intros x Hx. apply filter_In in Hx.
      apply (proj1 (Forall_forall _ _) Hlt x). apply Hx.
Qed.

(** What a run of events leaves on the page, told by the awaits that
    ended in it. *)
Lemma submit_run_spec (trace : list (Submit.event Error)) :
  forall s : Submit.page Error,
    timeouts_distinct s ->
    let s' := srun s trace in
    let outs := awaits_ended (Submit.pending s) (Submit.calls s) trace in
    Submit.messages s'
    = Submit.messages s ++ map (message_for success_text error_text) outs
    /\ Submit.console s' = Submit.console s ++ errors_caught outs
    /\ Submit.resets s'
       = Submit.resets s
         + (if resets_form then List.length (created_ids outs) else 0)
    /\ Permutation
         (Submit.navigations s' ++ map snd (Submit.timeouts s'))
         (Submit.navigations s ++ map snd (Submit.timeouts s)
          ++ map (String.append route) (created_ids outs)).
Proof.
  induction trace as [|e trace IH]; intros s Hwf.
  - cbn. rewrite !app_nil_r. repeat split; auto.
    now destruct resets_form.
  - pose proof (IH (sstep s e) (timeouts_distinct_step s e Hwf)) as H.
    cbv zeta in H |- *.
    change (srun s (e :: trace)) with (srun (sstep s e) trace).
    destruct H as (Hm & Hc & Hr & Hp).
    destruct e as [|k o|t]; cbn [Submit.step awaits_ended] in *.
    + auto.
    + unfold Submit.handleSubmit_resume in *.
      destruct (existsb (Nat.eqb k) (Submit.pending s)); [|auto].
      destruct o as [id|err];
        cbn [Submit.messages Submit.console Submit.resets
             Submit.navigations Submit.timeouts Submit.pending
             Submit.calls] in Hm, Hc, Hr, Hp;
        cbn [map message_for created_ids errors_caught flat_map app].
      * fold (created_ids
                (awaits_ended
                   (filter (fun j => negb (Nat.eqb j k)) (Submit.pending s))
                   (Submit.calls s) trace)) in *.
        fold (errors_caught
                (awaits_ended
                   (filter (fun j => negb (Nat.eqb j k)) (Submit.pending s))
                   (Submit.calls s) trace)) in *.
        rewrite Hm, Hc, Hr, <- app_assoc. cbn [app List.length map].
        split; [reflexivity|]. split; [reflexivity|].
        split; [destruct resets_form; lia|].
        rewrite map_app, <- app_assoc in Hp. exact Hp.
      * fold (created_ids
                (awaits_ended
                   (filter (fun j => negb (Nat.eqb j k)) (Submit.pending s))
                   (Submit.calls s) trace)) in *.
        fold (errors_caught
                (awaits_ended
                   (filter (fun j => negb (Nat.eqb j k)) (Submit.pending s))
                   (Submit.calls s) trace)) in *.
        rewrite Hm, Hc, Hr, <- !app_assoc. cbn [app].
        repeat split; auto.
    + unfold Submit.fire in *.
      destruct (find _ (Submit.timeouts s)) as [[i path]|] eqn:E; [|auto].
      cbn [Submit.messages Submit.console Submit.resets
           Submit.navigations Submit.timeouts Submit.pending
           Submit.calls] in Hm, Hc, Hr, Hp.
      split; [exact Hm|]. split; [exact Hc|]. split; [exact Hr|].
      etransitivity; [exact Hp|].
      rewrite <- app_assoc. apply Permutation_app_head.
      cbn [app]. rewrite !app_comm_cons. apply Permutation_app_tail.
      change (path :: map snd
                (filter (fun x => negb (Nat.eqb (fst x) t))
                        (Submit.timeouts s)))
        with (map snd ((i, path)
                         :: filter (fun x => negb (Nat.eqb (fst x) t))
                                   (Submit.timeouts s))).
      apply Permutation_map. apply fired_timeout_perm; [apply Hwf|exact E].
Qed.

Lemma initial_timeouts_distinct : timeouts_distinct (Submit.initial Error).
Proof. split; constructor. Qed.

End SubmitFacts.

(** X13. Submitting the two forms, whatever is submitted and however
    the calls end. For each await that ends, in the order in which they
    end, the page shows one message: the success text for a fulfilled
    call, the error text for a rejected one; the errors of the rejected
    calls, and nothing else, are logged, each once and in that order;
    the navigations made and those still waiting for their timeout are
    together exactly the routes [/agents/<id>] (requirement form) and
    [/code-map/<id>] (project form) of the ids that the fulfilled calls
    returned, one for each, so a rejected call navigates nowhere; the
    requirement form is reset once for each fulfilled call and the
    project form never. *)
Theorem forms_navigate_only_to_created_ids
        (Error : Type) (trace : list (Submit.event Error)) :
  let outs := awaits_ended [] 0 trace in
  (let s := RequirementForm.run (Submit.initial Error) trace in
   Submit.messages s
   = map (message_for "İstek analiz ediliyor!"
                      "İstek oluşturulurken hata oluştu!") outs
   /\ Submit.console s = errors_caught outs
   /\ Permutation
        (Submit.navigations s ++ map snd (Submit.timeouts s))
        (map (String.append "/agents/") (created_ids outs))
   /\ Submit.resets s = List.length (created_ids outs))
  /\
  (let s := CodeAnalysis.run (Submit.initial Error) trace in
   Submit.messages s
   = map (message_for "Proje oluşturuldu! Analiz başlatılıyor..."
                      "Proje oluşturulurken hata oluştu!") outs
   /\ Submit.console s = errors_caught outs
   /\ Permutation
        (Submit.navigations s ++ map snd (Submit.timeouts s))
        (map (String.append "/code-map/") (created_ids outs))
   /\ Submit.resets s = 0).
Proof.
  intros outs. split; intros s.
  - destruct (submit_run_spec "/agents/" "İstek analiz ediliyor!"
                "İstek oluşturulurken hata oluştu!" true trace
                (Submit.initial Error) initial_timeouts_distinct)
      as (Hm & Hc & Hr & Hp).
    subst s outs. unfold RequirementForm.run. auto.
  - destruct (submit_run_spec "/code-map/"
                "Proje oluşturuldu! Analiz başlatılıyor..."
                "Proje oluşturulurken hata oluştu!" false trace
                (Submit.initial Error) initial_timeouts_distinct)
      as (Hm & Hc & Hr & Hp).
    subst s outs. unfold CodeAnalysis.run. auto.
Qed.

(** The navigation does happen: a submission whose call is fulfilled
    with id [7] goes to [/agents/7] when its timeout fires, and nowhere
    when the call is rejected. *)
Example requirement_form_navigates_after_timeout :
  Submit.navigations
    (RequirementForm.run (Submit.initial unit)
       [Submit.Submit; Submit.Settle 0 (Polling.Fulfilled "7");
        Submit.Timeout 0])
  = ["/agents/7"]
  /\ Submit.navigations
       (RequirementForm.run (Submit.initial unit)
          [Submit.Submit; Submit.Settle 0 (Polling.Rejected tt);
           Submit.Timeout 0])
     = [].
Proof. split; reflexivity. Qed.
